(** * An insertion-ordered map with a JSON codec: orderedmap.go

  A shallow embedding of package [orderedmap] and of the parts of Go's
  [sort] and [encoding/json] packages that it calls, followed by the
  properties of the container, its encoder and its decoder. *)

From Stdlib Require Import ZArith String Ascii List Permutation.
From stdpp Require Import gmap strings list fin_maps sorting.

Set Warnings "-register-all,-abstract-large-number,-clear-no-such-hyp".

(** ** The container

  [type OrderedMap[T any] struct { keys []string; values map[string]T;
  escapeHTML bool }].  A Go slice is a list, a Go map a [gmap]; a nil
  slice or map behaves as the empty one in every operation below that
  reads it. *)

(** The zero value of a Go type: what [m[k]] yields for a missing key. *)
Class GoZero (T : Type) := zero : T.

Global Instance Z_GoZero : GoZero Z := 0%Z.

Record Pair (T : Type) := mkPair { key : string; value : T }.
Arguments mkPair {T} _ _.
Arguments key {T} _.
Arguments value {T} _.

Record OrderedMap (T : Type) := mkOrderedMap {
keys : list string;
values : gmap string T;
escapeHTML : bool
}.
Arguments mkOrderedMap {T} _ _ _.
Arguments keys {T} _.
Arguments values {T} _.
Arguments escapeHTML {T} _.

Section Container.
Context {T : Type} `{GoZero T}.

Definition New : OrderedMap T :=
  {| keys := []; values := ∅; escapeHTML := true |}.

Definition SetEscapeHTML (o : OrderedMap T) (on : bool) : OrderedMap T :=
  {| keys := keys o; values := values o; escapeHTML := on |}.

(** [val, exists := o.values[key]] *)
Definition Get (o : OrderedMap T) (key : string) : T * bool :=
  match values o !! key with
  | Some val => (val, true)
  | None => (zero, false)
  end.

Definition Set_ (o : OrderedMap T) (key : string) (val : T) : OrderedMap T :=
  let ks := if values o !! key is Some _ then keys o else keys o ++ [key] in
  {| keys := ks; values := <[key := val]> (values o); escapeHTML := escapeHTML o |}.

(** [for i, k := range ks { if k == key { ...; break } }]: the first index
    that holds [key]. *)
Definition index_of (key : string) (ks : list string) : option nat :=
  fst <$> list_find (λ k, k = key) ks.

(** [append(ks[:i], ks[i+1:]...)] *)
Definition cut (i : nat) (ks : list string) : list string :=
  take i ks ++ drop (S i) ks.

Definition Delete (o : OrderedMap T) (key : string) : OrderedMap T :=
  match values o !! key with
  | None => o
  | Some _ =>
      let ks := match index_of key (keys o) with
                | Some i => cut i (keys o)
                | None => keys o
                end in
      {| keys := ks; values := delete key (values o); escapeHTML := escapeHTML o |}
  end.

Definition Keys (o : OrderedMap T) : list string := keys o.

(** [sortFunc(o.keys)]: the callback receives the slice and rewrites its
    elements in place; it cannot change the length the container sees, so
    it is a function from the old contents to the new ones, cut or filled
    to the old length. *)
Definition in_place (f : list string → list string) (ks : list string) : list string :=
  take (length ks) (f ks) ++ drop (length (f ks)) ks.

Definition SortKeys (o : OrderedMap T) (sortFunc : list string → list string) : OrderedMap T :=
  {| keys := in_place sortFunc (keys o); values := values o; escapeHTML := escapeHTML o |}.

End Container.

(** ** Package sort

  [sort.Sort] as Go 1.19 and later implement it: a pattern-defeating
  quicksort over the three methods [Len], [Swap] and [Less] of
  [sort.Interface].  [ByPair] implements them on a slice of pairs:
  [Swap] exchanges two slots and [Less(i, j)] is
  [LessFunc(Pairs[i], Pairs[j])]. *)

Module GoSort.
Section Interface.
Context {A : Type} (less : A → A → bool).
Implicit Types (data : list A).

Definition Swap (i j : nat) data : list A :=
  match data !! i, data !! j with
  | Some x, Some y => <[i := y]> (<[j := x]> data)
  | _, _ => data
  end.

Definition Less data (i j : nat) : bool :=
  match data !! i, data !! j with
  | Some x, Some y => less x y
  | _, _ => false
  end.

(** [for j := i; j > a && data.Less(j, j-1); j-- { data.Swap(j, j-1) }] *)
Fixpoint sink (a j : nat) data : list A :=
  match j with
  | S j' => if (a <? j) && Less data j j' then sink a j' (Swap j j' data) else data
  | 0 => data
  end.

(** [for i := a + 1; i < b; i++]: [n] counts the rounds left. *)
Fixpoint insertion_loop (a n i : nat) data : list A :=
  match n with
  | 0 => data
  | S n' => insertion_loop a n' (S i) (sink a i data)
  end.

Definition insertionSort data (a b : nat) : list A :=
  insertion_loop a (b - (a + 1)) (a + 1) data.

(** [siftDown]: [root] grows in every round and the loop ends when
    [2*root+1 >= hi], so [hi] rounds always suffice. *)
Fixpoint siftDown_loop (n root hi first : nat) data : list A :=
  match n with
  | 0 => data
  | S n' =>
      let child := 2 * root + 1 in
      if hi <=? child then data
      else
        let child :=
          if (child + 1 <? hi) && Less data (first + child) (first + child + 1)
          then child + 1 else child in
        if negb (Less data (first + root) (first + child)) then data
        else siftDown_loop n' child hi first (Swap (first + root) (first + child) data)
  end.

Definition siftDown data (lo hi first : nat) : list A :=
  siftDown_loop hi lo hi first data.

Definition heapSort data (a b : nat) : list A :=
  let first := a in
  let lo := 0 in
  let hi := b - a in
  (* for i := (hi - 1) / 2; i >= 0; i-- *)
  let data := foldl (λ d i, siftDown d i hi first) data
                    (rev (seq 0 (Nat.div (hi - 1) 2 + 1))) in
  (* for i := hi - 1; i >= 0; i-- *)
  foldl (λ d i, siftDown (Swap first (first + i) d) lo i first) data
        (rev (seq 0 hi)).

(** [for i < j { data.Swap(i, j); i++; j-- }] *)
Fixpoint reverse_loop (n i j : nat) data : list A :=
  match n with
  | 0 => data
  | S n' => if i <? j then reverse_loop n' (S i) (j - 1) (Swap i j data) else data
  end.

Definition reverseRange data (a b : nat) : list A :=
  reverse_loop (b - a) a (b - 1) data.

Inductive sortedHint := unknownHint | increasingHint | decreasingHint.

Definition order2 data (a b swaps : nat) : nat * nat * nat :=
  if Less data b a then (b, a, S swaps) else (a, b, swaps).

Definition median data (a b c swaps : nat) : nat * nat :=
  let '(a, b, swaps) := order2 data a b swaps in
  let '(b, c, swaps) := order2 data b c swaps in
  let '(a, b, swaps) := order2 data a b swaps in
  (b, swaps).

Definition medianAdjacent data (a swaps : nat) : nat * nat :=
  median data (a - 1) a (a + 1) swaps.

Definition choosePivot data (a b : nat) : nat * sortedHint :=
  let l := b - a in
  let i := a + Nat.div l 4 * 1 in
  let j := a + Nat.div l 4 * 2 in
  let k := a + Nat.div l 4 * 3 in
  let '(j, swaps) :=
    if 8 <=? l then
      let '(i, j, k, swaps) :=
        if 50 <=? l then
          let '(i, swaps) := medianAdjacent data i 0 in
          let '(j, swaps) := medianAdjacent data j swaps in
          let '(k, swaps) := medianAdjacent data k swaps in
          (i, j, k, swaps)
        else (i, j, k, 0) in
      median data i j k swaps
    else (j, 0) in
  match swaps with
  | 0 => (j, increasingHint)
  | 12 => (j, decreasingHint)
  | _ => (j, unknownHint)
  end.

(** [for i < b && !data.Less(i, i-1) { i++ }] *)
Fixpoint run_end (n i b : nat) data : nat :=
  match n with
  | 0 => i
  | S n' => if (i <? b) && negb (Less data i (i - 1)) then run_end n' (S i) b data else i
  end.

(** [for j := i - 1; j >= 1; j-- { if !data.Less(j, j-1) { break };
    data.Swap(j, j-1) }] *)
Fixpoint shift_left (j : nat) data : list A :=
  match j with
  | S j' => if Less data j j' then shift_left j' (Swap j j' data) else data
  | 0 => data
  end.

(** [for j := i + 1; j < b; j++ { if !data.Less(j, j-1) { break };
    data.Swap(j, j-1) }] *)
Fixpoint shift_right (n j : nat) data : list A :=
  match n with
  | 0 => data
  | S n' => if Less data j (j - 1) then shift_right n' (S j) (Swap j (j - 1) data) else data
  end.

Fixpoint partial_loop (steps i a b : nat) data : list A * bool :=
  match steps with
  | 0 => (data, false)
  | S steps' =>
      let i := run_end (b - i) i b data in
      if i =? b then (data, true)
      else if b - a <? 50 then (data, false)
      else
        let data := Swap i (i - 1) data in
        let data := if 2 <=? i - a then shift_left (i - 1) data else data in
        let data := if 2 <=? b - i then shift_right (b - (i + 1)) (i + 1) data else data in
        partial_loop steps' i a b data
  end.

Definition partialInsertionSort data (a b : nat) : list A * bool :=
  partial_loop 5 (a + 1) a b data.

Definition xorshift_Next (r : Z) : Z :=
  let r := Z.lxor r (Z.shiftl r 13 mod 2 ^ 64) in
  let r := Z.lxor r (Z.shiftr r 7) in
  Z.lxor r (Z.shiftl r 17 mod 2 ^ 64).

(** [bits.Len] *)
Definition bits_Len (n : nat) : nat :=
  match n with 0 => 0 | _ => S (Nat.log2 n) end.

Definition nextPowerOfTwo (length : nat) : Z := 2 ^ Z.of_nat (bits_Len length).

Fixpoint break_loop (n i idx a length : nat) (modulus random : Z) data : list A :=
  match n with
  | 0 => data
  | S n' =>
      let random := xorshift_Next random in
      let other := Z.to_nat (Z.land random (modulus - 1)) in
      let other := if length <=? other then other - length else other in
      break_loop n' (S i) idx a length modulus random (Swap (idx - 1 + i) (a + other) data)
  end.

Definition breakPatterns data (a b : nat) : list A :=
  let length := b - a in
  if 8 <=? length then
    let random := Z.of_nat length in
    let modulus := nextPowerOfTwo length in
    let idx := a + Nat.div length 4 * 2 - 1 in
    break_loop 3 0 idx a length modulus random data
  else data.

(** [for i <= j && data.Less(i, a) { i++ }] *)
Fixpoint scan_up (n i j a : nat) data : nat :=
  match n with
  | 0 => i
  | S n' => if (i <=? j) && Less data i a then scan_up n' (S i) j a data else i
  end.

(** [for i <= j && !data.Less(j, a) { j-- }] *)
Fixpoint scan_down (n i j a : nat) data : nat :=
  match n with
  | 0 => j
  | S n' => if (i <=? j) && negb (Less data j a) then scan_down n' i (j - 1) a data else j
  end.

Fixpoint partition_loop (n i j a : nat) data : list A * nat :=
  match n with
  | 0 => (data, j)
  | S n' =>
      let i := scan_up (S j - i) i j a data in
      let j := scan_down (S j - i) i j a data in
      if j <? i then (data, j)
      else partition_loop n' (S i) (j - 1) a (Swap i j data)
  end.

Definition partition data (a b pivot : nat) : list A * nat * bool :=
  let data := Swap a pivot data in
  let i := a + 1 in
  let j := b - 1 in
  let i := scan_up (S j - i) i j a data in
  let j := scan_down (S j - i) i j a data in
  if j <? i then (Swap j a data, j, true)
  else
    let data := Swap i j data in
    let '(data, j) := partition_loop (S j - i) (S i) (j - 1) a data in
    (Swap j a data, j, false).

(** [for i <= j && !data.Less(a, i) { i++ }] *)
Fixpoint scan_up_eq (n i j a : nat) data : nat :=
  match n with
  | 0 => i
  | S n' => if (i <=? j) && negb (Less data a i) then scan_up_eq n' (S i) j a data else i
  end.

(** [for i <= j && data.Less(a, j) { j-- }] *)
Fixpoint scan_down_eq (n i j a : nat) data : nat :=
  match n with
  | 0 => j
  | S n' => if (i <=? j) && Less data a j then scan_down_eq n' i (j - 1) a data else j
  end.

Fixpoint partitionEqual_loop (n i j a : nat) data : list A * nat :=
  match n with
  | 0 => (data, i)
  | S n' =>
      let i := scan_up_eq (S j - i) i j a data in
      let j := scan_down_eq (S j - i) i j a data in
      if j <? i then (data, i)
      else partitionEqual_loop n' (S i) (j - 1) a (Swap i j data)
  end.

Definition partitionEqual data (a b pivot : nat) : list A * nat :=
  let data := Swap a pivot data in
  partitionEqual_loop (b - a) (a + 1) (b - 1) a data.

Definition is_increasing (h : sortedHint) : bool :=
  match h with increasingHint => true | _ => false end.

(** [pdqsort]: one unit of [fuel] per round of the outer loop and per
    recursive call; [None] when it is used up. *)
Fixpoint pdqsort (fuel : nat) data (a b limit : nat)
    (wasBalanced wasPartitioned : bool) : option (list A) :=
  match fuel with
  | 0 => None
  | S fuel =>
      let length := b - a in
      if length <=? 12 then Some (insertionSort data a b)
      else if limit =? 0 then Some (heapSort data a b)
      else
        let '(data, limit) :=
          if negb wasBalanced then (breakPatterns data a b, limit - 1)
          else (data, limit) in
        let '(pivot, hint) := choosePivot data a b in
        let '(data, pivot, hint) :=
          match hint with
          | decreasingHint =>
              (reverseRange data a b, (b - 1) - (pivot - a), increasingHint)
          | _ => (data, pivot, hint)
          end in
        let '(data, done) :=
          if wasBalanced && wasPartitioned && is_increasing hint
          then partialInsertionSort data a b else (data, false) in
        if done then Some data
        else if (0 <? a) && negb (Less data (a - 1) pivot) then
          let '(data, mid) := partitionEqual data a b pivot in
          pdqsort fuel data mid b limit wasBalanced wasPartitioned
        else
          let '(data, mid, alreadyPartitioned) := partition data a b pivot in
          let leftLen := mid - a in
          let rightLen := b - mid in
          let balanceThreshold := Nat.div length 8 in
          if leftLen <? rightLen then
            data ← pdqsort fuel data a mid limit true true;
            pdqsort fuel data (mid + 1) b limit
                    (balanceThreshold <=? leftLen) alreadyPartitioned
          else
            data ← pdqsort fuel data (mid + 1) b limit true true;
            pdqsort fuel data a mid limit
                    (balanceThreshold <=? rightLen) alreadyPartitioned
  end.

Definition Sort_run data : option (list A) :=
  let n := length data in
  if n <=? 1 then Some data
  else pdqsort (S n) data 0 n (bits_Len n) true true.

(** [sort.Sort(data)]; [Sort_runs] below shows that the fuel is never used
    up. *)
Definition Sort data : list A := default data (Sort_run data).

End Interface.
End GoSort.

(** ** Well-formed containers

    [consistent] is the invariant of the data model: no key twice in the
    order, and the keys of the order are the keys of the mapping.  [wf] is
    its weaker half: every key of the order has a value. *)

Definition wf {T} (o : OrderedMap T) : Prop :=
  NoDup (keys o) ∧ list_to_set (keys o) ⊆@{gset string} dom (values o).

Definition consistent {T} (o : OrderedMap T) : Prop :=
  NoDup (keys o) ∧ list_to_set (keys o) =@{gset string} dom (values o).

Global Instance wf_dec {T} (o : OrderedMap T) : Decision (wf o).
Proof. unfold wf. apply _. Defined.

Global Instance consistent_dec {T} (o : OrderedMap T) : Decision (consistent o).
Proof. unfold consistent. apply _. Defined.

(** ** Sorting the container *)

(** [sort.Strings]: the package's sort at the byte-wise order of strings. *)
Definition sort_Strings (ks : list string) : list string :=
  GoSort.Sort String.ltb ks.

Section ContainerSort.
Context {T : Type} `{GoZero T}.

(** [pairs[i] = &Pair[T]{key, o.values[key]}] *)
Definition pairs_of (o : OrderedMap T) : list (Pair T) :=
  (λ k, mkPair k (default zero (values o !! k))) <$> keys o.

(** [for i, pair := range pairs { o.keys[i] = pair.key }] *)
Definition write_keys (ks : list string) (pairs : list (Pair T)) : list string :=
  foldl (λ ks ip, <[ip.1 := key ip.2]> ks) ks (imap pair pairs).

Definition Sort (o : OrderedMap T) (lessFunc : Pair T → Pair T → bool) : OrderedMap T :=
  let pairs := GoSort.Sort lessFunc (pairs_of o) in
  {| keys := write_keys (keys o) pairs; values := values o; escapeHTML := escapeHTML o |}.

End ContainerSort.

(** ** What a stable sort is

    The comparator is a strict weak order; two elements are tied when
    neither comes before the other.  A stable sort of [l] is a sorted
    permutation of [l] in which tied elements keep the order they had in
    [l]. *)

Section StableSort.
Context {A : Type} (less : A → A → bool).

Definition tied (x y : A) : bool := negb (less x y) && negb (less y x).

Record StrictWeakOrder : Prop := {
  swo_irrefl : ∀ x, less x x = false;
  swo_trans : ∀ x y z, less x y = true → less y z = true → less x z = true;
  swo_tied_trans : ∀ x y z, tied x y = true → tied y z = true → tied x z = true
}.

Record stable_sort_of (l l' : list A) : Prop := {
  sso_perm : l' ≡ₚ l;
  sso_sorted : StronglySorted (λ x y, less y x = false) l';
  sso_stable : ∀ c, List.filter (tied c) l' = List.filter (tied c) l
}.

(** [x] enters [l] in front of the longest tail whose elements all come
    after it. *)
Fixpoint stable_insert (x : A) (l : list A) : list A :=
  if forallb (less x) l then x :: l
  else match l with
       | y :: l' => y :: stable_insert x l'
       | [] => [x]
       end.

Definition stable_insertion_sort (l : list A) : list A :=
  foldl (λ acc x, stable_insert x acc) [] l.

End StableSort.

(** ** Package encoding/json: bytes, strings and numbers

    A Go string is a sequence of bytes, here a [string] of 8-bit
    characters.  The functions below follow [encoding/json] of Go 1.22 and
    later and package [unicode/utf8]. *)

Module GoJson.

Definition byte_of (n : N) : ascii := ascii_of_N n.

Definition code (c : ascii) : N := N_of_ascii c.

Definition is_char (c d : ascii) : bool := Ascii.eqb c d.

(** The double quote. *)
Definition quote : ascii := byte_of 34.

(** [s[n:]] and [s[:n]] *)
Fixpoint sdrop (n : nat) (s : string) : string :=
  match n, s with
  | S n', String _ s' => sdrop n' s'
  | _, _ => s
  end.

Fixpoint stake (n : nat) (s : string) : string :=
  match n, s with
  | S n', String c s' => String c (stake n' s')
  | _, _ => EmptyString
  end.

Definition hex (n : N) : ascii :=
  (if n <? 10 then byte_of (48 + n) else byte_of (87 + n))%N.

(** A hexadecimal digit of either case, as [getu4] reads it. *)
Definition hex_val (c : ascii) : option N :=
  let n := code c in
  (if (48 <=? n) && (n <=? 57) then Some (n - 48)
   else if (97 <=? n) && (n <=? 102) then Some (n - 87)
   else if (65 <=? n) && (n <=? 70) then Some (n - 55)
   else None)%N.

(** [utf8.EncodeRune]; a surrogate or a value above U+10FFFF is written as
    U+FFFD. *)
Definition EncodeRune (r : N) : string :=
  (if r <=? 127 then String (byte_of r) EmptyString
   else if r <=? 2047 then
     String (byte_of (192 + r / 64)) (String (byte_of (128 + r mod 64)) EmptyString)
   else if (1114111 <? r) || ((55296 <=? r) && (r <=? 57343)) then
     String (byte_of 239) (String (byte_of 191) (String (byte_of 189) EmptyString))
   else if r <=? 65535 then
     String (byte_of (224 + r / 4096))
       (String (byte_of (128 + (r / 64) mod 64))
          (String (byte_of (128 + r mod 64)) EmptyString))
   else
     String (byte_of (240 + r / 262144))
       (String (byte_of (128 + (r / 4096) mod 64))
          (String (byte_of (128 + (r / 64) mod 64))
             (String (byte_of (128 + r mod 64)) EmptyString))))%N.

Definition RuneError : N := 65533.

Definition cont (c : ascii) : bool := ((128 <=? code c) && (code c <=? 191))%N.

(** [utf8.DecodeRune] on a string whose first byte is [c0] and whose rest is
    [s]: the rune and the number of bytes it takes; [(RuneError, 1)] for an
    ill-formed sequence. *)
Definition DecodeRune (c0 : ascii) (s : string) : N * nat :=
  let b0 := code c0 in
  if (b0 <? 128)%N then (b0, 1)
  else if ((194 <=? b0) && (b0 <=? 223))%N then
    match s with
    | String c1 _ =>
        if cont c1 then (((b0 - 192) * 64 + (code c1 - 128))%N, 2) else (RuneError, 1)
    | _ => (RuneError, 1)
    end
  else if ((224 <=? b0) && (b0 <=? 239))%N then
    match s with
    | String c1 (String c2 _) =>
        let lo := (if b0 =? 224 then 160 else 128)%N in
        let hi := (if b0 =? 237 then 159 else 191)%N in
        if ((lo <=? code c1) && (code c1 <=? hi))%N && cont c2 then
          (((b0 - 224) * 4096 + (code c1 - 128) * 64 + (code c2 - 128))%N, 3)
        else (RuneError, 1)
    | _ => (RuneError, 1)
    end
  else if ((240 <=? b0) && (b0 <=? 244))%N then
    match s with
    | String c1 (String c2 (String c3 _)) =>
        let lo := (if b0 =? 240 then 144 else 128)%N in
        let hi := (if b0 =? 244 then 143 else 191)%N in
        if ((lo <=? code c1) && (code c1 <=? hi))%N && cont c2 && cont c3 then
          (((b0 - 240) * 262144 + (code c1 - 128) * 4096
            + (code c2 - 128) * 64 + (code c3 - 128))%N, 4)
        else (RuneError, 1)
    | _ => (RuneError, 1)
    end
  else (RuneError, 1).

(** *** Writing a string: [appendString] *)

Definition is_html (c : ascii) : bool :=
  is_char c "<" || is_char c ">" || is_char c "&".

(** [htmlSafeSet[b] || (!escapeHTML && safeSet[b])] for a byte below 0x80. *)
Definition safe (escapeHTML : bool) (c : ascii) : bool :=
  (32 <=? code c)%N && negb (is_char c quote) && negb (is_char c "\")
  && negb (escapeHTML && is_html c).

Definition u00 (c : ascii) : string :=
  "\u00" +:+ String (hex (code c / 16)) (String (hex (code c mod 16)) EmptyString).

Definition escape_byte (c : ascii) : string :=
  if is_char c "\" || is_char c quote then String "\" (String c EmptyString)
  else if (code c =? 8)%N then "\b"
  else if (code c =? 12)%N then "\f"
  else if (code c =? 10)%N then "\n"
  else if (code c =? 13)%N then "\r"
  else if (code c =? 9)%N then "\t"
  else u00 c.

(** The loop of [appendString], one rune a round; [fuel] bounds the bytes
    still to be read, so it is never used up. *)
Fixpoint appendString_loop (fuel : nat) (escapeHTML : bool) (s : string) : string :=
  match fuel, s with
  | S fuel, String c s' =>
      if (code c <? 128)%N then
        (if safe escapeHTML c then String c EmptyString else escape_byte c)
        +:+ appendString_loop fuel escapeHTML s'
      else
        let '(r, size) := DecodeRune c s' in
        if (r =? RuneError)%N && (size =? 1) then
          "\ufffd" +:+ appendString_loop fuel escapeHTML s'
        else if (r =? 8232)%N || (r =? 8233)%N then
          "\u202" +:+ String (hex (r mod 16)) EmptyString
          +:+ appendString_loop fuel escapeHTML (sdrop size s)
        else
          stake size s +:+ appendString_loop fuel escapeHTML (sdrop size s)
  | _, _ => EmptyString
  end.

Definition appendString (escapeHTML : bool) (s : string) : string :=
  String quote (appendString_loop (String.length s) escapeHTML s +:+ String quote EmptyString).

(** *** Reading a string: the scanner's string states and [unquote] *)

Definition getu4 (h1 h2 h3 h4 : ascii) : option N :=
  a ← hex_val h1; b ← hex_val h2; c ← hex_val h3; d ← hex_val h4;
  Some (a * 4096 + b * 256 + c * 16 + d)%N.

(** [utf16.IsSurrogate] *)
Definition IsSurrogate (r : N) : bool := ((55296 <=? r) && (r <? 57344))%N.

(** [utf16.DecodeRune]: the rune of a surrogate pair, U+FFFD when the two
    halves do not form one. *)
Definition utf16_DecodeRune (r1 r2 : N) : N :=
  (if (55296 <=? r1) && (r1 <? 56320) && (56320 <=? r2) && (r2 <? 57344)
   then (r1 - 55296) * 1024 + (r2 - 56320) + 65536
   else RuneError)%N.

(** The second half of a surrogate pair, when the text goes on with one. *)
Definition second_escape (s : string) : option (N * string) :=
  match s with
  | String b (String u (String g1 (String g2 (String g3 (String g4 s'))))) =>
      if is_char b "\" && is_char u "u" then
        r ← getu4 g1 g2 g3 g4; Some (r, s')
      else None
  | _ => None
  end.

(** The text after an opening quote: the string it holds, unescaped, and
    the text after the closing quote.  [None] for a control character, a
    bad escape or a missing closing quote. *)
Fixpoint unquote_loop (fuel : nat) (s : string) : option (string * string) :=
  match fuel, s with
  | S fuel, String c s' =>
      if is_char c quote then Some (EmptyString, s')
      else if is_char c "\" then
        match s' with
        | String e s'' =>
            let simple (d : ascii) :=
              '(t, rest) ← unquote_loop fuel s''; Some (String d t, rest) in
            if is_char e quote || is_char e "\" || is_char e "/" then simple e
            else if is_char e "b" then simple (byte_of 8)
            else if is_char e "f" then simple (byte_of 12)
            else if is_char e "n" then simple (byte_of 10)
            else if is_char e "r" then simple (byte_of 13)
            else if is_char e "t" then simple (byte_of 9)
            else if is_char e "u" then
              match s'' with
              | String h1 (String h2 (String h3 (String h4 s3))) =>
                  rr ← getu4 h1 h2 h3 h4;
                  let '(r, s4) :=
                    if IsSurrogate rr then
                      match second_escape s3 with
                      | Some (rr1, s4) =>
                          if (utf16_DecodeRune rr rr1 =? RuneError)%N
                          then (RuneError, s3)
                          else (utf16_DecodeRune rr rr1, s4)
                      | None => (RuneError, s3)
                      end
                    else (rr, s3) in
                  '(t, rest) ← unquote_loop fuel s4;
                  Some (EncodeRune r +:+ t, rest)
              | _ => None
              end
            else None
        | EmptyString => None
        end
      else if (code c <? 32)%N then None
      else if (code c <? 128)%N then
        '(t, rest) ← unquote_loop fuel s'; Some (String c t, rest)
      else
        let '(r, size) := DecodeRune c s' in
        '(t, rest) ← unquote_loop fuel (sdrop size s);
        Some (EncodeRune r +:+ t, rest)
  | _, _ => None
  end.

Definition unquote (s : string) : option (string * string) :=
  unquote_loop (String.length s) s.

(** *** Numbers

    The scanner's number states.  A number is kept as its literal: the
    conversion to [float64] is not modelled. *)

Inductive num_state :=
  NStart | NNeg | NZero | NInt | NDot | NFrac | NE | NESign | NExp.

Definition is_digit (c : ascii) : bool := ((48 <=? code c) && (code c <=? 57))%N.

Definition num_step (st : num_state) (c : ascii) : option num_state :=
  match st with
  | NStart =>
      if is_char c "-" then Some NNeg
      else if is_char c "0" then Some NZero
      else if is_digit c then Some NInt else None
  | NNeg =>
      if is_char c "0" then Some NZero
      else if is_digit c then Some NInt else None
  | NZero =>
      if is_char c "." then Some NDot
      else if is_char c "e" || is_char c "E" then Some NE else None
  | NInt =>
      if is_digit c then Some NInt
      else if is_char c "." then Some NDot
      else if is_char c "e" || is_char c "E" then Some NE else None
  | NDot => if is_digit c then Some NFrac else None
  | NFrac =>
      if is_digit c then Some NFrac
      else if is_char c "e" || is_char c "E" then Some NE else None
  | NE =>
      if is_char c "+" || is_char c "-" then Some NESign
      else if is_digit c then Some NExp else None
  | NESign => if is_digit c then Some NExp else None
  | NExp => if is_digit c then Some NExp else None
  end.

Definition num_final (st : num_state) : bool :=
  match st with NZero | NInt | NFrac | NExp => true | _ => false end.

(** The longest literal the scanner reads from the front of [s], and the
    text after it; [None] when the scanner stops inside a literal. *)
Fixpoint scan_number (st : num_state) (s : string) : option (string * string) :=
  match s with
  | String c s' =>
      match num_step st c with
      | Some st' => '(lit, rest) ← scan_number st' s'; Some (String c lit, rest)
      | None => if num_final st then Some (EmptyString, s) else None
      end
  | EmptyString => if num_final st then Some (EmptyString, s) else None
  end.

(** [isValidNumber] *)
Definition isValidNumber (lit : string) : bool :=
  bool_decide (scan_number NStart lit = Some (lit, EmptyString)).

(** *** The syntax of a JSON text *)

Inductive json :=
| JNull
| JBool (b : bool)
| JNum (lit : string)
| JStr (s : string)
| JArr (elems : list json)
| JObj (members : list (string * json)).

Definition is_space (c : ascii) : bool :=
  is_char c " " || (code c =? 9)%N || (code c =? 10)%N || (code c =? 13)%N.

Fixpoint skip_space (s : string) : string :=
  match s with
  | String c s' => if is_space c then skip_space s' else s
  | EmptyString => s
  end.

Fixpoint strip_prefix (p s : string) : option string :=
  match p, s with
  | EmptyString, _ => Some s
  | String a p', String b s' => if is_char a b then strip_prefix p' s' else None
  | _, _ => None
  end.

(** The scanner refuses a text nested deeper than this. *)
Definition maxNestingDepth : nat := 10000.

(** One value from the front of [s], after white space, and the text after
    it.  [depth] counts the arrays and objects that are open.  Every call
    reads at least one byte, so [fuel] above the length of [s] is never
    used up. *)
Fixpoint parse_value (fuel depth : nat) (s : string) : option (json * string) :=
  match fuel with
  | 0 => None
  | S fuel =>
      match skip_space s with
      | String c s1 =>
          if is_char c "{" then
            if maxNestingDepth <=? depth then None
            else match skip_space s1 with
                 | String c2 s2 =>
                     if is_char c2 "}" then Some (JObj [], s2)
                     else '(ms, rest) ← parse_members fuel (S depth) (String c2 s2);
                          Some (JObj ms, rest)
                 | EmptyString => None
                 end
          else if is_char c "[" then
            if maxNestingDepth <=? depth then None
            else match skip_space s1 with
                 | String c2 s2 =>
                     if is_char c2 "]" then Some (JArr [], s2)
                     else '(vs, rest) ← parse_elements fuel (S depth) (String c2 s2);
                          Some (JArr vs, rest)
                 | EmptyString => None
                 end
          else if is_char c quote then
            '(str, rest) ← unquote s1; Some (JStr str, rest)
          else if is_char c "t" then
            rest ← strip_prefix "rue" s1; Some (JBool true, rest)
          else if is_char c "f" then
            rest ← strip_prefix "alse" s1; Some (JBool false, rest)
          else if is_char c "n" then
            rest ← strip_prefix "ull" s1; Some (JNull, rest)
          else
            '(lit, rest) ← scan_number NStart (String c s1); Some (JNum lit, rest)
      | EmptyString => None
      end
  end
(** The members of an object from its first key on, up to the closing
    brace. *)
with parse_members (fuel depth : nat) (s : string) : option (list (string * json) * string) :=
  match fuel with
  | 0 => None
  | S fuel =>
      match s with
      | String c s1 =>
          if is_char c quote then
            '(k, s2) ← unquote s1;
            match skip_space s2 with
            | String c3 s3 =>
                if is_char c3 ":" then
                  '(v, s4) ← parse_value fuel depth s3;
                  match skip_space s4 with
                  | String c5 s5 =>
                      if is_char c5 "," then
                        '(ms, rest) ← parse_members fuel depth (skip_space s5);
                        Some ((k, v) :: ms, rest)
                      else if is_char c5 "}" then Some ([(k, v)], s5)
                      else None
                  | EmptyString => None
                  end
                else None
            | EmptyString => None
            end
          else None
      | EmptyString => None
      end
  end
(** The elements of an array from its first value on, up to the closing
    bracket. *)
with parse_elements (fuel depth : nat) (s : string) : option (list json * string) :=
  match fuel with
  | 0 => None
  | S fuel =>
      '(v, s1) ← parse_value fuel depth s;
      match skip_space s1 with
      | String c2 s2 =>
          if is_char c2 "," then
            '(vs, rest) ← parse_elements fuel depth s2; Some (v :: vs, rest)
          else if is_char c2 "]" then Some ([v], s2)
          else None
      | EmptyString => None
      end
  end.

(** [checkValid] and the parse that follows it: the one value of the text,
    with nothing but white space after it. *)
Definition parse (b : string) : option json :=
  match parse_value (S (String.length b)) 0 b with
  | Some (j, rest) =>
      match skip_space rest with
      | EmptyString => Some j
      | _ => None
      end
  | None => None
  end.

(** *** The token stream of [Decoder.Token]

    Commas and colons are not tokens; an object key is a string token. *)

Inductive Token :=
| Delim (c : ascii)
| TString (s : string)
| TNumber (lit : string)
| TBool (b : bool)
| TNull.

Fixpoint tokens (j : json) : list Token :=
  match j with
  | JNull => [TNull]
  | JBool b => [TBool b]
  | JNum lit => [TNumber lit]
  | JStr s => [TString s]
  | JArr elems =>
      Delim "[" :: (fix go (l : list json) : list Token :=
                      match l with
                      | [] => []
                      | v :: l' => tokens v ++ go l'
                      end) elems ++ [Delim "]"]
  | JObj members =>
      Delim "{" :: (fix go (l : list (string * json)) : list Token :=
                      match l with
                      | [] => []
                      | (k, v) :: l' => TString k :: tokens v ++ go l'
                      end) members ++ [Delim "}"]
  end.

(** The tokens between the braces of an object and between the brackets of
    an array. *)
Definition members_tokens (members : list (string * json)) : list Token :=
  flat_map (λ kv, TString kv.1 :: tokens kv.2) members.

Definition elems_tokens (elems : list json) : list Token :=
  flat_map tokens elems.

(** *** Go values

    What an [interface{}] holds in a container: the values the decoder
    makes ([nil], [bool], a number, [string], [[]interface{}],
    [map[string]interface{}]) and a nested [*OrderedMap[interface{}]].  A
    number is kept as the literal [encoding/json] writes for it; a literal
    that is no JSON number stands for a value the encoder refuses, such as
    NaN.  A map lists its entries in the byte-wise order of their keys, each
    key once.  Nil slices, nil maps and nil pointers are not modelled. *)

Inductive any :=
| ANil
| ABool (b : bool)
| ANum (lit : string)
| AStr (s : string)
| ASlice (elems : list any)
| AMap (entries : list (string * any))
| AOMap (ks : list string) (entries : list (string * any)) (esc : bool).

Fixpoint amap_lookup {V} (k : string) (m : list (string * V)) : option V :=
  match m with
  | [] => None
  | (k', v) :: m' => if String.eqb k k' then Some v else amap_lookup k m'
  end.

(** [m[k] = v] on a map kept in key order. *)
Fixpoint amap_insert {V} (k : string) (v : V) (m : list (string * V)) : list (string * V) :=
  match m with
  | [] => [(k, v)]
  | (k', v') :: m' =>
      if String.eqb k k' then (k, v) :: m'
      else if String.ltb k k' then (k, v) :: m
      else (k', v') :: amap_insert k v m'
  end.

(** The entries of a map in the order of their keys, as the encoder sorts
    them. *)
Definition sort_entries {V} (m : list (string * V)) : list (string * V) :=
  foldr (λ e acc,
           (fix ins (acc : list (string * V)) : list (string * V) :=
              match acc with
              | [] => [e]
              | e' :: acc' => if String.ltb e'.1 e.1 then e' :: ins acc' else e :: acc
              end) acc) [] m.

Definition newline : string := String (byte_of 10) EmptyString.

Fixpoint join (sep : string) (l : list string) : string :=
  match l with
  | [] => EmptyString
  | [x] => x
  | x :: l' => x +:+ sep +:+ join sep l'
  end.

(** *** [compact]

    What the encoder does with the output of a [MarshalJSON] method: white
    space outside strings is dropped and, when [escape] is set, the bytes
    [<], [>], [&] and the runes U+2028 and U+2029 are escaped.  [in_string]
    and [escaped] follow the scanner through string literals. *)
Fixpoint compact_loop (escape in_string escaped : bool) (s : string) : string :=
  match s with
  | EmptyString => EmptyString
  | String c s' =>
      let in_string' :=
        if in_string then negb (negb escaped && is_char c quote)
        else is_char c quote in
      let escaped' := in_string && negb escaped && is_char c "\" in
      let line_sep :=
        match s' with
        | String c1 (String c2 _) =>
            escape && (code c =? 226)%N && (code c1 =? 128)%N
            && ((code c2 =? 168)%N || (code c2 =? 169)%N)
        | _ => false
        end in
      if escape && is_html c then
        u00 c +:+ compact_loop escape in_string' escaped' s'
      else if line_sep then
        match s' with
        | String _ (String c2 s3) =>
            "\u202" +:+ String (hex (code c2 mod 16)) EmptyString
            +:+ compact_loop escape in_string' escaped' s3
        | _ => EmptyString
        end
      else if negb in_string && is_space c then
        compact_loop escape in_string' escaped' s'
      else String c (compact_loop escape in_string' escaped' s')
  end.

Definition compact (escape : bool) (s : string) : string :=
  compact_loop escape false false s.

(** *** [MarshalJSON]

    [encoder.Encode(x)] writes the JSON text of [x] and a newline.  The loop
    is the body of [MarshalJSON]; [encode_value k] stands for
    [encoder.Encode(o.values[k])] and is [None] when that returns an
    error. *)
Definition Encode_string (escapeHTML : bool) (k : string) : string :=
  appendString escapeHTML k +:+ newline.

Fixpoint MarshalJSON_loop (escapeHTML : bool) (encode_value : string → option string)
    (i : nat) (ks : list string) (buf : string) : option string :=
  match ks with
  | [] => Some buf
  | k :: ks' =>
      let buf := if 0 <? i then buf +:+ "," else buf in
      let buf := buf +:+ Encode_string escapeHTML k in
      let buf := buf +:+ ":" in
      match encode_value k with
      | Some text => MarshalJSON_loop escapeHTML encode_value (S i) ks' (buf +:+ text)
      | None => None
      end
  end.

Definition MarshalJSON_text (escapeHTML : bool) (encode_value : string → option string)
    (ks : list string) : option string :=
  buf ← MarshalJSON_loop escapeHTML encode_value 0 ks "{";
  Some (buf +:+ "}").

(** The JSON text of a value under the encoder's [escapeHTML] option; [None]
    for an error.  A nested ordered map is written by its own [MarshalJSON],
    under its own flag, and the outcome goes through [compact] under the
    option of the encoder at work. *)
Fixpoint marshal (escapeHTML : bool) (v : any) : option string :=
  match v with
  | ANil => Some "null"
  | ABool b => Some (if b then "true" else "false")
  | ANum lit => if isValidNumber lit then Some lit else None
  | AStr s => Some (appendString escapeHTML s)
  | ASlice elems =>
      texts ← (fix go (l : list any) : option (list string) :=
                 match l with
                 | [] => Some []
                 | x :: l' => t ← marshal escapeHTML x; ts ← go l'; Some (t :: ts)
                 end) elems;
      Some ("[" +:+ join "," texts +:+ "]")
  | AMap entries =>
      texts ← (fix go (l : list (string * any)) : option (list (string * string)) :=
                 match l with
                 | [] => Some []
                 | (k, x) :: l' => t ← marshal escapeHTML x; ts ← go l'; Some ((k, t) :: ts)
                 end) entries;
      Some ("{" +:+ join "," ((λ kt, appendString escapeHTML kt.1 +:+ ":" +:+ kt.2)
                                <$> sort_entries texts) +:+ "}")
  | AOMap ks entries esc =>
      let texts := (fix go (l : list (string * any)) : list (string * option string) :=
                      match l with
                      | [] => []
                      | (k, x) :: l' => (k, marshal esc x) :: go l'
                      end) entries in
      let encode_value k :=
        text ← default (Some "null") (amap_lookup k texts); Some (text +:+ newline) in
      body ← MarshalJSON_text esc encode_value ks;
      Some (compact escapeHTML body)
  end.

(** [encoder.Encode(v)] *)
Definition Encode (escapeHTML : bool) (v : any) : option string :=
  text ← marshal escapeHTML v; Some (text +:+ newline).

(** *** Decoding into [interface{}] and into a map *)

Fixpoint to_any (j : json) : any :=
  match j with
  | JNull => ANil
  | JBool b => ABool b
  | JNum lit => ANum lit
  | JStr s => AStr s
  | JArr elems =>
      ASlice ((fix go (l : list json) : list any :=
                 match l with [] => [] | x :: l' => to_any x :: go l' end) elems)
  | JObj members =>
      AMap ((fix go (l : list (string * json)) (m : list (string * any)) :=
               match l with
               | [] => m
               | (k, x) :: l' => go l' (amap_insert k (to_any x) m)
               end) members [])
  end.

Inductive error := SyntaxError | UnmarshalTypeError | EOF.

(** [json.Unmarshal(b, &m)] for a text [b] that holds the value [j]: an
    object is merged into [m], a later member replacing an earlier one of
    the same key; [null] makes [m] nil; anything else is a type error and
    leaves [m] as it is. *)
Definition Unmarshal_map (j : json) (m : gmap string any) : error + gmap string any :=
  match j with
  | JNull => inr ∅
  | JObj members => inr (foldl (λ m kv, <[kv.1 := to_any kv.2]> m) m members)
  | _ => inl UnmarshalTypeError
  end.

End GoJson.

(** ** The JSON codec of the container *)

Import GoJson.

Global Instance any_GoZero : GoZero any := ANil.

Definition MarshalJSON (o : OrderedMap any) : option string :=
  MarshalJSON_text (escapeHTML o)
    (λ k, Encode (escapeHTML o) (default zero (values o !! k))) (keys o).

(** A nested [*OrderedMap] as a value of the outer container. *)
Definition nested (o : OrderedMap any) : any :=
  AOMap (keys o) (map_to_list (values o)) (escapeHTML o).

(** How a call ends: it returns, it panics, or the fuel of the model is
    used up. *)
Inductive run (A : Type) :=
| Ret (a : A)
| Panics
| OutOfFuel.
Arguments Ret {A} _.
Arguments Panics {A}.
Arguments OutOfFuel {A}.

Definition run_bind {A B} (r : run A) (f : A → run B) : run B :=
  match r with
  | Ret a => f a
  | Panics => Panics
  | OutOfFuel => OutOfFuel
  end.

Notation "' p ←ᵣ r ; k" := (run_bind r (λ p, k))
  (at level 20, p pattern, r at level 100, k at level 200, only parsing).

(** [&OrderedMap[T]{}] *)
Definition zero_OrderedMap : OrderedMap any :=
  {| keys := []; values := ∅; escapeHTML := false |}.

(** [copy(ks[j:], ks[j+1:])]: the slots after [j] move down by one, the last
    slot keeps what it held. *)
Definition copy_down (j : nat) (ks : list string) : list string :=
  take j ks ++ drop (S j) ks ++ drop (length ks - 1) ks.

(** The duplicate-key branch: the old slot of [key] is closed and [key]
    written into the last slot; [None] when that index is out of range. *)
Definition move_to_end (key : string) (ks : list string) : option (list string) :=
  let ks := match index_of key ks with
            | Some j => copy_down j ks
            | None => ks
            end in
  if length ks =? 0 then None else Some (<[length ks - 1 := key]> ks).

Definition set_keys (ks : list string) (o : OrderedMap any) : OrderedMap any :=
  {| keys := ks; values := values o; escapeHTML := escapeHTML o |}.

Definition set_values (m : gmap string any) (o : OrderedMap any) : OrderedMap any :=
  {| keys := keys o; values := m; escapeHTML := escapeHTML o |}.

(** [decodeOrderedMap] and [decodeSlice].  [dec] is what the decoder has
    still to deliver; [dec.Token()] takes its head and fails with [EOF] when
    nothing is left.  A call returns the error, the rest of the stream and
    the container.  [hasKey] is the local map of the call; the loop is a
    recursion, one unit of [fuel] a round. *)
Fixpoint decodeOrderedMap_loop (fuel : nat) (dec : list Token) (o : OrderedMap any)
    (hasKey : gset string) : run (option error * list Token * OrderedMap any) :=
  match fuel with
  | 0 => OutOfFuel
  | S fuel =>
      match dec with
      | [] => Ret (Some EOF, [], o)
      | Delim c :: dec =>
          if is_char c "}" then Ret (None, dec, o)
          else Panics (* key := token.(string) *)
      | TString key :: dec =>
          let step :=
            if decide (key ∈ hasKey) then
              match move_to_end key (keys o) with
              | Some ks => Ret (set_keys ks o, hasKey)
              | None => Panics
              end
            else Ret (set_keys (keys o ++ [key]) o, {[key]} ∪ hasKey) in
          '(o, hasKey) ←ᵣ step;
          match dec with
          | [] => Ret (Some EOF, [], o)
          | Delim c :: dec =>
              if is_char c "{" then
                '(err, dec, _) ←ᵣ decodeOrderedMap_loop fuel dec zero_OrderedMap ∅;
                match err with
                | Some e => Ret (Some e, dec, o)
                | None => decodeOrderedMap_loop fuel dec o hasKey
                end
              else if is_char c "[" then
                '(err, dec) ←ᵣ decodeSlice_loop fuel dec 0;
                match err with
                | Some e => Ret (Some e, dec, o)
                | None => decodeOrderedMap_loop fuel dec o hasKey
                end
              else decodeOrderedMap_loop fuel dec o hasKey
          | _ :: dec => decodeOrderedMap_loop fuel dec o hasKey
          end
      | _ :: _ => Panics (* key := token.(string) *)
      end
  end
(** [decodeSlice] is always called with the empty slice [[]T{}], so both
    branches on [index < len(s)] make the same call. *)
with decodeSlice_loop (fuel : nat) (dec : list Token) (index : nat)
    : run (option error * list Token) :=
  match fuel with
  | 0 => OutOfFuel
  | S fuel =>
      match dec with
      | [] => Ret (Some EOF, [])
      | Delim c :: dec =>
          if is_char c "{" then
            '(err, dec, _) ←ᵣ decodeOrderedMap_loop fuel dec zero_OrderedMap ∅;
            match err with
            | Some e => Ret (Some e, dec)
            | None => decodeSlice_loop fuel dec (S index)
            end
          else if is_char c "[" then
            '(err, dec) ←ᵣ decodeSlice_loop fuel dec 0;
            match err with
            | Some e => Ret (Some e, dec)
            | None => decodeSlice_loop fuel dec (S index)
            end
          else if is_char c "]" then Ret (None, dec)
          else decodeSlice_loop fuel dec (S index)
      | _ :: dec => decodeSlice_loop fuel dec (S index)
      end
  end.

Definition decodeOrderedMap (fuel : nat) (dec : list Token) (o : OrderedMap any)
    : run (option error * list Token * OrderedMap any) :=
  decodeOrderedMap_loop fuel dec o ∅.

(** [UnmarshalJSON].  [json.Unmarshal] checks the whole text before it
    stores anything, and the decoder is made only for a text that it has
    accepted, so the text is parsed once here: [json.Unmarshal] stores the
    value into [o.values], and the decoder delivers its tokens.  The result
    is the error returned and the container as the call leaves it. *)
Definition UnmarshalJSON (o : OrderedMap any) (b : string)
    : run (option error * OrderedMap any) :=
  match parse b with
  | None => Ret (Some SyntaxError, o)
  | Some j =>
      match Unmarshal_map j (values o) with
      | inl err => Ret (Some err, o)
      | inr m =>
          let o := set_values m o in
          match tokens j with
          | [] => Ret (Some EOF, o)
          | _ :: dec => (* skip '{' *)
              let o := set_keys [] o in
              '(err, _, o) ←ᵣ decodeOrderedMap (S (length dec)) dec o;
              Ret (err, o)
          end
      end
  end.

(** ** The last-occurrence rule, in the words of the specification

    Members are taken from left to right: a key seen for the first time is
    appended to the order; a key seen again leaves its slot and is appended
    at the end. *)
Definition last_occurrence_step (order : list string) (k : string) : list string :=
  if decide (k ∈ order) then filter (λ k', k' ≠ k) order ++ [k] else order ++ [k].

Definition last_occurrence_order (member_keys : list string) : list string :=
  foldl last_occurrence_step [] member_keys.

(** ** Containers and comparators used as examples *)

Definition SetAll {T} `{GoZero T} (o : OrderedMap T) (kvs : list (string * T)) : OrderedMap T :=
  foldl (λ o kv, Set_ o kv.1 kv.2) o kvs.

(** The data [{b:2, a:1, c:3}]. *)
Definition bac : OrderedMap Z := SetAll New [("b", 2); ("a", 1); ("c", 3)]%Z.

(** [a.value > b.value]: descending numeric value. *)
Definition descending (a b : Pair Z) : bool := (value b <? value a)%Z.

(** [a.value < b.value]: ascending numeric value. *)
Definition ascending (a b : Pair Z) : bool := (value a <? value b)%Z.

(** Thirteen entries: twelve with the value 1, then one with the value 0. *)
Definition thirteen : OrderedMap Z :=
  SetAll New [("a", 1); ("b", 1); ("c", 1); ("d", 1); ("e", 1); ("f", 1); ("g", 1);
              ("h", 1); ("i", 1); ("j", 1); ("k", 1); ("l", 1); ("m", 0)]%Z.

(** The data [{b:2, a:1, c:3}] with values of type [interface{}]. *)
Definition bac_any : OrderedMap any :=
  SetAll New [("b", ANum "2"); ("a", ANum "1"); ("c", ANum "3")].

(** [q s] is [s] with every apostrophe turned into a double quote: JSON
    texts are written with apostrophes below. *)
Fixpoint q (s : string) : string :=
  match s with
  | String c s' => String (if is_char c "'" then quote else c) (q s')
  | EmptyString => EmptyString
  end.



(** The mapping after the members of an object have been stored into it. *)
Definition merged (m : gmap string any) (ms : list (string * json)) : gmap string any :=
  foldl (λ m kv, <[kv.1 := to_any kv.2]> m) m ms.

(** ** Sequences of operations *)

Inductive op :=
| OpSet (key : string) (val : any)
| OpDelete (key : string)
| OpSort (lessFunc : Pair any → Pair any → bool)
| OpSortKeys (sortFunc : list string → list string)
| OpUnmarshalJSON (b : string).

(** The container after an operation; [UnmarshalJSON] always returns
    ([UnmarshalJSON_returns]), with or without an error. *)
Definition apply_op (o : OrderedMap any) (x : op) : OrderedMap any :=
  match x with
  | OpSet key val => Set_ o key val
  | OpDelete key => Delete o key
  | OpSort lessFunc => Sort o lessFunc
  | OpSortKeys sortFunc => SortKeys o sortFunc
  | OpUnmarshalJSON b =>
      match UnmarshalJSON o b with
      | Ret (_, o') => o'
      | _ => o
      end
  end.

Definition apply_ops (o : OrderedMap any) (xs : list op) : OrderedMap any :=
  foldl apply_op o xs.



(** The value of the last member of an object that has the key [k]. *)
Fixpoint last_value (k : string) (ms : list (string * json)) : option json :=
  match ms with
  | [] => None
  | (k', v) :: ms' =>
      match last_value k ms' with
      | Some v' => Some v'
      | None => if decide (k' = k) then Some v else None
      end
  end.

(** ** Words for the encoder's properties *)

(** The text of one member: the key, a colon, the value, each as
    [encoder.Encode] writes it. *)
Definition member_text (o : OrderedMap any) (k : string) : option string :=
  text ← Encode (escapeHTML o) (default zero (values o !! k));
  Some (Encode_string (escapeHTML o) k +:+ ":" +:+ text).

(** An entry of a map with its value encoded, and the text of such an
    entry. *)
Definition marshal_entry (esc : bool) (kv : string * any) : option (string * string) :=
  text ← marshal esc kv.2; Some (kv.1, text).

Definition entry_text (esc : bool) (kt : string * string) : string :=
  appendString esc kt.1 +:+ ":" +:+ kt.2.

(** No byte of the text is [<], [>] or [&]. *)
Fixpoint html_free (s : string) : bool :=
  match s with
  | String c s' => negb (is_html c) && html_free s'
  | EmptyString => true
  end.

(** A container with the flag set that holds [<], [>] and [&] in a key, in
    a string, in a slice and in a nested ordered map whose own flag is
    cleared. *)
Definition html_example : OrderedMap any :=
  SetAll New
    [("a<b", AStr "x & y");
     ("list", ASlice [AStr "<p>"; AMap [("k>", AStr "&")]]);
     ("inner", nested (SetEscapeHTML (SetAll New [("<", AStr ">")]) false))].

(** A string of printable ASCII bytes without quote and backslash. *)
Definition plain_ascii (s : string) : Prop :=
  Forall (λ c, safe false c = true ∧ (code c < 128)%N) (list_ascii_of_string s).

(** ** Words for the round trip

    The values that come back from the encoder and the decoder as they
    went in: [nil], booleans, numbers with a valid literal, strings of
    ASCII bytes, slices and maps of such values; a map lists its entries in
    the strict order of its keys.  A nested ordered map comes back as a
    plain map and is left out. *)

Fixpoint is_ascii (s : string) : bool :=
  match s with
  | String c s' => (code c <? 128)%N && is_ascii s'
  | EmptyString => true
  end.

Fixpoint strictly_sorted (ks : list string) : bool :=
  match ks with
  | k :: ks' =>
      match ks' with
      | k' :: _ => String.ltb k k'
      | [] => true
      end && strictly_sorted ks'
  | [] => true
  end.

Fixpoint plain (v : any) : bool :=
  match v with
  | ANil | ABool _ => true
  | ANum lit => isValidNumber lit
  | AStr s => is_ascii s
  | ASlice elems =>
      (fix go (l : list any) : bool :=
         match l with [] => true | x :: l' => plain x && go l' end) elems
  | AMap entries =>
      strictly_sorted entries.*1 &&
      (fix go (l : list (string * any)) : bool :=
         match l with
         | [] => true
         | (k, x) :: l' => is_ascii k && plain x && go l'
         end) entries
  | AOMap _ _ _ => false
  end.

(** How deep arrays and objects are nested in the text of a value. *)
Fixpoint any_depth (v : any) : nat :=
  match v with
  | ASlice elems =>
      S ((fix go (l : list any) : nat :=
            match l with [] => 0 | x :: l' => any_depth x `max` go l' end) elems)
  | AMap entries | AOMap _ entries _ =>
      S ((fix go (l : list (string * any)) : nat :=
            match l with [] => 0 | (_, x) :: l' => any_depth x `max` go l' end) entries)
  | _ => 0
  end.

(** The number of values in a value, itself included. *)
Fixpoint any_size (v : any) : nat :=
  match v with
  | ASlice elems =>
      S ((fix go (l : list any) : nat :=
            match l with [] => 0 | x :: l' => S (any_size x + go l') end) elems)
  | AMap entries | AOMap _ entries _ =>
      S ((fix go (l : list (string * any)) : nat :=
            match l with [] => 0 | (_, x) :: l' => S (any_size x + go l') end) entries)
  | _ => 1
  end.

(** The syntax tree of the text of a plain value. *)
Fixpoint to_json (v : any) : json :=
  match v with
  | ANil => JNull
  | ABool b => JBool b
  | ANum lit => JNum lit
  | AStr s => JStr s
  | ASlice elems =>
      JArr ((fix go (l : list any) : list json :=
               match l with [] => [] | x :: l' => to_json x :: go l' end) elems)
  | AMap entries | AOMap _ entries _ =>
      JObj ((fix go (l : list (string * any)) : list (string * json) :=
               match l with [] => [] | (k, x) :: l' => (k, to_json x) :: go l' end)
              entries)
  end.


(** The entries of a container in its key order, as [MarshalJSON] reads
    them. *)
Definition entries_of (o : OrderedMap any) : list (string * any) :=
  (λ k, (k, default zero (values o !! k))) <$> keys o.

(** The same over the elements of a slice and over the entries of a map. *)
Definition slice_size (elems : list any) : nat :=
  foldr (λ x n, S (any_size x + n)) 0 elems.

Definition entries_size (entries : list (string * any)) : nat :=
  foldr (λ kv n, S (any_size kv.2 + n)) 0 entries.

Definition slice_depth (elems : list any) : nat :=
  foldr (λ x n, any_depth x `max` n) 0 elems.

Definition entries_depth (entries : list (string * any)) : nat :=
  foldr (λ kv n, any_depth kv.2 `max` n) 0 entries.

Definition plain_entry (kv : string * any) : bool := is_ascii kv.1 && plain kv.2.

Definition to_json_entry (kv : string * any) : string * json := (kv.1, to_json kv.2).

(** White space between the parts of a member: a newline in the text of
    [MarshalJSON], nothing in the text of a map. *)
Definition gap (nl : bool) : string := if nl then newline else EmptyString.

(** The text of a member with its gaps. *)
Definition member_with_gaps (nl esc : bool) (kt : string * string) : string :=
  appendString esc kt.1 +:+ gap nl +:+ ":" +:+ kt.2 +:+ gap nl.

(** A container that comes back from its own text: it is consistent, its
    keys are ASCII and its values are plain and not nested too deep for
    the scanner. *)
Definition representable (o : OrderedMap any) : Prop :=
  consistent o ∧
  map_Forall (λ k v, is_ascii k && plain v && (any_depth v <? maxNestingDepth) = true)
             (values o).

Global Instance representable_dec (o : OrderedMap any) : Decision (representable o).
Proof. unfold representable. apply _. Defined.

(** A byte that ends a number: no state of the number scanner reads it. *)
Definition ends_number (rest : string) : Prop :=
  match rest with
  | String c _ => ∀ st, num_step st c = None
  | EmptyString => True
  end.

(** The text of [v] is read back as the syntax tree of [v], with fuel for
    every value in it, below the nesting limit, and in front of any text
    that does not go on like a number. *)
Definition parses_back (v : any) : Prop :=
  ∀ esc text fuel depth rest,
    marshal esc v = Some text → any_size v ≤ fuel →
    depth + any_depth v ≤ maxNestingDepth → ends_number rest →
    parse_value fuel depth (text +:+ rest) = Some (to_json v, rest).

(** A container with a string that needs escapes, a number, a slice and a
    map, under keys that are not in byte-wise order. *)
Definition round_trip_example : OrderedMap any :=
  SetAll New
    [("b", AStr (q "say 'hi' to <them>"));
     ("n", ANum "-12.5e3");
     ("a", ASlice [ANil; ABool true; AStr "x"]);
     ("c", AMap [("k", AStr "v"); ("m", ASlice [])])].

(** ** Words for sorting a range in place

    [sort.Sort] works on the slots [a, b) of the slice through [Less] and
    [Swap].  A range is sorted when no slot holds an element that comes
    before the element of an earlier slot.  [moved a b data data'] says
    that [data'] holds in every slot an element that [data] holds, taken
    from the range for a slot of the range and from the same slot for any
    other.  [bounded_below] says that no element of the range comes before
    the element in front of the range, and [heap] is the order of a binary
    max-heap laid out from slot [first] on, for the parents from [lo] on. *)

Section SortingWords.
Context {A : Type} (less : A → A → bool).

Definition sorted_range (data : list A) (a b : nat) : Prop :=
  ∀ i j, a ≤ i → i < j → j < b → GoSort.Less less data j i = false.

Definition moved (a b : nat) (data data' : list A) : Prop :=
  ∃ f : nat → nat,
    (∀ i, a ≤ i < b → a ≤ f i < b) ∧ (∀ i, ¬ (a ≤ i < b) → f i = i) ∧
    ∀ i, data' !! i = data !! f i.

Definition bounded_below (data : list A) (a b : nat) : Prop :=
  ∀ q, 0 < a → a ≤ q → q < b → GoSort.Less less data q (a - 1) = false.

Definition heap (data : list A) (first lo hi : nat) : Prop :=
  ∀ r c, lo ≤ r → c = 2 * r + 1 ∨ c = 2 * r + 2 → c < hi →
         GoSort.Less less data (first + r) (first + c) = false.

(** The slot that [Swap i j] reads for slot [n]. *)
Definition transpose (i j n : nat) : nat :=
  if decide (n = i) then j else if decide (n = j) then i else n.

End SortingWords.

(** * Properties *)

(** A decidable proposition about concrete data is settled by running its
    decision procedure. *)
Ltac decide_by_computation :=
  apply (bool_decide_unpack _); vm_compute; exact I.

Section ContainerFacts.
Context {T : Type} `{GoZero T}.
Implicit Types (o : OrderedMap T) (k key : string) (ks : list string).

Lemma index_of_None key ks : index_of key ks = None ↔ key ∉ ks.
Proof.
  unfold index_of. rewrite fmap_None, list_find_None, Forall_forall.
  split.
  - intros Hall Hin. by apply (Hall key).
  - intros Hnin x Hx ->. done.
Qed.

Lemma index_of_Some key ks i :
  index_of key ks = Some i ↔ ks !! i = Some key ∧ key ∉ take i ks.
Proof.
  unfold index_of. rewrite fmap_Some. split.
  - intros [[j x] [Hf Hi]]. simpl in Hi. subst i.
    apply list_find_Some in Hf as (Hl & -> & Hbefore).
    split; [done|]. intros Hin. apply list_elem_of_lookup in Hin as [n Hn].
    pose proof (lookup_lt_Some _ _ _ Hn) as Hlt. rewrite length_take in Hlt.
    rewrite lookup_take_lt in Hn by lia. apply (Hbefore n key Hn); [lia|done].
  - intros [Hl Hnin]. exists (i, key). split; [|done].
    apply list_find_Some. split_and!; [done|done|].
    intros j y Hy Hlt ->. apply Hnin. apply list_elem_of_lookup. exists j.
    by rewrite lookup_take_lt.
Qed.

Lemma index_of_app_fresh key ks : key ∉ ks → index_of key (ks ++ [key]) = Some (length ks).
Proof.
  intros Hnin. apply index_of_Some. split.
  - rewrite lookup_app_r by lia. by rewrite Nat.sub_diag.
  - by rewrite take_app_length.
Qed.

(** Removing the first slot of [key] from a duplicate-free list removes
    [key]. *)
Lemma cut_index_of key ks i :
  NoDup ks → index_of key ks = Some i →
  (key ∉ cut i ks) ∧ NoDup (cut i ks) ∧ (∀ k, k ∈ cut i ks ↔ k ∈ ks ∧ k ≠ key).
Proof.
  intros Hnd Hi. apply index_of_Some in Hi as [Hl Hnin].
  pose proof (take_drop_middle _ _ _ Hl) as Hsplit.
  rewrite <- Hsplit in Hnd. apply NoDup_app in Hnd as (Hnd1 & Hdisj & Hnd2).
  apply NoDup_cons in Hnd2 as [Hnin2 Hnd2].
  assert (Hcut : ∀ k, k ∈ cut i ks ↔ k ∈ ks ∧ k ≠ key).
  { intros k. unfold cut. rewrite <- Hsplit at 3.
    rewrite !elem_of_app, elem_of_cons. split.
    - intros [Hk|Hk]; (split; [tauto|]); intros ->; tauto.
    - intros [[Hk|[->|Hk]] Hne]; tauto. }
  split_and!; [|  |done].
  - intros Hin. apply Hcut in Hin. tauto.
  - unfold cut. apply NoDup_app. split_and!; [done| |done].
    intros x Hx1 Hx2. apply (Hdisj x Hx1). by right.
Qed.

Lemma wf_lookup o k : wf o → k ∈ keys o → is_Some (values o !! k).
Proof.
  intros [_ Hsub] Hk. apply elem_of_dom, Hsub. by apply elem_of_list_to_set.
Qed.

Lemma consistent_wf o : consistent o → wf o.
Proof. intros [Hnd Heq]. split; [done|]. by rewrite Heq. Qed.

Lemma consistent_lookup o k : consistent o → k ∈ keys o ↔ is_Some (values o !! k).
Proof.
  intros [_ Heq]. by rewrite <- elem_of_dom, <- Heq, elem_of_list_to_set.
Qed.

Lemma Delete_absent o key : values o !! key = None → Delete o key = o.
Proof. intros Hk. unfold Delete. by rewrite Hk. Qed.

Lemma Delete_values o key : values (Delete o key) = delete key (values o).
Proof.
  unfold Delete. destruct (values o !! key) eqn:Hk; [done|].
  by rewrite delete_id.
Qed.

Lemma Delete_keys_present o key :
  wf o → is_Some (values o !! key) →
  (key ∉ keys (Delete o key)) ∧ NoDup (keys (Delete o key)) ∧
  ∀ k, k ∈ keys (Delete o key) ↔ k ∈ keys o ∧ k ≠ key.
Proof.
  intros [Hnd Hsub] [v Hv]. unfold Delete. rewrite Hv. simpl.
  destruct (index_of key (keys o)) as [i|] eqn:Hi.
  - by apply cut_index_of.
  - apply index_of_None in Hi. split_and!; [done|done|].
    intros k. split; [|tauto]. intros Hk. split; [done|]. by intros ->.
Qed.

End ContainerFacts.

(** *** Every step of the sort is a swap: the result is a permutation *)

Module GoSortFacts.
Import GoSort.
Section Perm.
Context {A : Type} (less : A → A → bool).
Implicit Types (data : list A).

Lemma Swap_perm i j data : Swap i j data ≡ₚ data.
Proof.
  unfold Swap. destruct (data !! i) as [x|] eqn:Hi; [|done].
  destruct (data !! j) as [y|] eqn:Hj; [|done].
  by apply Permutation_insert_swap.
Qed.

Lemma Swap_length i j data : length (Swap i j data) = length data.
Proof. apply Permutation_length, Swap_perm. Qed.

Lemma sink_perm a j data : sink less a j data ≡ₚ data.
Proof.
  revert data. induction j as [|j IH]; intros data; simpl; [done|].
  destruct (_ && _); [|done]. rewrite IH. apply Swap_perm.
Qed.

Lemma insertion_loop_perm a n i data : insertion_loop less a n i data ≡ₚ data.
Proof.
  revert i data. induction n as [|n IH]; intros i data; simpl; [done|].
  rewrite IH. apply sink_perm.
Qed.

Lemma insertionSort_perm data a b : insertionSort less data a b ≡ₚ data.
Proof. apply insertion_loop_perm. Qed.

Lemma siftDown_perm data lo hi first : siftDown less data lo hi first ≡ₚ data.
Proof.
  unfold siftDown. generalize hi at 1. intros n. revert lo data.
  induction n as [|n IH]; intros lo data; simpl; [done|].
  destruct (hi <=? _); [done|]. destruct (negb _); [done|].
  rewrite IH. apply Swap_perm.
Qed.

Lemma heapSort_perm data a b : heapSort less data a b ≡ₚ data.
Proof.
  unfold heapSort.
  assert (Hfold1 : ∀ (ixs : list nat) d, foldl (λ d i, siftDown less d i (b - a) a) d ixs ≡ₚ d).
  { induction ixs as [|i ixs IH]; intros d; simpl; [done|].
    rewrite IH. apply siftDown_perm. }
  assert (Hfold2 : ∀ (ixs : list nat) d,
    foldl (λ d i, siftDown less (Swap a (a + i) d) 0 i a) d ixs ≡ₚ d).
  { induction ixs as [|i ixs IH]; intros d; simpl; [done|].
    rewrite IH, siftDown_perm. apply Swap_perm. }
  by rewrite Hfold2, Hfold1.
Qed.

Lemma reverse_loop_perm n i j data : reverse_loop n i j data ≡ₚ data.
Proof.
  revert i j data. induction n as [|n IH]; intros i j data; simpl; [done|].
  destruct (i <? j); [|done]. rewrite IH. apply Swap_perm.
Qed.

Lemma reverseRange_perm data a b : reverseRange data a b ≡ₚ data.
Proof. apply reverse_loop_perm. Qed.

Lemma shift_left_perm j data : shift_left less j data ≡ₚ data.
Proof.
  revert data. induction j as [|j IH]; intros data; simpl; [done|].
  destruct (Less _ _ _ _); [|done]. rewrite IH. apply Swap_perm.
Qed.

Lemma shift_right_perm n j data : shift_right less n j data ≡ₚ data.
Proof.
  revert j data. induction n as [|n IH]; intros j data; simpl; [done|].
  destruct (Less _ _ _ _); [|done]. rewrite IH. apply Swap_perm.
Qed.

Lemma partial_loop_perm steps i a b data :
  (partial_loop less steps i a b data).1 ≡ₚ data.
Proof.
  revert i data. induction steps as [|steps IH]; intros i data; simpl; [done|].
  destruct (_ =? b); [done|]. destruct (b - a <? 50); [done|].
  rewrite IH.
  assert (Hr : ∀ c n j d, (if c : bool then shift_right less n j d else d) ≡ₚ d).
  { intros [] ???; [apply shift_right_perm|done]. }
  assert (Hl : ∀ c j d, (if c : bool then shift_left less j d else d) ≡ₚ d).
  { intros [] ??; [apply shift_left_perm|done]. }
  rewrite Hr, Hl. apply Swap_perm.
Qed.

Lemma partialInsertionSort_perm data a b :
  (partialInsertionSort less data a b).1 ≡ₚ data.
Proof. apply partial_loop_perm. Qed.

Lemma break_loop_perm n i idx a len modulus random data :
  break_loop n i idx a len modulus random data ≡ₚ data.
Proof.
  revert i random data. induction n as [|n IH]; intros i random data; simpl; [done|].
  rewrite IH. apply Swap_perm.
Qed.

Lemma breakPatterns_perm data a b : breakPatterns data a b ≡ₚ data.
Proof.
  unfold breakPatterns. destruct (8 <=? b - a); [|done]. apply break_loop_perm.
Qed.

Lemma partition_loop_perm n i j a data : (partition_loop less n i j a data).1 ≡ₚ data.
Proof.
  revert i j data. induction n as [|n IH]; intros i j data; simpl; [done|].
  destruct (_ <? _); [done|]. rewrite IH. apply Swap_perm.
Qed.

Lemma partition_perm data a b pivot : (partition less data a b pivot).1.1 ≡ₚ data.
Proof.
  unfold partition. destruct (_ <? _); simpl.
  - by rewrite !Swap_perm.
  - match goal with
    | |- context [partition_loop _ ?n ?i ?j ?a0 ?d] =>
        pose proof (partition_loop_perm n i j a0 d) as Hp;
        destruct (partition_loop less n i j a0 d) as [d' j']
    end.
    simpl in *. by rewrite Swap_perm, Hp, !Swap_perm.
Qed.

Lemma partitionEqual_loop_perm n i j a data :
  (partitionEqual_loop less n i j a data).1 ≡ₚ data.
Proof.
  revert i j data. induction n as [|n IH]; intros i j data; simpl; [done|].
  destruct (_ <? _); [done|]. rewrite IH. apply Swap_perm.
Qed.

Lemma partitionEqual_perm data a b pivot : (partitionEqual less data a b pivot).1 ≡ₚ data.
Proof.
  unfold partitionEqual. rewrite partitionEqual_loop_perm. apply Swap_perm.
Qed.

Lemma pdqsort_perm fuel data a b limit wb wp data' :
  pdqsort less fuel data a b limit wb wp = Some data' → data' ≡ₚ data.
Proof.
  revert data a b limit wb wp data'.
  induction fuel as [|fuel IH]; intros data a b limit wb wp data'; simpl; [done|].
  destruct (b - a <=? 12).
  { intros [= <-]. apply insertionSort_perm. }
  destruct (limit =? 0).
  { intros [= <-]. apply heapSort_perm. }
  set (st := if negb wb then _ else _).
  assert (Hst : st.1 ≡ₚ data).
  { subst st. destruct (negb wb); simpl; [apply breakPatterns_perm|done]. }
  destruct st as [d1 limit1]. simpl in Hst.
  destruct (choosePivot less d1 a b) as [pivot hint].
  set (st := match hint with decreasingHint => _ | _ => _ end).
  assert (Hst2 : st.1.1 ≡ₚ data).
  { subst st. destruct hint; simpl; try done. by rewrite reverseRange_perm. }
  destruct st as [[d2 pivot2] hint2]. simpl in Hst2.
  set (st := if _ && _ && _ then _ else _).
  assert (Hst3 : st.1 ≡ₚ data).
  { subst st. destruct (_ && _ && _); simpl; [|done].
    by rewrite partialInsertionSort_perm. }
  destruct st as [d3 done3]. simpl in Hst3.
  destruct done3. { by intros [= <-]. }
  destruct (_ && _).
  - pose proof (partitionEqual_perm d3 a b pivot2) as Hpe.
    destruct (partitionEqual less d3 a b pivot2) as [d4 mid]. simpl in Hpe.
    intros Hrec. apply IH in Hrec. by rewrite Hrec, Hpe.
  - pose proof (partition_perm d3 a b pivot2) as Hpe.
    destruct (partition less d3 a b pivot2) as [[d4 mid] ap]. simpl in Hpe.
    destruct (_ <? _); intros Hrec;
      apply bind_Some in Hrec as (d5 & Hrec1 & Hrec2);
      apply IH in Hrec1; apply IH in Hrec2;
      by rewrite Hrec2, Hrec1, Hpe.
Qed.

Lemma Sort_run_perm data data' : Sort_run less data = Some data' → data' ≡ₚ data.
Proof.
  unfold Sort_run. destruct (_ <=? 1); [by intros [= <-]|]. apply pdqsort_perm.
Qed.

Lemma Sort_perm data : Sort less data ≡ₚ data.
Proof.
  unfold Sort. destruct (Sort_run less data) as [d|] eqn:Hr; simpl; [|done].
  by apply Sort_run_perm.
Qed.

(** *** The fuel given by [Sort_run] is never used up *)

Lemma scan_up_bounds n i j a data :
  i ≤ scan_up less n i j a data ≤ i `max` S j.
Proof.
  revert i. induction n as [|n IH]; intros i; simpl; [lia|].
  destruct (i <=? j) eqn:Hij; simpl; [|lia].
  apply Nat.leb_le in Hij. destruct (Less _ _ _ _); [|lia].
  specialize (IH (S i)). lia.
Qed.

Lemma scan_down_bounds n i j a data :
  j `min` (i - 1) ≤ scan_down less n i j a data ≤ j.
Proof.
  revert j. induction n as [|n IH]; intros j; simpl; [lia|].
  destruct (i <=? j) eqn:Hij; simpl; [|lia].
  apply Nat.leb_le in Hij. destruct (negb _); [|lia].
  specialize (IH (j - 1)). lia.
Qed.

Lemma partition_loop_bounds n i j a data :
  a + 2 ≤ i → i ≤ j + 2 →
  a ≤ (partition_loop less n i j a data).2 ≤ j.
Proof.
  revert i j data. induction n as [|n IH]; intros i j data Hi Hj; simpl; [lia|].
  pose proof (scan_up_bounds (S j - i) i j a data) as Hup.
  set (i' := scan_up less (S j - i) i j a data) in *.
  pose proof (scan_down_bounds (S j - i') i' j a data) as Hdown.
  set (j' := scan_down less (S j - i') i' j a data) in *.
  destruct (j' <? i') eqn:Hlt; simpl; [lia|].
  apply Nat.ltb_ge in Hlt.
  specialize (IH (S i') (j' - 1) (Swap i' j' data)). lia.
Qed.

Lemma partition_mid data a b pivot :
  a + 2 ≤ b → a ≤ (partition less data a b pivot).1.2 ≤ b - 1.
Proof.
  intros Hab. unfold partition.
  set (d := Swap a pivot data).
  pose proof (scan_up_bounds (S (b - 1) - (a + 1)) (a + 1) (b - 1) a d) as Hup.
  set (i' := scan_up less _ _ _ _ _) in *.
  pose proof (scan_down_bounds (S (b - 1) - i') i' (b - 1) a d) as Hdown.
  set (j' := scan_down less _ _ _ _ _) in *.
  destruct (j' <? i') eqn:Hlt; simpl; [lia|].
  apply Nat.ltb_ge in Hlt.
  pose proof (partition_loop_bounds (S j' - i') (S i') (j' - 1) a (Swap i' j' d)) as Hl.
  destruct (partition_loop _ _ _ _ _ _) as [d' m]. simpl in *. lia.
Qed.

Lemma scan_up_eq_ge n i j a data : i ≤ scan_up_eq less n i j a data.
Proof.
  revert i. induction n as [|n IH]; intros i; simpl; [lia|].
  destruct (_ && _); [|lia]. specialize (IH (S i)). lia.
Qed.

Lemma partitionEqual_loop_ge n i j a data :
  i ≤ (partitionEqual_loop less n i j a data).2.
Proof.
  revert i j data. induction n as [|n IH]; intros i j data; simpl; [lia|].
  pose proof (scan_up_eq_ge (S j - i) i j a data) as Hup.
  set (i' := scan_up_eq less _ _ _ _ _) in *.
  destruct (_ <? i'); simpl; [lia|].
  match goal with
  | |- context [partitionEqual_loop _ _ _ ?j0 _ ?d] =>
      specialize (IH (S i') j0 d)
  end. lia.
Qed.

Lemma partitionEqual_mid data a b pivot :
  a + 1 ≤ (partitionEqual less data a b pivot).2.
Proof. apply partitionEqual_loop_ge. Qed.

Lemma pdqsort_total fuel data a b limit wb wp :
  b - a < fuel → is_Some (pdqsort less fuel data a b limit wb wp).
Proof.
  revert data a b limit wb wp.
  induction fuel as [|fuel IH]; intros data a b limit wb wp Hfuel; simpl; [lia|].
  destruct (b - a <=? 12) eqn:Hlen; [done|]. apply Nat.leb_gt in Hlen.
  destruct (limit =? 0); [done|].
  destruct (if negb wb then _ else _) as [d1 limit1].
  destruct (choosePivot less d1 a b) as [pivot hint].
  destruct (match hint with decreasingHint => _ | _ => _ end) as [[d2 pivot2] hint2].
  destruct (if _ && _ && _ then _ else _) as [d3 done3].
  destruct done3; [done|].
  destruct (_ && _).
  - pose proof (partitionEqual_mid d3 a b pivot2) as Hmid.
    destruct (partitionEqual less d3 a b pivot2) as [d4 mid]. simpl in Hmid.
    apply IH. lia.
  - pose proof (partition_mid d3 a b pivot2) as Hmid.
    destruct (partition less d3 a b pivot2) as [[d4 mid] ap]. simpl in Hmid.
    destruct (_ <? _).
    + destruct (IH d4 a mid limit1 true true) as [d5 ->]; [lia|]. simpl.
      apply IH. lia.
    + destruct (IH d4 (mid + 1) b limit1 true true) as [d5 ->]; [lia|]. simpl.
      apply IH. lia.
Qed.

Lemma Sort_runs data : Sort_run less data = Some (Sort less data).
Proof.
  unfold Sort. destruct (Sort_run less data) as [d|] eqn:Hr; [done|].
  exfalso. unfold Sort_run in Hr. destruct (_ <=? 1); [done|].
  pose proof (pdqsort_total (S (length data)) data 0 (length data)
                (bits_Len (length data)) true true) as [d Hd]; [lia|].
  congruence.
Qed.

End Perm.
End GoSortFacts.

(** *** Slices of at most twelve elements are sorted by insertion *)

Section Insertion.
Import GoSort.
Context {A : Type} (less : A → A → bool).
Implicit Types (l acc rest : list A).

Lemma stable_insert_snoc x l y :
  stable_insert less x (l ++ [y]) =
  if less x y then stable_insert less x l ++ [y] else l ++ [y; x].
Proof.
  induction l as [|z l IH]; simpl.
  - destruct (less x y); simpl; [done|done].
  - rewrite forallb_app. simpl. rewrite andb_true_r.
    destruct (less x z) eqn:Hz; simpl.
    + destruct (forallb (less x) l) eqn:Hl; simpl.
      * destruct (less x y); simpl; [done|].
        rewrite IH. by destruct l.
      * rewrite IH. destruct (less x y); [done|]. by destruct l.
    + rewrite IH. destruct (less x y); [done|]. by destruct l.
Qed.

Lemma stable_insert_length x l : length (stable_insert less x l) = S (length l).
Proof.
  induction l as [|y l IH]; simpl; [done|].
  destruct (_ && _); simpl; [done|]. by rewrite IH.
Qed.

Lemma Less_adjacent l y x rest :
  Less less (l ++ y :: x :: rest) (S (length l)) (length l) = less x y.
Proof.
  unfold Less.
  rewrite (lookup_app_r l _ (S (length l))) by lia.
  rewrite (lookup_app_r l _ (length l)) by lia.
  replace (S (length l) - length l) with 1 by lia. by rewrite Nat.sub_diag.
Qed.

Lemma Swap_adjacent l y x rest :
  Swap (S (length l)) (length l) (l ++ y :: x :: rest) = l ++ x :: y :: rest.
Proof.
  unfold Swap.
  rewrite (lookup_app_r l _ (S (length l))) by lia.
  rewrite (lookup_app_r l _ (length l)) by lia.
  replace (S (length l) - length l) with 1 by lia. rewrite Nat.sub_diag. simpl.
  rewrite !insert_app_r_alt by lia.
  replace (S (length l) - length l) with 1 by lia. by rewrite Nat.sub_diag.
Qed.

Lemma sink_stable_insert l x rest :
  sink less 0 (length l) (l ++ x :: rest) = stable_insert less x l ++ rest.
Proof.
  revert rest. induction l as [|y l IH] using rev_ind; intros rest; [done|].
  rewrite length_app, Nat.add_1_r, <- app_assoc. simpl.
  rewrite Less_adjacent, stable_insert_snoc.
  destruct (less x y).
  - rewrite Swap_adjacent, IH. by rewrite <- app_assoc.
  - by rewrite <- app_assoc.
Qed.

Lemma insertion_loop_foldl acc rest :
  insertion_loop less 0 (length rest) (length acc) (acc ++ rest) =
  foldl (λ acc x, stable_insert less x acc) acc rest.
Proof.
  revert acc. induction rest as [|x rest IH]; intros acc; simpl.
  - by rewrite app_nil_r.
  - rewrite sink_stable_insert.
    rewrite <- (stable_insert_length x acc). apply IH.
Qed.

Lemma insertionSort_stable l :
  insertionSort less l 0 (length l) = stable_insertion_sort less l.
Proof.
  unfold insertionSort, stable_insertion_sort. destruct l as [|x l]; [done|].
  simpl. rewrite Nat.sub_0_r. apply (insertion_loop_foldl [x] l).
Qed.

Lemma Sort_small l :
  length l ≤ 12 → Sort less l = stable_insertion_sort less l.
Proof.
  intros Hlen. unfold Sort, Sort_run.
  destruct (length l <=? 1) eqn:H1; simpl.
  - apply Nat.leb_le in H1. destruct l as [|x [|y l]]; simpl in *; [done|done|lia].
  - rewrite Nat.sub_0_r. apply Nat.leb_le in Hlen. rewrite Hlen. simpl.
    apply insertionSort_stable.
Qed.

(** The insertion sort is a stable sort. *)

Context (Hswo : StrictWeakOrder less).

Lemma swo_asym x y : less x y = true → less y x = false.
Proof.
  intros Hxy. destruct (less y x) eqn:Hyx; [|done].
  pose proof (swo_trans _ Hswo x y x Hxy Hyx) as Hxx.
  by rewrite (swo_irrefl _ Hswo) in Hxx.
Qed.

Lemma swo_neg_trans x y z :
  less x y = false → less y z = false → less x z = false.
Proof.
  intros Hxy Hyz. destruct (less x z) eqn:Hxz; [|done].
  destruct (less y x) eqn:Hyx.
  { by rewrite (swo_trans _ Hswo y x z Hyx Hxz) in Hyz. }
  destruct (less z y) eqn:Hzy.
  { by rewrite (swo_trans _ Hswo x z y Hxz Hzy) in Hxy. }
  assert (tied less x z = true) as Ht.
  { apply (swo_tied_trans _ Hswo x y z); unfold tied; by rewrite ?Hxy, ?Hyx, ?Hyz, ?Hzy. }
  unfold tied in Ht. by rewrite Hxz in Ht.
Qed.

Lemma tied_sym x y : tied less x y = tied less y x.
Proof. unfold tied. apply andb_comm. Qed.

Lemma stable_insert_perm x l : stable_insert less x l ≡ₚ x :: l.
Proof.
  induction l as [|y l IH]; simpl; [done|].
  destruct (_ && _); [done|]. rewrite IH. apply Permutation_swap.
Qed.

Lemma stable_insert_sorted x l :
  StronglySorted (λ a b, less b a = false) l →
  StronglySorted (λ a b, less b a = false) (stable_insert less x l).
Proof.
  induction 1 as [|y l Hl IH Hy]; simpl; [repeat constructor|].
  destruct (less x y && forallb (less x) l) eqn:Hall.
  - apply andb_prop in Hall as [Hxy Hxl].
    constructor; [by constructor|].
    constructor; [by apply swo_asym|].
    rewrite forallb_forall in Hxl. apply Forall_forall. intros z Hz.
    apply swo_asym, Hxl. by apply list_elem_of_In.
  - constructor; [done|].
    rewrite (stable_insert_perm x l). constructor; [|done].
    apply andb_false_iff in Hall as [Hxy|Hxl]; [done|].
    assert (∃ z, z ∈ l ∧ less x z = false) as (z & Hz & Hxz).
    { clear -Hxl. induction l as [|z l IH]; simpl in *; [done|].
      apply andb_false_iff in Hxl as [Hz|Hl].
      - exists z. split; [left|done].
      - destruct (IH Hl) as (z' & Hz' & Hxz'). exists z'. split; [by right|done]. }
    rewrite Forall_forall in Hy. eapply swo_neg_trans; [exact Hxz|]. by apply Hy.
Qed.

Lemma filter_tied_after c x l :
  tied less c x = true → forallb (less x) l = true →
  List.filter (tied less c) l = [].
Proof.
  intros Hcx. induction l as [|z l IH]; simpl; [done|].
  intros Hz. apply andb_prop in Hz as [Hxz Hl].
  destruct (tied less c z) eqn:Hcz; [|by apply IH].
  assert (tied less x z = true) as Hxz'.
  { apply (swo_tied_trans _ Hswo x c z); [by rewrite tied_sym|done]. }
  unfold tied in Hxz'. by rewrite Hxz in Hxz'.
Qed.

Lemma stable_insert_filter c x l :
  List.filter (tied less c) (stable_insert less x l) =
  List.filter (tied less c) (l ++ [x]).
Proof.
  induction l as [|y l IH]; [done|].
  cbn [stable_insert].
  destruct (forallb (less x) (y :: l)) eqn:Hall.
  - rewrite List.filter_app.
    change (List.filter (tied less c) (x :: y :: l))
      with (if tied less c x then x :: List.filter (tied less c) (y :: l)
            else List.filter (tied less c) (y :: l)).
    change (List.filter (tied less c) [x])
      with (if tied less c x then [x] else []).
    destruct (tied less c x) eqn:Hcx.
    + by rewrite (filter_tied_after c x (y :: l)).
    + by rewrite app_nil_r.
  - simpl. by rewrite IH.
Qed.

Lemma stable_insertion_sort_spec l :
  stable_sort_of less l (stable_insertion_sort less l).
Proof.
  unfold stable_insertion_sort.
  assert (Hgen : ∀ acc,
    StronglySorted (λ a b, less b a = false) acc →
    foldl (λ acc x, stable_insert less x acc) acc l ≡ₚ acc ++ l ∧
    StronglySorted (λ a b, less b a = false)
      (foldl (λ acc x, stable_insert less x acc) acc l) ∧
    ∀ c, List.filter (tied less c) (foldl (λ acc x, stable_insert less x acc) acc l)
       = List.filter (tied less c) (acc ++ l)).
  { induction l as [|x l IH]; intros acc Hacc; simpl.
    - rewrite app_nil_r. done.
    - destruct (IH (stable_insert less x acc)) as (Hp & Hs & Hf).
      { by apply stable_insert_sorted. }
      split_and!; [|done|].
      + rewrite Hp, stable_insert_perm. simpl. apply Permutation_middle.
      + intros c. rewrite Hf, !List.filter_app, stable_insert_filter, List.filter_app.
        rewrite <- app_assoc. f_equal.
        change (x :: l) with ([x] ++ l). by rewrite List.filter_app. }
  destruct (Hgen []) as (Hp & Hs & Hf); [constructor|].
  by split.
Qed.

End Insertion.

(** ** The container operations *)

Section ContainerOps.
Context {T : Type} `{GoZero T}.
Implicit Types (o : OrderedMap T) (k key : string) (ks : list string).

Lemma filter_ne_id key ks : key ∉ ks → filter (λ k, k ≠ key) ks = ks.
Proof.
  induction ks as [|k ks IH]; [done|]. intros Hnin.
  apply not_elem_of_cons in Hnin as [Hne Hnin].
  rewrite filter_cons_True by done. by rewrite IH.
Qed.

Lemma cut_filter key ks i :
  NoDup ks → index_of key ks = Some i → cut i ks = filter (λ k, k ≠ key) ks.
Proof.
  intros Hnd Hi. apply index_of_Some in Hi as [Hl Hnin].
  pose proof (take_drop_middle _ _ _ Hl) as Hsplit.
  rewrite <- Hsplit in Hnd. apply NoDup_app in Hnd as (_ & _ & Hnd2).
  apply NoDup_cons in Hnd2 as [Hnin2 _].
  unfold cut. rewrite <- Hsplit at 3.
  rewrite filter_app, filter_cons_False by (intros Hne; by apply Hne).
  by rewrite !filter_ne_id.
Qed.

Lemma Delete_keys o key :
  wf o → keys (Delete o key) = filter (λ k, k ≠ key) (keys o).
Proof.
  intros Hwf. pose proof Hwf as [Hnd _]. unfold Delete.
  destruct (values o !! key) as [v|] eqn:Hv; simpl.
  - destruct (index_of key (keys o)) as [i|] eqn:Hi.
    + by apply cut_filter.
    + apply index_of_None in Hi. by rewrite filter_ne_id.
  - rewrite filter_ne_id; [done|]. intros Hin.
    apply (wf_lookup _ _ Hwf) in Hin as [v' Hv']. congruence.
Qed.

Lemma write_keys_fmap ks (pairs : list (Pair T)) :
  length pairs = length ks → write_keys ks pairs = key <$> pairs.
Proof.
  unfold write_keys.
  assert (Hgen : ∀ (pairs : list (Pair T)) n pre suf,
    length pre = n → length suf = length pairs →
    foldl (λ ks ip, <[ip.1 := key ip.2]> ks) (pre ++ suf)
          (imap (λ i, pair (n + i)) pairs) = pre ++ (key <$> pairs)).
  { clear. induction pairs as [|p pairs IH]; intros n pre suf Hpre Hsuf.
    - destruct suf; [done|done].
    - destruct suf as [|s suf]; [done|]. simpl in *.
      rewrite Nat.add_0_r, <- Hpre, insert_app_r_alt, Nat.sub_diag by lia. simpl.
      replace (pre ++ key p :: suf) with ((pre ++ [key p]) ++ suf)
        by by rewrite <- app_assoc.
      rewrite (imap_ext _ (λ i, pair (S (length pre) + i))).
      2:{ intros i x _. simpl. f_equal. lia. }
      rewrite (IH (S (length pre)) (pre ++ [key p]) suf).
      + by rewrite <- app_assoc.
      + rewrite length_app. simpl. lia.
      + lia. }
  intros Hlen. by apply (Hgen pairs 0 [] ks).
Qed.

Lemma pairs_of_key o : key <$> pairs_of o = keys o.
Proof.
  unfold pairs_of. induction (keys o) as [|k ks IH]; simpl; [done|].
  f_equal. apply IH.
Qed.

Lemma Sort_keys o lessFunc :
  keys (Sort o lessFunc) = key <$> GoSort.Sort lessFunc (pairs_of o).
Proof.
  unfold Sort. simpl. apply write_keys_fmap.
  rewrite (Permutation_length (GoSortFacts.Sort_perm lessFunc (pairs_of o))).
  unfold pairs_of. by rewrite length_fmap.
Qed.

Lemma Sort_keys_perm o lessFunc : keys (Sort o lessFunc) ≡ₚ keys o.
Proof.
  rewrite Sort_keys, <- (pairs_of_key o).
  apply fmap_Permutation, GoSortFacts.Sort_perm.
Qed.

Lemma in_place_perm (f : list string → list string) ks :
  f ks ≡ₚ ks → in_place f ks = f ks.
Proof.
  intros Hp. unfold in_place.
  rewrite <- (Permutation_length Hp), firstn_all.
  by rewrite (Permutation_length Hp), drop_all, app_nil_r.
Qed.

End ContainerOps.

(** ** Set, Delete and Sort *)

Section ContainerClaims.
Context {T : Type} `{GoZero T}.
Implicit Types (o : OrderedMap T) (k key : string) (ks : list string).

Lemma Get_found o key : (Get o key).2 = true ↔ is_Some (values o !! key).
Proof.
  unfold Get. destruct (values o !! key); simpl; split; done.
Qed.

Lemma Get_not_found o key : (Get o key).2 = false ↔ values o !! key = None.
Proof. unfold Get. by destruct (values o !! key). Qed.

Lemma SetAll_fresh (kvs : list (string * T)) o :
  NoDup kvs.*1 → (∀ k, k ∈ kvs.*1 → values o !! k = None) →
  keys (SetAll o kvs) = keys o ++ kvs.*1.
Proof.
  revert o. induction kvs as [|[k v] kvs IH]; intros o Hnd Hfresh; simpl.
  - by rewrite app_nil_r.
  - apply NoDup_cons in Hnd as [Hk Hnd]. unfold SetAll in *. simpl.
    rewrite IH; [|done|].
    + unfold Set_ at 1. simpl. rewrite (Hfresh k) by left.
      by rewrite <- app_assoc.
    + intros k' Hk'. simpl. rewrite lookup_insert_ne.
      * apply Hfresh. by right.
      * intros ->. done.
Qed.

(** C4: [Set] on a key that is not present appends it to the end of the key
    order; [Set] on a present key updates the value and leaves the key
    order as it is; so, from a fresh container, [Set] calls with distinct
    keys k1..kn give [Keys() = [k1..kn]]. *)
Theorem Set_keeps_insertion_order :
  (∀ o key val, (Get o key).2 = false →
     Keys (Set_ o key val) = Keys o ++ [key] ∧ Get (Set_ o key val) key = (val, true)) ∧
  (∀ o key val, (Get o key).2 = true →
     Keys (Set_ o key val) = Keys o ∧ Get (Set_ o key val) key = (val, true) ∧
     ∀ k, k ≠ key → Get (Set_ o key val) k = Get o k) ∧
  (∀ kvs : list (string * T), NoDup kvs.*1 → Keys (SetAll New kvs) = kvs.*1).
Proof.
  split_and!.
  - intros o key val Hk. apply Get_not_found in Hk.
    unfold Keys, Get, Set_. simpl. by rewrite Hk, lookup_insert_eq.
  - intros o key val Hk. apply Get_found in Hk as [v Hv].
    unfold Keys, Get, Set_. simpl. rewrite Hv, lookup_insert_eq.
    split_and!; [done..|]. intros k Hne. by rewrite lookup_insert_ne.
  - intros kvs Hnd. unfold Keys. by rewrite SetAll_fresh.
Qed.

(** C8: after [Delete(k)], [Get(k)] reports not found and [Keys()] does not
    hold [k]: the key has left both the order and the mapping, the other
    keys keep their order; [Delete] of a key that is not present changes
    nothing. *)
Theorem Delete_removes_key o k :
  wf o →
  (Get (Delete o k) k).2 = false ∧
  (k ∉ Keys (Delete o k)) ∧
  Keys (Delete o k) = filter (λ k', k' ≠ k) (Keys o) ∧
  values (Delete o k) = delete k (values o) ∧
  ((Get o k).2 = false → Delete o k = o).
Proof.
  intros Hwf. split_and!.
  - apply Get_not_found. rewrite Delete_values. apply lookup_delete_eq.
  - unfold Keys. rewrite Delete_keys by done. rewrite list_elem_of_filter. tauto.
  - by apply Delete_keys.
  - apply Delete_values.
  - intros Hk. apply Delete_absent. by apply Get_not_found.
Qed.

End ContainerClaims.

Lemma Set_keeps_insertion_order_witness :
  Keys (SetAll (New : OrderedMap Z) [("x", 1); ("a", 2); ("m", 3)]%Z) = ["x"; "a"; "m"].
Proof.
  apply (proj2 (proj2 Set_keeps_insertion_order) [("x", 1); ("a", 2); ("m", 3)]%Z).
  decide_by_computation.
Defined.

Lemma Delete_removes_key_witness :
  wf bac ∧ (Get (Delete bac "a") "a").2 = false ∧ Keys (Delete bac "a") = ["b"; "c"].
Proof.
  assert (Hwf : wf bac) by decide_by_computation.
  destruct (Delete_removes_key bac "a" Hwf) as (Hget & _ & Hkeys & _).
  split_and!; [done|done|]. rewrite Hkeys. reflexivity.
Defined.

Section SortClaims.
Context {T : Type} `{GoZero T}.
Implicit Types (o : OrderedMap T) (lessFunc : Pair T → Pair T → bool).

Lemma pairs_of_Sort o lessFunc :
  pairs_of (Sort o lessFunc) = GoSort.Sort lessFunc (pairs_of o).
Proof.
  unfold pairs_of at 1. rewrite Sort_keys.
  change (values (Sort o lessFunc)) with (values o).
  rewrite <- list_fmap_compose.
  rewrite <- (list_fmap_id (GoSort.Sort lessFunc (pairs_of o))) at 2.
  apply list_fmap_ext. intros i p Hp. simpl.
  assert (p ∈ pairs_of o) as Hin.
  { rewrite <- (GoSortFacts.Sort_perm lessFunc (pairs_of o)).
    apply list_elem_of_lookup. by exists i. }
  unfold pairs_of in Hin. apply list_elem_of_fmap in Hin as (k & -> & _). done.
Qed.

Lemma ascending_swo : StrictWeakOrder ascending.
Proof.
  unfold ascending. split.
  - intros x. apply Z.ltb_irrefl.
  - intros x y z Hxy Hyz. apply Z.ltb_lt in Hxy, Hyz. apply Z.ltb_lt. lia.
  - intros x y z. unfold tied. rewrite !andb_true_iff, !negb_true_iff, !Z.ltb_ge. lia.
Qed.

Lemma descending_swo : StrictWeakOrder descending.
Proof.
  unfold descending. split.
  - intros x. apply Z.ltb_irrefl.
  - intros x y z Hxy Hyz. apply Z.ltb_lt in Hxy, Hyz. apply Z.ltb_lt. lia.
  - intros x y z. unfold tied. rewrite !andb_true_iff, !negb_true_iff, !Z.ltb_ge. lia.
Qed.


End SortClaims.



(** ** The decoder *)

Section Decoder.
Import GoJson.
Implicit Types (o : OrderedMap any) (ks : list string) (dec rest : list Token).

Lemma tokens_JObj ms : tokens (JObj ms) = Delim "{" :: members_tokens ms ++ [Delim "}"].
Proof.
  simpl. do 2 f_equal. unfold members_tokens.
  induction ms as [|[k v] ms IH]; simpl; [done|]. by rewrite IH.
Qed.

Lemma tokens_JArr vs : tokens (JArr vs) = Delim "[" :: elems_tokens vs ++ [Delim "]"].
Proof.
  reflexivity.
Qed.

Lemma members_tokens_cons k v ms :
  members_tokens ((k, v) :: ms) = TString k :: tokens v ++ members_tokens ms.
Proof. reflexivity. Qed.

Lemma elems_tokens_cons v vs : elems_tokens (v :: vs) = tokens v ++ elems_tokens vs.
Proof. reflexivity. Qed.

Lemma tokens_length_pos j : 0 < length (tokens j).
Proof. destruct j; simpl; lia. Qed.

(** The duplicate-key branch on a duplicate-free order: the key leaves its
    slot and is written at the end. *)
Lemma move_to_end_present key ks :
  NoDup ks → key ∈ ks →
  move_to_end key ks = Some (filter (λ k, k ≠ key) ks ++ [key]).
Proof.
  intros Hnd Hin. unfold move_to_end.
  destruct (index_of key ks) as [j|] eqn:Hj.
  2:{ apply index_of_None in Hj. done. }
  pose proof (cut_filter key ks j Hnd Hj) as Hcut. unfold cut in Hcut.
  apply index_of_Some in Hj as [Hl _].
  pose proof (lookup_lt_Some _ _ _ Hl) as Hlt.
  assert (Hlast : ∃ x, drop (length ks - 1) ks = [x]).
  { destruct (ks !! (length ks - 1)) as [x|] eqn:Hx.
    - exists x. rewrite (drop_S _ _ _ Hx).
      replace (S (length ks - 1)) with (length ks) by lia. by rewrite drop_all.
    - apply lookup_ge_None in Hx. lia. }
  destruct Hlast as [x Hx]. unfold copy_down. rewrite Hx, app_assoc, Hcut.
  rewrite length_app. simpl.
  destruct (length (filter (λ k, k ≠ key) ks) + 1 =? 0) eqn:Hz.
  { apply Nat.eqb_eq in Hz. lia. }
  f_equal. rewrite insert_app_r_alt by lia.
  replace (length (filter (λ k, k ≠ key) ks) + 1 - 1 - length (filter (λ k, k ≠ key) ks))
    with 0 by lia.
  done.
Qed.

(** What the loop knows: [hasKey] holds the keys of the order, each of them
    once. *)
Definition tracked o (hasKey : gset string) : Prop :=
  NoDup (keys o) ∧ hasKey = list_to_set (keys o).

Lemma last_occurrence_step_NoDup ks k : NoDup ks → NoDup (last_occurrence_step ks k).
Proof.
  intros Hnd. unfold last_occurrence_step. case_decide.
  - apply NoDup_app. split_and!.
    + by apply NoDup_filter.
    + intros x Hx Hx'. apply list_elem_of_filter in Hx as [Hne _].
      apply list_elem_of_singleton in Hx'. done.
    + apply NoDup_singleton.
  - apply NoDup_app. split_and!; [done| |apply NoDup_singleton].
    intros x Hx Hx'. apply list_elem_of_singleton in Hx'. by subst.
Qed.

Lemma last_occurrence_step_elem ks k x :
  x ∈ last_occurrence_step ks k ↔ x = k ∨ x ∈ ks.
Proof.
  unfold last_occurrence_step. case_decide.
  - rewrite elem_of_app, list_elem_of_filter, list_elem_of_singleton.
    destruct (decide (x = k)) as [->|]; tauto.
  - rewrite elem_of_app, list_elem_of_singleton. tauto.
Qed.

Lemma tracked_step o hasKey k :
  tracked o hasKey →
  tracked (set_keys (last_occurrence_step (keys o) k) o) ({[k]} ∪ hasKey).
Proof.
  intros [Hnd ->]. split; simpl.
  - by apply last_occurrence_step_NoDup.
  - apply set_eq. intros x.
    rewrite elem_of_union, elem_of_singleton, !elem_of_list_to_set.
    by rewrite last_occurrence_step_elem.
Qed.

(** Both loops read a well-formed stream to the closing token; the object
    loop applies the last-occurrence rule to the keys it meets. *)
Lemma decode_loops fuel :
  (∀ ms o hasKey rest,
     length (members_tokens ms) < fuel → tracked o hasKey →
     decodeOrderedMap_loop fuel (members_tokens ms ++ Delim "}" :: rest) o hasKey =
     Ret (None, rest, set_keys (foldl last_occurrence_step (keys o) ms.*1) o)) ∧
  (∀ vs index rest,
     length (elems_tokens vs) < fuel →
     decodeSlice_loop fuel (elems_tokens vs ++ Delim "]" :: rest) index =
     Ret (None, rest)).
Proof.
  induction fuel as [|fuel [IHm IHe]]; [split; intros; lia|].
  assert (Hzero : tracked zero_OrderedMap ∅).
  { split; [constructor|done]. }
  split.
  - intros [|[k v] ms] o hasKey rest Hfuel Htr.
    + simpl. by destruct o.
    + rewrite members_tokens_cons in Hfuel |- *. simpl in Hfuel.
      rewrite length_app in Hfuel. simpl.
      set (step := if decide (k ∈ hasKey) then _ else _).
      assert (Hstep : step = Ret (set_keys (last_occurrence_step (keys o) k) o,
                                  {[k]} ∪ hasKey)).
      { subst step. pose proof Htr as [Hnd ->]. unfold last_occurrence_step.
        destruct (decide (k ∈ list_to_set (keys o))) as [Hin|Hnin].
        - apply elem_of_list_to_set in Hin. rewrite decide_True by done.
          rewrite (move_to_end_present _ _ Hnd Hin). do 2 f_equal.
          apply set_eq. intros x. rewrite elem_of_union, elem_of_singleton.
          rewrite !elem_of_list_to_set. split; [tauto|]. by intros [->|].
        - rewrite elem_of_list_to_set in Hnin. by rewrite decide_False by done. }
      rewrite Hstep. simpl.
      apply (tracked_step _ _ k) in Htr.
      set (o' := set_keys (last_occurrence_step (keys o) k) o) in *.
      assert (Hnext : ∀ r, r = decodeOrderedMap_loop fuel
                              (members_tokens ms ++ Delim "}" :: rest) o' ({[k]} ∪ hasKey) →
                r = Ret (None, rest, set_keys (foldl last_occurrence_step
                           (last_occurrence_step (keys o) k) ms.*1) o)).
      { intros r ->. rewrite IHm by (done || lia). done. }
      destruct v as [|b|lit|s|vs|ms'].
      * simpl. by apply Hnext.
      * simpl. by apply Hnext.
      * simpl. by apply Hnext.
      * simpl. by apply Hnext.
      * rewrite tokens_JArr in Hfuel |- *. simpl in Hfuel.
        rewrite length_app in Hfuel. simpl in Hfuel. simpl.
        rewrite <- !app_assoc. simpl.
        rewrite IHe by lia. simpl. by apply Hnext.
      * rewrite tokens_JObj in Hfuel |- *. simpl in Hfuel.
        rewrite length_app in Hfuel. simpl in Hfuel. simpl.
        rewrite <- !app_assoc. simpl.
        rewrite (IHm ms' zero_OrderedMap ∅) by (done || lia). simpl.
        by apply Hnext.
  - intros [|v vs] index rest Hfuel.
    + done.
    + rewrite elems_tokens_cons in Hfuel |- *. rewrite length_app in Hfuel.
      destruct v as [|b|lit|s|vs'|ms'].
      * simpl. apply IHe. simpl in Hfuel. lia.
      * simpl. apply IHe. simpl in Hfuel. lia.
      * simpl. apply IHe. simpl in Hfuel. lia.
      * simpl. apply IHe. simpl in Hfuel. lia.
      * rewrite tokens_JArr in Hfuel |- *. simpl in Hfuel.
        rewrite length_app in Hfuel. simpl in Hfuel. simpl.
        rewrite <- !app_assoc. simpl.
        rewrite IHe by lia. simpl. apply IHe. lia.
      * rewrite tokens_JObj in Hfuel |- *. simpl in Hfuel.
        rewrite length_app in Hfuel. simpl in Hfuel. simpl.
        rewrite <- !app_assoc. simpl.
        rewrite (IHm ms' zero_OrderedMap ∅) by (done || lia). simpl.
        apply IHe. lia.
Qed.

End Decoder.

(** ** UnmarshalJSON *)

Section Unmarshal.
Import GoJson.
Implicit Types (o : OrderedMap any) (ks : list string) (b : string).

Lemma UnmarshalJSON_syntax_error o b :
  parse b = None → UnmarshalJSON o b = Ret (Some SyntaxError, o).
Proof. intros Hp. unfold UnmarshalJSON. by rewrite Hp. Qed.

Lemma UnmarshalJSON_object o b ms :
  parse b = Some (JObj ms) →
  UnmarshalJSON o b =
  Ret (None, {| keys := last_occurrence_order ms.*1;
                values := merged (values o) ms;
                escapeHTML := escapeHTML o |}).
Proof.
  intros Hp. unfold UnmarshalJSON. rewrite Hp. cbn [Unmarshal_map].
  rewrite tokens_JObj. unfold decodeOrderedMap.
  destruct (decode_loops (S (length (members_tokens ms ++ [Delim "}"])))) as [Hm _].
  rewrite (Hm ms _ ∅ []).
  - done.
  - rewrite length_app. simpl. lia.
  - split; [constructor|done].
Qed.

Lemma UnmarshalJSON_null o b :
  parse b = Some JNull →
  UnmarshalJSON o b =
  Ret (Some EOF, {| keys := []; values := ∅; escapeHTML := escapeHTML o |}).
Proof. intros Hp. unfold UnmarshalJSON. by rewrite Hp. Qed.

Lemma UnmarshalJSON_type_error o b j :
  parse b = Some j → (∀ ms, j ≠ JObj ms) → j ≠ JNull →
  UnmarshalJSON o b = Ret (Some UnmarshalTypeError, o).
Proof.
  intros Hp Hobj Hnull. unfold UnmarshalJSON. rewrite Hp.
  destruct j; try done. by destruct (Hobj members).
Qed.

(** [UnmarshalJSON] neither panics nor runs out of fuel. *)
Lemma UnmarshalJSON_returns o b : ∃ r, UnmarshalJSON o b = Ret r.
Proof.
  destruct (parse b) as [j|] eqn:Hp.
  - destruct j as [|x|lit|s|vs|ms].
    + eexists. by apply UnmarshalJSON_null.
    + eexists. by eapply UnmarshalJSON_type_error.
    + eexists. by eapply UnmarshalJSON_type_error.
    + eexists. by eapply UnmarshalJSON_type_error.
    + eexists. by eapply UnmarshalJSON_type_error.
    + eexists. by apply UnmarshalJSON_object.
  - eexists. by apply UnmarshalJSON_syntax_error.
Qed.










End Unmarshal.

(** ** The decoder's claims *)

Section DecoderClaims.
Import GoJson.
Implicit Types (o : OrderedMap any) (b : string) (ms : list (string * json)).




End DecoderClaims.




(** ** The invariant of the data model *)

Section Invariant.
Import GoJson.
Context {T : Type} `{GoZero T}.
Implicit Types (o : OrderedMap T) (k key : string).

Lemma wf_alt o : wf o ↔ NoDup (keys o) ∧ ∀ k, k ∈ keys o → is_Some (values o !! k).
Proof.
  unfold wf. split; intros [Hnd Hsub]; (split; [done|]).
  - intros k Hk. apply elem_of_dom, Hsub. by apply elem_of_list_to_set.
  - intros k Hk. apply elem_of_dom, Hsub. by apply elem_of_list_to_set in Hk.
Qed.

Lemma consistent_alt o :
  consistent o ↔ NoDup (keys o) ∧ ∀ k, k ∈ keys o ↔ is_Some (values o !! k).
Proof.
  unfold consistent. split; intros [Hnd Heq]; (split; [done|]).
  - intros k. by rewrite <- elem_of_dom, <- Heq, elem_of_list_to_set.
  - apply set_eq. intros k. by rewrite elem_of_list_to_set, elem_of_dom.
Qed.


Lemma Set_wf o key val : wf o → wf (Set_ o key val).
Proof.
  rewrite !wf_alt. intros [Hnd Hsub]. unfold Set_. simpl.
  destruct (values o !! key) as [v|] eqn:Hk.
  - split; [done|]. intros k Hin. destruct (decide (k = key)) as [->|Hne].
    + rewrite lookup_insert_eq. by eexists.
    + rewrite lookup_insert_ne by done. by apply Hsub.
  - split.
    + apply NoDup_app. split_and!; [done| |apply NoDup_singleton].
      intros k Hin ->%list_elem_of_singleton.
      apply Hsub in Hin as [v Hv]. congruence.
    + intros k Hin. destruct (decide (k = key)) as [->|Hne].
      * rewrite lookup_insert_eq. by eexists.
      * rewrite lookup_insert_ne by done. apply Hsub.
        apply elem_of_app in Hin as [|?%list_elem_of_singleton]; done.
Qed.

Lemma Set_consistent o key val : consistent o → consistent (Set_ o key val).
Proof.
  intros Hc. pose proof (Set_wf o key val (consistent_wf _ Hc)) as [Hnd _].
  apply consistent_alt. split; [done|].
  apply consistent_alt in Hc as [_ Hiff]. intros k. unfold Set_. simpl.
  destruct (decide (k = key)) as [->|Hne].
  - rewrite lookup_insert_eq. split; [by eexists|]. intros _.
    destruct (values o !! key) as [v|] eqn:Hk.
    + apply Hiff. by eexists.
    + apply elem_of_app. right. by left.
  - rewrite lookup_insert_ne by done. rewrite <- Hiff.
    destruct (values o !! key); [done|].
    rewrite elem_of_app, list_elem_of_singleton. tauto.
Qed.

Lemma Delete_wf o key : wf o → wf (Delete o key).
Proof.
  intros Hwf. apply wf_alt. rewrite Delete_keys, Delete_values by done.
  apply wf_alt in Hwf as [Hnd Hsub]. split; [by apply NoDup_filter|].
  intros k [Hne Hin]%list_elem_of_filter.
  rewrite lookup_delete_ne by done. by apply Hsub.
Qed.

Lemma Delete_consistent o key : consistent o → consistent (Delete o key).
Proof.
  intros Hc. pose proof (Delete_wf o key (consistent_wf _ Hc)) as [Hnd _].
  apply consistent_alt. split; [done|].
  rewrite Delete_keys, Delete_values by by apply consistent_wf.
  apply consistent_alt in Hc as [_ Hiff]. intros k.
  rewrite list_elem_of_filter. destruct (decide (k = key)) as [->|Hne].
  - rewrite lookup_delete_eq. split; [tauto|]. by intros [? ?].
  - rewrite lookup_delete_ne by done. rewrite <- Hiff. tauto.
Qed.





End Invariant.

Section InvariantOfSequences.
Import GoJson.
Implicit Types (o : OrderedMap any) (x : op) (xs : list op).

Lemma UnmarshalJSON_cases o b :
  (∃ e, UnmarshalJSON o b = Ret (Some e, o)) ∨
  UnmarshalJSON o b =
    Ret (Some EOF, {| keys := []; values := ∅; escapeHTML := escapeHTML o |}) ∨
  (∃ ms, UnmarshalJSON o b =
           Ret (None, {| keys := last_occurrence_order ms.*1;
                         values := merged (values o) ms;
                         escapeHTML := escapeHTML o |})).
Proof.
  destruct (parse b) as [j|] eqn:Hp.
  - destruct j as [|x|lit|s|vs|ms].
    + right. left. by apply UnmarshalJSON_null.
    + left. eexists. by eapply UnmarshalJSON_type_error.
    + left. eexists. by eapply UnmarshalJSON_type_error.
    + left. eexists. by eapply UnmarshalJSON_type_error.
    + left. eexists. by eapply UnmarshalJSON_type_error.
    + right. right. exists ms. by apply UnmarshalJSON_object.
  - left. eexists. by apply UnmarshalJSON_syntax_error.
Qed.






End InvariantOfSequences.



(** * Further properties of the code *)

(** ** How the container operations compose *)

Section ContainerComposition.
Context {T : Type} `{GoZero T}.
Implicit Types (o : OrderedMap T) (k key : string) (ks : list string).

Lemma OrderedMap_eq o o' :
  keys o = keys o' → values o = values o' → escapeHTML o = escapeHTML o' → o = o'.
Proof. destruct o, o'. simpl. by intros -> -> ->. Qed.

Lemma Delete_escapeHTML o key : escapeHTML (Delete o key) = escapeHTML o.
Proof. unfold Delete. by destruct (values o !! key). Qed.

Lemma wf_absent_not_in_keys o key : wf o → values o !! key = None → key ∉ keys o.
Proof.
  intros Hwf Hk Hin. apply (wf_lookup _ _ Hwf) in Hin as [v Hv]. congruence.
Qed.

(** X1: A second [Set] of the same key overwrites the first and leaves the
    order alone: two [Set] calls on one key are one [Set] of the last
    value. *)
Theorem Set_overwrites o key v1 v2 :
  Set_ (Set_ o key v1) key v2 = Set_ o key v2.
Proof.
  apply OrderedMap_eq; unfold Set_; simpl; [|apply insert_insert_eq|done].
  rewrite lookup_insert_eq. by destruct (values o !! key).
Qed.

(** X2: [Set] of a key that is not present followed by [Delete] of that key
    gives the container back. *)
Theorem Delete_undoes_Set o key val :
  wf o → (Get o key).2 = false → Delete (Set_ o key val) key = o.
Proof.
  intros Hwf Hk. apply Get_not_found in Hk.
  pose proof (wf_absent_not_in_keys _ _ Hwf Hk) as Hnin.
  unfold Delete, Set_. simpl. rewrite lookup_insert_eq, Hk.
  rewrite (index_of_app_fresh key (keys o) Hnin).
  apply OrderedMap_eq; simpl; [|by apply delete_insert_id|done].
  unfold cut. rewrite take_app_length, drop_ge; [by rewrite app_nil_r|].
  rewrite length_app. simpl. lia.
Qed.

(** X3: [Delete] of a key twice is [Delete] once, and two [Delete] calls can
    be swapped. *)
Theorem Delete_idempotent_commutes o a b :
  Delete (Delete o a) a = Delete o a ∧
  (wf o → Delete (Delete o a) b = Delete (Delete o b) a).
Proof.
  split.
  - apply Delete_absent. rewrite Delete_values. apply lookup_delete_eq.
  - intros Hwf. apply OrderedMap_eq.
    + rewrite !Delete_keys by (done || by apply Delete_wf).
      rewrite !list_filter_filter. apply list_filter_iff. tauto.
    + rewrite !Delete_values. apply delete_delete.
    + by rewrite !Delete_escapeHTML.
Qed.

(** X4: In a consistent container [Keys] is as long as the mapping has
    entries; [Set] of a new key makes it one longer, [Delete] of a present
    key one shorter. *)
Theorem Keys_counts_entries o key val :
  consistent o →
  length (Keys o) = size (values o) ∧
  ((Get o key).2 = false → length (Keys (Set_ o key val)) = S (length (Keys o))) ∧
  ((Get o key).2 = true → S (length (Keys (Delete o key))) = length (Keys o)).
Proof.
  intros Hc.
  assert (Hcount : ∀ o', consistent o' → length (keys o') = size (values o')).
  { intros o' [Hnd Heq]. by rewrite <- size_dom, <- Heq, size_list_to_set. }
  unfold Keys. split_and!.
  - by apply Hcount.
  - intros Hk. apply Get_not_found in Hk.
    rewrite (Hcount _ (Set_consistent _ key val Hc)), (Hcount _ Hc). simpl.
    by apply map_size_insert_None.
  - intros Hk. apply Get_found in Hk as [v Hv].
    rewrite (Hcount _ (Delete_consistent _ key Hc)), (Hcount _ Hc).
    rewrite Delete_values.
    rewrite <- (insert_id (values o) key v Hv) at 2.
    rewrite <- insert_delete_eq. symmetry. apply map_size_insert_None.
    apply lookup_delete_eq.
Qed.

End ContainerComposition.

(** ** Sorting twice, and the slots of [ByPair] *)

Section SortedInput.
Context {A : Type} (less : A → A → bool).

Lemma stable_insert_last x (l : list A) :
  (∀ y, y ∈ l → less x y = false) → stable_insert less x l = l ++ [x].
Proof.
  induction l as [|y l IH]; intros Hall; simpl; [done|].
  rewrite (Hall y) by left. simpl. rewrite IH; [done|].
  intros z Hz. apply Hall. by right.
Qed.

Lemma stable_insertion_sort_sorted (l : list A) :
  StronglySorted (λ a b, less b a = false) l → stable_insertion_sort less l = l.
Proof.
  unfold stable_insertion_sort.
  assert (Hgen : ∀ acc, StronglySorted (λ a b, less b a = false) (acc ++ l) →
                        foldl (λ acc x, stable_insert less x acc) acc l = acc ++ l).
  { induction l as [|x l IH]; intros acc Hs; simpl; [by rewrite app_nil_r|].
    rewrite stable_insert_last.
    - rewrite IH; rewrite <- app_assoc; done.
    - intros y Hy. apply (StronglySorted_app_1_elem_of _ _ _ y x Hs Hy). by left. }
  intros Hs. by apply (Hgen []).
Qed.

End SortedInput.

Section SortComposition.
Context {T : Type} `{GoZero T}.
Implicit Types (o : OrderedMap T) (lessFunc : Pair T → Pair T → bool).

(** X5: Sorting a container that the same comparator has sorted changes
    nothing (for the containers of at most twelve entries, which
    [sort.Sort] sorts by insertion). *)
Theorem Sort_idempotent o lessFunc :
  length (Keys o) ≤ 12 → StrictWeakOrder lessFunc →
  Sort (Sort o lessFunc) lessFunc = Sort o lessFunc.
Proof.
  intros Hlen Hswo.
  assert (Hl : length (pairs_of o) ≤ 12).
  { unfold pairs_of. by rewrite length_fmap. }
  apply OrderedMap_eq; [|done..].
  rewrite Sort_keys, pairs_of_Sort, Sort_keys. f_equal.
  rewrite (Sort_small lessFunc (pairs_of o) Hl).
  rewrite Sort_small.
  - apply stable_insertion_sort_sorted.
    by destruct (stable_insertion_sort_spec lessFunc Hswo (pairs_of o)).
  - rewrite <- (Sort_small lessFunc (pairs_of o) Hl).
    by rewrite (Permutation_length (GoSortFacts.Sort_perm lessFunc (pairs_of o))).
Qed.

End SortComposition.

Lemma Sort_idempotent_witness :
  Keys (Sort (Sort bac descending) descending) = ["c"; "b"; "a"].
Proof.
  assert (Hlen : length (Keys bac) ≤ 12) by (vm_compute; lia).
  rewrite (Sort_idempotent bac descending Hlen descending_swo). reflexivity.
Defined.

Section ByPairSlots.
Import GoSort.
Context {A : Type}.
Implicit Types (data : list A).

(** X6: [ByPair.Swap] exchanges two slots of the slice and touches no other;
    swapping the same two slots again restores the slice. *)
Theorem Swap_exchanges data i j :
  i < length data → j < length data →
  Swap i j data !! i = data !! j ∧
  Swap i j data !! j = data !! i ∧
  (∀ n, n ≠ i → n ≠ j → Swap i j data !! n = data !! n) ∧
  Swap i j (Swap i j data) = data.
Proof.
  intros Hi Hj.
  destruct (lookup_lt_is_Some_2 data i Hi) as [x Hx].
  destruct (lookup_lt_is_Some_2 data j Hj) as [y Hy].
  assert (Hsw : Swap i j data = <[i := y]> (<[j := x]> data)).
  { unfold Swap. by rewrite Hx, Hy. }
  assert (H1 : Swap i j data !! i = Some y).
  { rewrite Hsw. apply list_lookup_insert_eq. by rewrite length_insert. }
  assert (H2 : Swap i j data !! j = Some x).
  { rewrite Hsw. destruct (decide (i = j)) as [->|Hne].
    - rewrite list_lookup_insert_eq by (by rewrite length_insert). congruence.
    - rewrite list_lookup_insert_ne by done. by apply list_lookup_insert_eq. }
  assert (H3 : ∀ n, n ≠ i → n ≠ j → Swap i j data !! n = data !! n).
  { intros n Hni Hnj. rewrite Hsw. by rewrite !list_lookup_insert_ne. }
  split_and!; [congruence|congruence|done|].
  apply list_eq. intros n. unfold Swap at 1. rewrite H1, H2.
  destruct (decide (n = i)) as [->|Hni].
  - rewrite list_lookup_insert_eq; [done|]. by rewrite length_insert, GoSortFacts.Swap_length.
  - rewrite list_lookup_insert_ne by done.
    destruct (decide (n = j)) as [->|Hnj].
    + rewrite list_lookup_insert_eq; [done|]. by rewrite GoSortFacts.Swap_length.
    + rewrite list_lookup_insert_ne by done. by apply H3.
Qed.

End ByPairSlots.

Lemma Swap_exchanges_witness :
  GoSort.Swap 0 2 (GoSort.Swap 0 2 (pairs_of bac)) = pairs_of bac.
Proof.
  apply (Swap_exchanges (pairs_of bac) 0 2); vm_compute; lia.
Defined.

(** ** More on UnmarshalJSON and the two decoding loops *)

Section DecoderExtras.
Import GoJson.
Implicit Types (o : OrderedMap any) (b : string) (ms : list (string * json)).

Lemma last_value_None k ms : last_value k ms = None ↔ k ∉ ms.*1.
Proof.
  induction ms as [|[k' v] ms IH]; simpl.
  - split; [intros _; apply not_elem_of_nil|done].
  - rewrite not_elem_of_cons, <- IH. destruct (last_value k ms); [naive_solver|].
    case_decide; naive_solver.
Qed.

Lemma merged_lookup ms (m : gmap string any) k :
  merged m ms !! k =
  match last_value k ms with
  | Some v => Some (to_any v)
  | None => m !! k
  end.
Proof.
  revert m. induction ms as [|[k' v] ms IH]; intros m; simpl; [done|].
  unfold merged in *. simpl. rewrite IH.
  destruct (last_value k ms); [done|].
  case_decide as Hk.
  - subst. by rewrite lookup_insert_eq.
  - by rewrite lookup_insert_ne.
Qed.

Lemma merged_merged ms (m : gmap string any) : merged (merged m ms) ms = merged m ms.
Proof.
  apply map_eq. intros k. rewrite !merged_lookup.
  by destruct (last_value k ms).
Qed.

(** X7: [UnmarshalJSON] returns on every text and every container: no token of
    a text that [json.Unmarshal] accepts makes the key assertion panic, and
    the loops end.  The flag [escapeHTML] is never changed. *)
Theorem UnmarshalJSON_always_returns o b :
  ∃ err o', UnmarshalJSON o b = Ret (err, o') ∧ escapeHTML o' = escapeHTML o.
Proof.
  destruct (UnmarshalJSON_cases o b) as [[e ->]|[->|[ms ->]]]; by do 2 eexists.
Qed.

(** X8: A well-formed text that is no object is refused: an array, a string, a
    number or a boolean is a type error that leaves the container as it
    was; [null] ends in [EOF] and leaves a container without keys and
    without entries. *)
Theorem only_an_object_is_decoded o b j :
  parse b = Some j → (∀ ms, j ≠ JObj ms) →
  (j = JNull →
   UnmarshalJSON o b =
   Ret (Some EOF, {| keys := []; values := ∅; escapeHTML := escapeHTML o |})) ∧
  (j ≠ JNull → UnmarshalJSON o b = Ret (Some UnmarshalTypeError, o)).
Proof.
  intros Hp Hobj. split.
  - intros ->. by apply UnmarshalJSON_null.
  - intros Hnull. by eapply UnmarshalJSON_type_error.
Qed.

(** X9: Of the members that share a key the last one gives the value; a key
    outside the text keeps the value it had. *)
Theorem last_member_gives_the_value o b ms o' k :
  parse b = Some (JObj ms) → UnmarshalJSON o b = Ret (None, o') →
  Get o' k = match last_value k ms with
             | Some v => (to_any v, true)
             | None => Get o k
             end.
Proof.
  intros Hp Hrun. rewrite (UnmarshalJSON_object o b ms Hp) in Hrun.
  injection Hrun as <-. unfold Get. simpl. rewrite merged_lookup.
  by destruct (last_value k ms).
Qed.

(** X10: Decoding the same text a second time changes nothing. *)
Theorem UnmarshalJSON_twice o b o' :
  UnmarshalJSON o b = Ret (None, o') → UnmarshalJSON o' b = Ret (None, o').
Proof.
  intros Hrun. destruct (parse b) as [j|] eqn:Hp.
  2:{ by rewrite (UnmarshalJSON_syntax_error o b Hp) in Hrun. }
  destruct j as [|x|lit|s|vs|ms];
    try (by rewrite (UnmarshalJSON_type_error o b _ Hp) in Hrun).
  { by rewrite (UnmarshalJSON_null o b Hp) in Hrun. }
  rewrite (UnmarshalJSON_object o b ms Hp) in Hrun. injection Hrun as <-.
  rewrite (UnmarshalJSON_object _ b ms Hp). simpl. by rewrite merged_merged.
Qed.

(** X11: [decodeSlice] reads the elements of an array, with all that is nested
    in them, up to the closing bracket and leaves the rest of the stream;
    [decodeOrderedMap] does the same for the members of an object up to
    the closing brace, and the keys of nested objects do not reach the
    order of the container: it is built from the member keys of the object
    alone. *)
Theorem nested_values_are_skipped :
  (∀ vs index rest,
     decodeSlice_loop (S (length (elems_tokens vs)))
       (elems_tokens vs ++ Delim "]" :: rest) index = Ret (None, rest)) ∧
  (∀ ms rest,
     decodeOrderedMap (S (length (members_tokens ms)))
       (members_tokens ms ++ Delim "}" :: rest) zero_OrderedMap =
     Ret (None, rest, set_keys (last_occurrence_order ms.*1) zero_OrderedMap)).
Proof.
  split.
  - intros vs index rest.
    destruct (decode_loops (S (length (elems_tokens vs)))) as [_ He].
    apply He. lia.
  - intros ms rest.
    destruct (decode_loops (S (length (members_tokens ms)))) as [Hm _].
    unfold decodeOrderedMap. rewrite Hm; [done|lia|].
    split; [constructor|done].
Qed.

End DecoderExtras.

Lemma only_an_object_is_decoded_witness :
  UnmarshalJSON bac_any (q "[1, 2]") = Ret (Some GoJson.UnmarshalTypeError, bac_any).
Proof.
  assert (Hp : GoJson.parse (q "[1, 2]")
               = Some (GoJson.JArr [GoJson.JNum "1"; GoJson.JNum "2"])) by (by vm_compute).
  exact (proj2 (only_an_object_is_decoded bac_any _ _ Hp ltac:(done)) ltac:(done)).
Defined.

Lemma last_member_gives_the_value_witness :
  ∃ o', UnmarshalJSON bac_any (q "{'a':true,'z':1,'a':null}") = Ret (None, o') ∧
        Get o' "a" = (GoJson.ANil, true) ∧ Get o' "b" = (GoJson.ANum "2", true).
Proof.
  destruct (UnmarshalJSON bac_any (q "{'a':true,'z':1,'a':null}"))
    as [[[e|] o']| |] eqn:Hrun; try (by vm_compute in Hrun).
  assert (Hp : GoJson.parse (q "{'a':true,'z':1,'a':null}")
               = Some (GoJson.JObj [("a", GoJson.JBool true); ("z", GoJson.JNum "1");
                                    ("a", GoJson.JNull)])) by (by vm_compute).
  exists o'. split; [done|].
  split; rewrite (last_member_gives_the_value bac_any _ _ o' _ Hp Hrun); reflexivity.
Defined.

Lemma UnmarshalJSON_twice_witness :
  ∃ o', UnmarshalJSON bac_any (q "{'a':true,'z':1}") = Ret (None, o') ∧
        UnmarshalJSON o' (q "{'a':true,'z':1}") = Ret (None, o').
Proof.
  destruct (UnmarshalJSON bac_any (q "{'a':true,'z':1}"))
    as [[[e|] o']| |] eqn:Hrun; try (by vm_compute in Hrun).
  exists o'. split; [done|]. by apply (UnmarshalJSON_twice bac_any).
Defined.

(** ** The encoder *)

#[local] Arguments GoJson.Encode_string : simpl never.
#[local] Arguments GoJson.join : simpl never.

Section Strings.

Lemma sapp_cons (x : ascii) (a b : string) : String x a +:+ b = String x (a +:+ b).
Proof. reflexivity. Qed.

Lemma sapp_nil_l (a : string) : EmptyString +:+ a = a.
Proof. reflexivity. Qed.

Lemma sapp_assoc (a b c : string) : (a +:+ b) +:+ c = a +:+ (b +:+ c).
Proof. induction a as [|x a IH]; [done|]. rewrite !sapp_cons. by f_equal. Qed.

Lemma sapp_nil_r (a : string) : a +:+ EmptyString = a.
Proof. induction a as [|x a IH]; [done|]. rewrite sapp_cons. by f_equal. Qed.

Lemma sapp_length (a b : string) :
  String.length (a +:+ b) = String.length a + String.length b.
Proof. induction a as [|x a IH]; [done|]. rewrite sapp_cons. simpl. by f_equal. Qed.

End Strings.

Section EncoderShape.
Import GoJson.
Implicit Types (o : OrderedMap any) (ks : list string) (buf : string).

Lemma join_cons sep m (members : list string) :
  join sep (m :: members) = m +:+ foldr (λ m acc, sep +:+ m +:+ acc) EmptyString members.
Proof.
  revert m. induction members as [|m' members IH]; intros m.
  - cbn. by rewrite sapp_nil_r.
  - change (join sep (m :: m' :: members)) with (m +:+ sep +:+ join sep (m' :: members)).
    by rewrite IH.
Qed.

Lemma MarshalJSON_loop_members esc enc ks i buf :
  MarshalJSON_loop esc enc i ks buf =
  members ← mapM (λ k, text ← enc k; Some (Encode_string esc k +:+ ":" +:+ text)) ks;
  Some (buf +:+ (if 0 <? i
                 then foldr (λ m acc, "," +:+ m +:+ acc) EmptyString members
                 else join "," members)).
Proof.
  revert i buf. induction ks as [|k ks IH]; intros i buf; simpl.
  - destruct (0 <? i); simpl; by rewrite sapp_nil_r.
  - destruct (enc k) as [text|]; simpl; [|done].
    rewrite IH. simpl.
    destruct (mapM _ ks) as [members|]; simpl; [|done].
    f_equal. destruct (0 <? i).
    + simpl. by rewrite !sapp_assoc.
    + rewrite join_cons. by rewrite !sapp_assoc.
Qed.

Lemma MarshalJSON_members o :
  MarshalJSON o =
    (members ← mapM (member_text o) (Keys o);
     Some ("{" +:+ join "," members +:+ "}")).
Proof.
  unfold MarshalJSON, MarshalJSON_text. rewrite MarshalJSON_loop_members.
  unfold member_text, Keys. destruct (mapM _ (keys o)); simpl; [|done].
  by rewrite sapp_assoc.
Qed.

(** X12: [MarshalJSON] writes an opening brace, the members in the key order
    with a comma between two of them and none at the end, and a closing
    brace; it fails when the value of a key of the order cannot be
    encoded, and only then.  Without keys the text is the two bytes
    of the empty object. *)
Theorem MarshalJSON_writes_members_in_key_order o :
  MarshalJSON o =
    (members ← mapM (member_text o) (Keys o);
     Some ("{" +:+ join "," members +:+ "}")) ∧
  (is_Some (MarshalJSON o) ↔
   ∀ k, k ∈ Keys o → is_Some (marshal (escapeHTML o) (default zero (values o !! k)))) ∧
  (Keys o = [] → MarshalJSON o = Some "{}").
Proof.
  pose proof (MarshalJSON_members o) as Hform.
  split_and!; [done| |].
  - rewrite Hform. unfold Keys.
    split.
    + intros [text Htext] k Hk.
      destruct (mapM (member_text o) (keys o)) as [members|] eqn:Hm; [|done].
      assert (is_Some (mapM (member_text o) (keys o))) as Hall by (by eexists).
      apply mapM_is_Some in Hall. rewrite Forall_forall in Hall.
      specialize (Hall k Hk). destruct Hall as [t Ht]. simpl in Ht.
      unfold member_text, Encode in Ht.
      destruct (marshal _ _); [by eexists|done].
    + intros Hall.
      assert (is_Some (mapM (member_text o) (keys o))) as [members ->].
      { apply mapM_is_Some, Forall_forall. intros k Hk.
        destruct (Hall k Hk) as [t Ht]. simpl. unfold member_text, Encode.
        rewrite Ht. by eexists. }
      by eexists.
  - intros Hk. rewrite Hform, Hk. done.
Qed.

(** X13: The text depends on the key order, the flag and the values of the keys
    of the order only: an entry of the mapping whose key is not in the
    order is not written and cannot make the call fail. *)
Theorem MarshalJSON_ignores_unlisted_entries o o' :
  Keys o = Keys o' → escapeHTML o = escapeHTML o' →
  (∀ k, k ∈ Keys o → values o !! k = values o' !! k) →
  MarshalJSON o = MarshalJSON o'.
Proof.
  intros Hk He Hv.
  rewrite (MarshalJSON_members o), (MarshalJSON_members o').
  rewrite <- Hk.
  rewrite (Forall_mapM_ext (member_text o) (member_text o')); [done|].
  apply Forall_forall. intros k Hin. unfold member_text.
  by rewrite He, (Hv k Hin).
Qed.

End EncoderShape.

Lemma MarshalJSON_ignores_unlisted_entries_witness :
  MarshalJSON (apply_ops New [OpSet "a" (GoJson.ANum "NaN"); OpUnmarshalJSON (q "{'b':2}")])
  = MarshalJSON (apply_ops New [OpUnmarshalJSON (q "{'b':2}")]).
Proof.
  apply MarshalJSON_ignores_unlisted_entries; [by vm_compute|by vm_compute|].
  intros k Hk. vm_compute in Hk. apply list_elem_of_singleton in Hk as ->.
  by vm_compute.
Defined.

(** *** The equations of [marshal] *)

Section MarshalEquations.
Import GoJson.

Lemma marshal_ASlice esc elems :
  marshal esc (ASlice elems) =
  texts ← mapM (marshal esc) elems; Some ("[" +:+ join "," texts +:+ "]").
Proof.
  cbn [marshal]. f_equal.
Qed.

Lemma marshal_AMap esc entries :
  marshal esc (AMap entries) =
  texts ← mapM (marshal_entry esc) entries;
  Some ("{" +:+ join "," (entry_text esc <$> sort_entries texts) +:+ "}").
Proof.
  cbn [marshal]. f_equal. induction entries as [|[k x] entries IH]; [done|].
  cbn [mapM]. rewrite <- IH. unfold marshal_entry at 1. simpl.
  by destruct (marshal esc x).
Qed.

Lemma marshal_AOMap esc ks entries e :
  marshal esc (AOMap ks entries e) =
  body ← MarshalJSON_text e
            (λ k, text ← default (Some "null")
                           (amap_lookup k ((λ kv, (kv.1, marshal e kv.2)) <$> entries));
                  Some (text +:+ newline)) ks;
  Some (compact esc body).
Proof.
  cbn [marshal].
  replace ((fix go (l : list (string * any)) : list (string * option string) :=
              match l with
              | [] => []
              | (k, x) :: l' => (k, marshal e x) :: go l'
              end) entries)
    with ((λ kv : string * any, (kv.1, marshal e kv.2)) <$> entries); [done|].
  induction entries as [|[k x] entries IH]; [done|].
  rewrite fmap_cons. cbn [fst snd]. f_equal. exact IH.
Qed.

End MarshalEquations.

(** *** With the flag set no [<], [>] or [&] is written *)

Section HtmlFree.
Import GoJson.

Lemma html_free_app a b : html_free (a +:+ b) = html_free a && html_free b.
Proof.
  induction a as [|x a IH]; [done|]. rewrite sapp_cons. simpl.
  by rewrite IH, andb_assoc.
Qed.

Lemma is_char_eq c d : is_char c d = true → c = d.
Proof. apply Ascii.eqb_eq. Qed.

Lemma is_html_low c : is_html c = true → (code c < 128)%N.
Proof.
  unfold is_html. intros Hc.
  apply orb_prop in Hc as [Hc|Hc]; [apply orb_prop in Hc as [Hc|Hc]|];
    apply is_char_eq in Hc; subst; by vm_compute.
Qed.

Lemma high_not_html c : (128 ≤ code c)%N → is_html c = false.
Proof.
  intros Hc. destruct (is_html c) eqn:Hh; [|done].
  apply is_html_low in Hh. lia.
Qed.

Lemma code_byte_of n : (n < 256)%N → code (byte_of n) = n.
Proof. intros Hn. unfold code, byte_of. by apply N_ascii_embedding. Qed.

Lemma digit_not_html c : is_digit c = true → is_html c = false.
Proof.
  unfold is_digit. intros Hd. apply andb_prop in Hd as [H1 H2].
  apply N.leb_le in H1, H2. destruct (is_html c) eqn:Hh; [|done].
  unfold is_html in Hh.
  apply orb_prop in Hh as [Hh|Hh]; [apply orb_prop in Hh as [Hh|Hh]|];
    apply is_char_eq in Hh; subst; vm_compute in H1, H2; done.
Qed.

Lemma hex_not_html n : (n < 16)%N → is_html (hex n) = false.
Proof.
  intros Hn.
  assert (Hcases : n ∈ [0; 1; 2; 3; 4; 5; 6; 7; 8; 9; 10; 11; 12; 13; 14; 15]%N).
  { assert (∃ m, n = N.of_nat m ∧ m < 16) as (m & -> & Hm).
    { exists (N.to_nat n). lia. }
    do 16 (destruct m as [|m]; [set_solver|]). lia. }
  repeat (apply elem_of_cons in Hcases as [->|Hcases]; [done|]).
  by apply elem_of_nil in Hcases.
Qed.

Lemma code_bound c : (code c < 256)%N.
Proof. apply N_ascii_bounded. Qed.

Lemma u00_html_free c : html_free (u00 c) = true.
Proof.
  unfold u00. rewrite html_free_app. simpl.
  pose proof (code_bound c).
  rewrite !hex_not_html; [done| |].
  - apply N.mod_lt. done.
  - apply N.Div0.div_lt_upper_bound. lia.
Qed.

Lemma escape_byte_html_free c : html_free (escape_byte c) = true.
Proof.
  unfold escape_byte.
  destruct (is_char c "\" || is_char c quote) eqn:Hq.
  - apply orb_prop in Hq as [Hq|Hq]; apply is_char_eq in Hq; subst; done.
  - repeat (case_match; [done|]). apply u00_html_free.
Qed.

Lemma safe_not_html c : safe true c = true → is_html c = false.
Proof.
  unfold safe. intros Hs. apply andb_prop in Hs as [_ Hs].
  by apply negb_true_iff in Hs.
Qed.

Lemma cont_not_html c : cont c = true → is_html c = false.
Proof.
  unfold cont. intros Hc. apply andb_prop in Hc as [Hc _].
  apply N.leb_le in Hc. by apply high_not_html.
Qed.

Lemma range_not_html (lo hi : N) c :
  ((lo <=? code c) && (code c <=? hi))%N = true → (128 ≤ lo)%N → is_html c = false.
Proof.
  intros Hr Hlo. apply andb_prop in Hr as [Hr _]. apply N.leb_le in Hr.
  apply high_not_html. lia.
Qed.

(** A rune of several bytes is copied only when [utf8.DecodeRune] accepts
    it, and then its bytes are all above 0x7f. *)
Lemma copied_rune_html_free c s r size :
  (128 ≤ code c)%N → DecodeRune c s = (r, size) →
  (r =? RuneError)%N && (size =? 1) = false →
  html_free (stake size (String c s)) = true.
Proof.
  intros Hc Hd Hvalid. pose proof (high_not_html c Hc) as Hh.
  assert (Hbad : (RuneError, 1) = (r, size) → html_free (stake size (String c s)) = true).
  { intros [= <- <-]. done. }
  unfold DecodeRune in Hd.
  destruct (code c <? 128)%N eqn:Hlow; [apply N.ltb_lt in Hlow; lia|].
  destruct ((194 <=? code c) && (code c <=? 223))%N.
  { destruct s as [|c1 s1]; [by apply Hbad|].
    destruct (cont c1) eqn:H1; [|by apply Hbad].
    injection Hd as <- <-. simpl. by rewrite Hh, (cont_not_html c1 H1). }
  destruct ((224 <=? code c) && (code c <=? 239))%N.
  { destruct s as [|c1 [|c2 s2]]; [by apply Hbad..|].
    match type of Hd with (if ?b then _ else _) = _ => destruct b eqn:Hb end;
      [|by apply Hbad].
    apply andb_prop in Hb as [Hb1 Hb2].
    injection Hd as <- <-. simpl. rewrite Hh, (cont_not_html c2 Hb2).
    rewrite (range_not_html _ _ c1 Hb1); [done|]. case_match; lia. }
  destruct ((240 <=? code c) && (code c <=? 244))%N.
  { destruct s as [|c1 [|c2 [|c3 s3]]]; [by apply Hbad..|].
    match type of Hd with (if ?b then _ else _) = _ => destruct b eqn:Hb end;
      [|by apply Hbad].
    apply andb_prop in Hb as [Hb Hb3]. apply andb_prop in Hb as [Hb1 Hb2].
    injection Hd as <- <-. simpl.
    rewrite Hh, (cont_not_html c2 Hb2), (cont_not_html c3 Hb3).
    rewrite (range_not_html _ _ c1 Hb1); [done|]. case_match; lia. }
  by apply Hbad.
Qed.

Lemma appendString_loop_html_free fuel s :
  html_free (appendString_loop fuel true s) = true.
Proof.
  revert s. induction fuel as [|fuel IH]; intros s; [done|].
  destruct s as [|c s]; [done|]. cbn [appendString_loop].
  destruct (code c <? 128)%N eqn:Hlow.
  - rewrite html_free_app, IH, andb_true_r.
    destruct (safe true c) eqn:Hs.
    + simpl. by rewrite (safe_not_html c Hs).
    + apply escape_byte_html_free.
  - apply N.ltb_ge in Hlow.
    destruct (DecodeRune c s) as [r size] eqn:Hd.
    destruct ((r =? RuneError)%N && (size =? 1)) eqn:Hbad.
    + by rewrite html_free_app, IH.
    + destruct ((r =? 8232)%N || (r =? 8233)%N).
      * rewrite !html_free_app, IH. simpl.
        rewrite hex_not_html; [done|]. by apply N.mod_lt.
      * rewrite html_free_app, IH, andb_true_r.
        by apply (copied_rune_html_free c s r size).
Qed.

Lemma appendString_html_free s : html_free (appendString true s) = true.
Proof.
  unfold appendString. simpl. rewrite html_free_app, appendString_loop_html_free. done.
Qed.

Lemma num_step_not_html st c st' : num_step st c = Some st' → is_html c = false.
Proof.
  intros Hst. destruct (is_html c) eqn:Hh; [|done]. exfalso.
  unfold is_html in Hh.
  apply orb_prop in Hh as [Hh|Hh]; [apply orb_prop in Hh as [Hh|Hh]|];
    apply is_char_eq in Hh; subst; by destruct st.
Qed.

Lemma scan_number_html_free st s lit rest :
  scan_number st s = Some (lit, rest) → html_free lit = true.
Proof.
  revert st lit. induction s as [|c s IH]; intros st lit; simpl.
  - destruct (num_final st); [|done]. by intros [= <- <-].
  - destruct (num_step st c) as [st'|] eqn:Hst.
    + destruct (scan_number st' s) as [[lit' rest']|] eqn:Hs; [|done].
      intros [= <- <-]. simpl.
      by rewrite (num_step_not_html _ _ _ Hst), (IH _ _ Hs).
    + destruct (num_final st); [|done]. by intros [= <- <-].
Qed.

Lemma compact_html_free s in_string escaped :
  html_free (compact_loop true in_string escaped s) = true.
Proof.
  remember (String.length s) as n eqn:Hn.
  assert (Hle : String.length s ≤ n) by lia. clear Hn.
  revert s in_string escaped Hle.
  induction n as [|n IH]; intros s in_string escaped Hle.
  { destruct s; [done|simpl in Hle; lia]. }
  destruct s as [|c s]; [done|]. simpl in Hle. cbn [compact_loop].
  destruct (true && is_html c) eqn:Hh.
  { rewrite html_free_app, u00_html_free, IH by lia. done. }
  simpl in Hh.
  match goal with |- context [if ?b then _ else _] => destruct b eqn:Hsep end.
  { destruct s as [|c1 [|c2 s3]]; [done|done|]. simpl in Hle.
    rewrite !html_free_app, IH by lia. simpl.
    rewrite hex_not_html; [done|]. by apply N.mod_lt. }
  destruct (negb in_string && is_space c).
  - apply IH. lia.
  - simpl. rewrite Hh, IH by lia. done.
Qed.

Lemma join_html_free (texts : list string) :
  Forall (λ t, html_free t = true) texts → html_free (join "," texts) = true.
Proof.
  induction 1 as [|t texts Ht Hts IH]; [done|].
  rewrite join_cons, html_free_app, Ht. simpl.
  clear IH. induction Hts as [|t' texts Ht' Hts IH]; [done|].
  cbn [foldr]. by rewrite !html_free_app, Ht', IH.
Qed.

Lemma sort_entries_Forall {V} (P : string * V → Prop) (l : list (string * V)) :
  Forall P l → Forall P (sort_entries l).
Proof.
  unfold sort_entries. induction 1 as [|e l He Hl IH]; simpl; [constructor|].
  induction IH as [|e' acc He' Hacc IHacc]; simpl.
  - by repeat constructor.
  - destruct (String.ltb e'.1 e.1); by repeat constructor.
Qed.

Lemma any_ind_nested (P : any → Prop) :
  P ANil → (∀ b, P (ABool b)) → (∀ lit, P (ANum lit)) → (∀ s, P (AStr s)) →
  (∀ elems, Forall P elems → P (ASlice elems)) →
  (∀ entries, Forall (λ kv, P kv.2) entries → P (AMap entries)) →
  (∀ ks entries esc, Forall (λ kv, P kv.2) entries → P (AOMap ks entries esc)) →
  ∀ v, P v.
Proof.
  intros Hnil Hbool Hnum Hstr Hslice Hmap Homap.
  fix IH 1. intros [|b|lit|s|elems|entries|ks entries esc].
  - exact Hnil.
  - apply Hbool.
  - apply Hnum.
  - apply Hstr.
  - apply Hslice. induction elems as [|x elems IHl]; constructor; [apply IH|exact IHl].
  - apply Hmap. induction entries as [|[k x] entries IHl]; constructor;
      [apply IH|exact IHl].
  - apply Homap. induction entries as [|[k x] entries IHl]; constructor;
      [apply IH|exact IHl].
Qed.

Lemma marshal_html_free v text :
  marshal true v = Some text → html_free text = true.
Proof.
  revert text. induction v as [|b|lit|s|elems IH|entries IH|ks entries e IH]
    using any_ind_nested; intros text.
  - by intros [= <-].
  - destruct b; by intros [= <-].
  - cbn [marshal]. unfold isValidNumber. case_bool_decide as Hv; [|done].
    intros [= <-]. by eapply scan_number_html_free.
  - intros [= <-]. apply appendString_html_free.
  - rewrite marshal_ASlice. destruct (mapM _ elems) as [texts|] eqn:Hm; [|done].
    intros [= <-]. rewrite !html_free_app. simpl. rewrite andb_true_r.
    apply join_html_free. apply mapM_Some_1 in Hm.
    clear -IH Hm. induction Hm as [|x t elems texts Hx Hm IHm]; [constructor|].
    inversion IH as [|?? Hx' IH']; subst. constructor; [by apply Hx'|by apply IHm].
  - rewrite marshal_AMap. destruct (mapM _ entries) as [texts|] eqn:Hm; [|done].
    intros [= <-]. rewrite !html_free_app. simpl. rewrite andb_true_r.
    apply join_html_free. apply Forall_fmap.
    apply (sort_entries_Forall (λ kt, html_free (entry_text true kt) = true)).
    apply mapM_Some_1 in Hm.
    clear -IH Hm. induction Hm as [|[k x] [k' t] entries texts Hx Hm IHm]; [constructor|].
    inversion IH as [|?? Hx' IH']; subst. constructor; [|by apply IHm].
    unfold marshal_entry in Hx. simpl in Hx.
    destruct (marshal true x) as [t'|] eqn:Ht; [|done]. injection Hx as <- <-.
    unfold entry_text. cbn [fst snd].
    rewrite !html_free_app, appendString_html_free. cbn [fst snd] in Hx'.
    rewrite (Hx' _ Ht). done.
  - rewrite marshal_AOMap. destruct (MarshalJSON_text _ _ _) as [body|]; [|done].
    intros [= <-]. apply compact_html_free.
Qed.

Lemma MarshalJSON_html_free (o : OrderedMap any) text :
  escapeHTML o = true → MarshalJSON o = Some text → html_free text = true.
Proof.
  intros He. rewrite (MarshalJSON_members o).
  destruct (mapM (member_text o) (Keys o)) as [members|] eqn:Hm; [|done].
  intros [= <-]. rewrite !html_free_app. simpl. rewrite andb_true_r.
  apply join_html_free. apply mapM_Some_1 in Hm.
  induction Hm as [|k m ks members Hk Hm IHm]; [constructor|].
  constructor; [|done].
  unfold member_text, Encode, Encode_string in Hk. rewrite He in Hk.
  destruct (marshal true _) as [t|] eqn:Ht; [|done]. injection Hk as <-.
  rewrite !html_free_app, appendString_html_free.
  by rewrite (marshal_html_free _ _ Ht).
Qed.

(** X14: With [escapeHTML] set, the text [MarshalJSON] returns holds none of the
    bytes [<], [>] and [&], whatever the keys and however deep the values
    are nested, nested ordered maps with their own flag included. *)
Theorem MarshalJSON_escapes_html (o : OrderedMap any) text :
  escapeHTML o = true → MarshalJSON o = Some text → html_free text = true.
Proof. apply MarshalJSON_html_free. Qed.

End HtmlFree.

Lemma MarshalJSON_escapes_html_witness :
  ∃ text, MarshalJSON html_example = Some text ∧ html_free text = true.
Proof.
  destruct (MarshalJSON html_example) as [text|] eqn:Hm; [|by vm_compute in Hm].
  exists text. split; [done|].
  by apply (MarshalJSON_escapes_html html_example text).
Defined.

(** *** Nested ordered maps and strings under a cleared flag *)

Section NestedAndVerbatim.
Import GoJson.

Lemma amap_lookup_fmap {V W} (f : V → W) k (l : list (string * V)) :
  amap_lookup k ((λ kv, (kv.1, f kv.2)) <$> l) = f <$> amap_lookup k l.
Proof.
  induction l as [|[k' v] l IH]; [done|]. rewrite fmap_cons. simpl.
  by destruct (String.eqb k k').
Qed.

Lemma amap_lookup_map_to_list (m : gmap string any) k :
  amap_lookup k (map_to_list m) = m !! k.
Proof.
  pose proof (NoDup_fst_map_to_list m) as Hnd.
  assert (Hgen : ∀ l : list (string * any), NoDup l.*1 →
            (∀ v, amap_lookup k l = Some v ↔ (k, v) ∈ l)).
  { induction l as [|[k' v'] l IH]; intros Hl v; simpl.
    - split; [done|]. by intros ?%elem_of_nil.
    - simpl in Hl. apply NoDup_cons in Hl as [Hk' Hl].
      destruct (String.eqb_spec k k') as [->|Hne].
      + split.
        * intros [= ->]. by left.
        * intros [[= ->]|Hin]%elem_of_cons; [done|].
          exfalso. apply Hk'. apply list_elem_of_fmap. by exists (k', v).
      + rewrite (IH Hl). split.
        * intros Hin. by right.
        * intros [[= -> ->]|Hin]%elem_of_cons; done. }
  apply option_eq. intros v. rewrite (Hgen _ Hnd). apply elem_of_map_to_list.
Qed.

Lemma marshal_nested (o : OrderedMap any) (esc : bool) :
  marshal esc (nested o) = compact esc <$> MarshalJSON o.
Proof.
  unfold nested. rewrite marshal_AOMap. unfold MarshalJSON.
  assert (Henc : ∀ k,
    (text ← default (Some "null")
              (amap_lookup k ((λ kv, (kv.1, marshal (escapeHTML o) kv.2))
                              <$> map_to_list (values o)));
     Some (text +:+ newline))
    = Encode (escapeHTML o) (default zero (values o !! k))).
  { intros k. rewrite amap_lookup_fmap, amap_lookup_map_to_list.
    unfold Encode. by destruct (values o !! k). }
  unfold MarshalJSON_text. rewrite !MarshalJSON_loop_members.
  rewrite (mapM_ext _ (λ k, text ← Encode (escapeHTML o) (default zero (values o !! k));
                            Some (Encode_string (escapeHTML o) k +:+ ":" +:+ text))).
  2:{ intros k. by rewrite Henc. }
  by destruct (mapM _ (keys o)).
Qed.


Lemma appendString_loop_plain fuel s :
  plain_ascii s → String.length s ≤ fuel → appendString_loop fuel false s = s.
Proof.
  revert s. induction fuel as [|fuel IH]; intros s Hs Hlen.
  { destruct s; [done|simpl in Hlen; lia]. }
  destruct s as [|c s]; [done|]. unfold plain_ascii in Hs. simpl in Hs, Hlen.
  apply Forall_cons in Hs as [[Hsafe Hlow] Hs].
  cbn [appendString_loop]. apply N.ltb_lt in Hlow. rewrite Hlow, Hsafe.
  rewrite sapp_cons, sapp_nil_l. f_equal. apply IH; [done|lia].
Qed.

(** X16: With the flag cleared, a string value of printable ASCII bytes without
    quote and backslash is written between two quotes as it is, its [<],
    [>] and [&] included. *)
Theorem cleared_flag_writes_strings_verbatim (o : OrderedMap any) k s :
  escapeHTML o = false → values o !! k = Some (AStr s) → plain_ascii s →
  member_text o k =
  Some (Encode_string false k +:+ ":" +:+
        String quote (s +:+ String quote EmptyString) +:+ newline).
Proof.
  intros He Hk Hs. unfold member_text, Encode. rewrite He, Hk. simpl.
  unfold appendString. by rewrite appendString_loop_plain.
Qed.

End NestedAndVerbatim.

Lemma cleared_flag_writes_strings_verbatim_witness :
  member_text (SetEscapeHTML (Set_ New "k" (GoJson.AStr "a<b>&c")) false) "k" =
  Some (GoJson.Encode_string false "k" +:+ ":" +:+
        String GoJson.quote ("a<b>&c" +:+ String GoJson.quote EmptyString)
        +:+ GoJson.newline).
Proof.
  apply cleared_flag_writes_strings_verbatim; [done|by vm_compute|].
  unfold plain_ascii. simpl. repeat constructor.
Defined.

Section NestedKeepsItsEscapes.
Import GoJson.

Lemma compact_keeps_html_free s in_string escaped :
  html_free s = true → html_free (compact_loop false in_string escaped s) = true.
Proof.
  revert in_string escaped. induction s as [|c s IH]; intros in_string escaped; [done|].
  cbn [html_free]. intros Hs. apply andb_prop in Hs as [Hc Hs].
  cbn [compact_loop andb].
  match goal with
  | |- context [if ?m then _ else _] =>
      assert (m = false) as -> by (by destruct s as [|? [|? ?]])
  end.
  destruct (negb in_string && is_space c).
  - by apply IH.
  - cbn [html_free]. rewrite Hc. by apply IH.
Qed.

(** X17: A container whose flag is cleared does not undo the escapes of a nested
    ordered map whose own flag is set: the text written for the nested map
    holds no [<], [>] or [&]. *)
Theorem nested_flag_is_not_suppressed (inner : OrderedMap any) text :
  escapeHTML inner = true → marshal false (nested inner) = Some text →
  html_free text = true.
Proof.
  intros He. rewrite marshal_nested.
  destruct (MarshalJSON inner) as [body|] eqn:Hb; [|done].
  intros [= <-]. apply compact_keeps_html_free.
  by apply (MarshalJSON_html_free inner).
Qed.

End NestedKeepsItsEscapes.

Lemma nested_flag_is_not_suppressed_witness :
  ∃ text, GoJson.marshal false (nested (Set_ New "k" (GoJson.AStr "<&>"))) = Some text ∧
          html_free text = true.
Proof.
  destruct (GoJson.marshal false (nested (Set_ New "k" (GoJson.AStr "<&>"))))
    as [text|] eqn:Hm; [|by vm_compute in Hm].
  exists text. split; [done|].
  by apply (nested_flag_is_not_suppressed (Set_ New "k" (GoJson.AStr "<&>"))).
Defined.

(** ** Instances of the statements above *)

Lemma Delete_undoes_Set_witness :
  Delete (Set_ bac "z" 26%Z) "z" = bac.
Proof.
  apply Delete_undoes_Set; [decide_by_computation|by vm_compute].
Defined.

Lemma Delete_idempotent_commutes_witness :
  Delete (Delete bac "a") "c" = Delete (Delete bac "c") "a".
Proof.
  apply (proj2 (Delete_idempotent_commutes bac "a" "c")). decide_by_computation.
Defined.

Lemma Keys_counts_entries_witness :
  length (Keys bac) = size (values bac).
Proof.
  assert (Hc : consistent bac) by decide_by_computation.
  exact (proj1 (Keys_counts_entries bac "a" 0%Z Hc)).
Defined.

Lemma MarshalJSON_writes_members_in_key_order_witness :
  MarshalJSON (Delete bac_any "x") = MarshalJSON bac_any ∧
  MarshalJSON (Delete (Delete (Delete bac_any "a") "b") "c") = Some "{}".
Proof.
  split; [by vm_compute|].
  apply (MarshalJSON_writes_members_in_key_order
           (Delete (Delete (Delete bac_any "a") "b") "c")).
  by vm_compute.
Defined.

(** ** From the text back to the container *)

Section StringRoundTrip.
Import GoJson.

(** What the encoder writes for one ASCII byte, the decoder reads back as
    that byte. *)
Lemma unquote_chunk esc c fuel tail :
  (code c < 128)%N →
  unquote_loop (S fuel) ((if safe esc c then String c EmptyString else escape_byte c)
                         +:+ tail)
  = '(t, rest) ← unquote_loop fuel tail; Some (String c t, rest).
Proof.
  destruct esc; destruct c as [[] [] [] [] [] [] [] []]; intros Hc;
    try (by vm_compute in Hc); reflexivity.
Qed.

Lemma chunk_length esc c :
  1 ≤ String.length (if safe esc c then String c EmptyString else escape_byte c).
Proof.
  destruct (safe esc c); [simpl; lia|]. unfold escape_byte, u00.
  repeat case_match; simpl; lia.
Qed.

Lemma is_ascii_cons c s : is_ascii (String c s) = true ↔ (code c < 128)%N ∧ is_ascii s = true.
Proof. simpl. rewrite andb_true_iff, N.ltb_lt. done. Qed.

Lemma appendString_loop_length esc f s :
  is_ascii s = true → String.length s ≤ f →
  String.length s ≤ String.length (appendString_loop f esc s).
Proof.
  revert f. induction s as [|c s IH]; intros f Hs Hf; [simpl; lia|].
  apply is_ascii_cons in Hs as [Hc Hs]. simpl in Hf.
  destruct f as [|f]; [lia|]. cbn [appendString_loop].
  apply N.ltb_lt in Hc. rewrite Hc, sapp_length.
  pose proof (chunk_length esc c). specialize (IH f Hs). simpl. lia.
Qed.

Lemma unquote_loop_appendString esc s f fuel rest :
  is_ascii s = true → String.length s ≤ f → String.length s < fuel →
  unquote_loop fuel (appendString_loop f esc s +:+ String quote rest) = Some (s, rest).
Proof.
  revert f fuel. induction s as [|c s IH]; intros f fuel Hs Hf Hfuel.
  - destruct fuel as [|fuel]; [simpl in Hfuel; lia|]. by destruct f.
  - apply is_ascii_cons in Hs as [Hc Hs]. simpl in Hf, Hfuel.
    destruct f as [|f]; [lia|]. destruct fuel as [|fuel]; [lia|].
    cbn [appendString_loop]. pose proof Hc as Hc'. apply N.ltb_lt in Hc'.
    rewrite Hc', sapp_assoc, unquote_chunk by done.
    rewrite IH by (done || lia). done.
Qed.

(** [unquote] undoes [appendString] on ASCII strings, whatever the flag. *)
Lemma unquote_appendString esc s rest :
  is_ascii s = true →
  ∃ t, appendString esc s +:+ rest = String quote t ∧ unquote t = Some (s, rest).
Proof.
  intros Hs. unfold appendString. rewrite sapp_cons. eexists. split; [done|].
  unfold unquote. rewrite sapp_assoc. rewrite sapp_cons, sapp_nil_l.
  apply unquote_loop_appendString; [done|done|].
  rewrite sapp_length. simpl.
  pose proof (appendString_loop_length esc (String.length s) s Hs). lia.
Qed.

End StringRoundTrip.

Section NumberRoundTrip.
Import GoJson.

Lemma scan_number_app st lit rest :
  scan_number st lit = Some (lit, EmptyString) → ends_number rest →
  scan_number st (lit +:+ rest) = Some (lit, rest).
Proof.
  revert st. induction lit as [|c lit IH]; intros st Hscan Hend.
  - rewrite sapp_nil_l. simpl in Hscan.
    destruct (num_final st) eqn:Hf; [|done].
    destruct rest as [|c rest]; simpl; [by rewrite Hf|].
    by rewrite (Hend st), Hf.
  - rewrite sapp_cons. simpl in Hscan |- *.
    destruct (num_step st c) as [st'|].
    + destruct (scan_number st' lit) as [[lit' rest']|] eqn:Hs; [|done].
      injection Hscan as -> ->. by rewrite (IH st' Hs Hend).
    + destruct (num_final st); done.
Qed.

Lemma isValidNumber_scan lit rest :
  isValidNumber lit = true → ends_number rest →
  scan_number NStart (lit +:+ rest) = Some (lit, rest).
Proof.
  unfold isValidNumber. intros Hv%bool_decide_eq_true. by apply scan_number_app.
Qed.

(** A valid literal starts with a minus sign or a digit. *)
Lemma isValidNumber_head lit :
  isValidNumber lit = true →
  ∃ c t, lit = String c t ∧ (is_char c "-" || is_digit c) = true.
Proof.
  unfold isValidNumber. intros Hv%bool_decide_eq_true.
  destruct lit as [|c t]; [done|]. exists c, t. split; [done|].
  simpl in Hv. destruct (is_char c "-"); [done|].
  destruct (is_char c "0") eqn:H0.
  - apply is_char_eq in H0. by subst.
  - by destruct (is_digit c).
Qed.

End NumberRoundTrip.

Section StringOrder.

Lemma string_compare_refl (s : string) : String.compare s s = Eq.
Proof.
  pose proof (String.compare_antisym s s) as H. by destruct (String.compare s s).
Qed.

Lemma string_ltb_irrefl (s : string) : String.ltb s s = false.
Proof. unfold String.ltb. by rewrite string_compare_refl. Qed.

Lemma string_ltb_asym (a b : string) : String.ltb a b = true → String.ltb b a = false.
Proof.
  unfold String.ltb. rewrite (String.compare_antisym a b).
  by destruct (String.compare b a).
Qed.

Lemma string_ltb_leb (a b : string) : String.ltb a b = negb (String.leb b a).
Proof.
  unfold String.ltb, String.leb. rewrite (String.compare_antisym a b).
  by destruct (String.compare b a).
Qed.

Lemma string_leb_trans (a b c : string) :
  String.leb a b = true → String.leb b c = true → String.leb a c = true.
Proof.
  intros Hab Hbc. apply Is_true_true. 
  apply (transitivity (R := String.le) (y := b)); by apply Is_true_true.
Qed.

Lemma string_ltb_trans (a b c : string) :
  String.ltb a b = true → String.ltb b c = true → String.ltb a c = true.
Proof.
  intros Hab Hbc. rewrite string_ltb_leb, negb_true_iff.
  destruct (String.leb c a) eqn:Hca; [|done].
  rewrite string_ltb_leb, negb_true_iff in Hab.
  assert (String.leb b c = true) as Hbc'.
  { destruct (String.leb_total b c) as [?|Hcb]; [done|].
    rewrite string_ltb_leb, negb_true_iff in Hbc. congruence. }
  rewrite <- Hab. symmetry. by apply (string_leb_trans b c a).
Qed.


Lemma string_ltb_swo : StrictWeakOrder String.ltb.
Proof.
  split.
  - apply string_ltb_irrefl.
  - apply string_ltb_trans.
  - intros x y z. unfold tied. rewrite !string_ltb_leb, !negb_involutive.
    rewrite !andb_true_iff. intros [Hyx Hxy] [Hzy Hyz]. split.
    + by apply (string_leb_trans z y x).
    + by apply (string_leb_trans x y z).
Qed.

End StringOrder.

Section PlainValues.
Import GoJson.

Lemma any_size_ASlice elems : any_size (ASlice elems) = S (slice_size elems).
Proof. reflexivity. Qed.

Lemma any_size_AMap entries : any_size (AMap entries) = S (entries_size entries).
Proof.
  cbn [any_size]. f_equal. induction entries as [|[k x] entries IH]; [done|].
  simpl. rewrite IH. reflexivity.
Qed.

Lemma any_depth_ASlice elems : any_depth (ASlice elems) = S (slice_depth elems).
Proof. reflexivity. Qed.

Lemma any_depth_AMap entries : any_depth (AMap entries) = S (entries_depth entries).
Proof.
  cbn [any_depth]. f_equal. induction entries as [|[k x] entries IH]; [done|].
  simpl. rewrite IH. reflexivity.
Qed.

Lemma plain_ASlice elems : plain (ASlice elems) = forallb plain elems.
Proof. reflexivity. Qed.

Lemma plain_AMap entries :
  plain (AMap entries) = strictly_sorted entries.*1 && forallb plain_entry entries.
Proof.
  cbn [plain]. f_equal. induction entries as [|[k x] entries IH]; [done|].
  simpl. rewrite IH. reflexivity.
Qed.


Lemma to_json_AMap entries : to_json (AMap entries) = JObj (to_json_entry <$> entries).
Proof.
  cbn [to_json]. f_equal. induction entries as [|[k x] entries IH]; [done|].
  simpl. rewrite IH. reflexivity.
Qed.



End PlainValues.

Section ParseBack.
Import GoJson.

Lemma skip_space_head c s : is_space c = false → skip_space (String c s) = String c s.
Proof. intros Hc. simpl. by rewrite Hc. Qed.

Lemma skip_space_gap nl x : skip_space (gap nl +:+ x) = skip_space x.
Proof. by destruct nl. Qed.

Lemma ends_number_gap nl x :
  (nl = false → ends_number x) → ends_number (gap nl +:+ x).
Proof.
  destruct nl; intros Hx.
  - intros st. by destruct st.
  - rewrite sapp_nil_l. by apply Hx.
Qed.

Lemma ends_number_comma x : ends_number ("," +:+ x).
Proof. intros st. by destruct st. Qed.

Lemma ends_number_bracket x : ends_number ("]" +:+ x).
Proof. intros st. by destruct st. Qed.

Lemma ends_number_brace x : ends_number ("}" +:+ x).
Proof. intros st. by destruct st. Qed.

Lemma number_head_facts c :
  (is_char c "-" || is_digit c) = true →
  is_space c = false ∧ is_char c "]" = false ∧ is_char c "{" = false ∧
  is_char c "[" = false ∧ is_char c quote = false ∧ is_char c "t" = false ∧
  is_char c "f" = false ∧ is_char c "n" = false.
Proof.
  destruct c as [[] [] [] [] [] [] [] []]; intros Hc; try (by vm_compute in Hc);
    by vm_compute.
Qed.

Lemma parses_back_ANil : parses_back ANil.
Proof.
  intros esc text fuel depth rest [= <-] Hfuel _ _.
  destruct fuel as [|fuel]; [simpl in Hfuel; lia|]. reflexivity.
Qed.

Lemma parses_back_ABool b : parses_back (ABool b).
Proof.
  intros esc text fuel depth rest Hm Hfuel _ _.
  destruct fuel as [|fuel]; [simpl in Hfuel; lia|].
  destruct b; injection Hm as <-; reflexivity.
Qed.

Lemma parses_back_ANum lit : parses_back (ANum lit).
Proof.
  intros esc text fuel depth rest Hm Hfuel _ Hend.
  destruct fuel as [|fuel]; [simpl in Hfuel; lia|].
  cbn [marshal] in Hm. destruct (isValidNumber lit) eqn:Hv; [|done].
  injection Hm as <-.
  destruct (isValidNumber_head lit Hv) as (c & t & -> & Hc).
  destruct (number_head_facts c Hc) as (H1 & H2 & H3 & H4 & H5 & H6 & H7 & H8).
  rewrite sapp_cons. cbn [parse_value]. rewrite skip_space_head by done.
  rewrite H3, H4, H5, H6, H7, H8. rewrite <- sapp_cons.
  by rewrite (isValidNumber_scan _ rest Hv Hend).
Qed.

Lemma parses_back_AStr s : is_ascii s = true → parses_back (AStr s).
Proof.
  intros Hs esc text fuel depth rest [= <-] Hfuel _ _.
  destruct fuel as [|fuel]; [simpl in Hfuel; lia|].
  destruct (unquote_appendString esc s rest Hs) as (t & -> & Ht).
  cbn [parse_value]. rewrite skip_space_head by done.
  change (is_char quote "{") with false. change (is_char quote "[") with false.
  change (is_char quote quote) with true. cbn iota. by rewrite Ht.
Qed.

(** The text of a plain value starts with a byte that is no white space
    and closes no array. *)
Lemma marshal_head esc v text :
  plain v = true → marshal esc v = Some text →
  ∃ c t, text = String c t ∧ is_space c = false ∧ is_char c "]" = false.
Proof.
  intros Hp Hm. destruct v as [|b|lit|s|elems|entries|ks entries e].
  - injection Hm as <-. by eexists _, _.
  - destruct b; injection Hm as <-; by eexists _, _.
  - cbn [marshal] in Hm. cbn [plain] in Hp. rewrite Hp in Hm. injection Hm as <-.
    destruct (isValidNumber_head lit Hp) as (c & t & -> & Hc).
    destruct (number_head_facts c Hc) as (H1 & H2 & _). by exists c, t.
  - injection Hm as <-. unfold appendString. by eexists _, _.
  - rewrite marshal_ASlice in Hm. destruct (mapM _ elems); [|done].
    injection Hm as <-. rewrite sapp_cons. by eexists _, _.
  - rewrite marshal_AMap in Hm. destruct (mapM _ entries); [|done].
    injection Hm as <-. rewrite sapp_cons. by eexists _, _.
  - done.
Qed.

End ParseBack.

Section ParseBackLists.
Import GoJson.

Lemma sapp_single (c : ascii) (x : string) : String c EmptyString +:+ x = String c x.
Proof. reflexivity. Qed.

Lemma join_cons2 sep (x y : string) l :
  join sep (x :: y :: l) = x +:+ sep +:+ join sep (y :: l).
Proof. reflexivity. Qed.

Lemma mapM_cons_Some {A B} (f : A → option B) x l ys :
  mapM f (x :: l) = Some ys →
  ∃ y ys', ys = y :: ys' ∧ f x = Some y ∧ mapM f l = Some ys'.
Proof.
  cbn [mapM]. destruct (f x) as [y|]; simpl; [|done].
  destruct (mapM f l) as [ys'|]; simpl; [|done].
  intros [= <-]. by exists y, ys'.
Qed.

Lemma parse_elements_back elems :
  Forall parses_back elems → elems ≠ [] →
  ∀ esc texts fuel depth rest,
    mapM (marshal esc) elems = Some texts → slice_size elems ≤ fuel →
    depth + slice_depth elems ≤ maxNestingDepth →
    parse_elements fuel depth (join "," texts +:+ "]" +:+ rest)
    = Some (to_json <$> elems, rest).
Proof.
  induction elems as [|e es IH]; intros Hall Hne esc texts fuel depth rest Hm Hfuel Hdepth;
    [done|].
  apply Forall_cons in Hall as [He Hes].
  apply mapM_cons_Some in Hm as (t & ts & -> & Ht & Hts).
  change (slice_size (e :: es)) with (S (any_size e + slice_size es)) in Hfuel.
  change (slice_depth (e :: es)) with (any_depth e `max` slice_depth es) in Hdepth.
  destruct fuel as [|fuel]; [lia|]. cbn [parse_elements].
  destruct es as [|e' es'].
  - injection Hts as <-. change (join "," [t]) with t. rewrite sapp_single.
    rewrite (He esc t fuel depth (String "]" rest) Ht); [|lia|lia|by intros []].
    reflexivity.
  - pose proof Hts as Hts'.
    apply mapM_cons_Some in Hts' as (t' & ts' & -> & _ & _).
    rewrite join_cons2, !sapp_assoc, !sapp_single.
    rewrite (He esc t fuel depth _ Ht); [|lia|lia|by intros []].
    cbn [mbind option_bind skip_space]. change (is_space ",") with false. cbn iota.
    change (is_char "," ",") with true. cbn iota.
    rewrite <- (sapp_single "]").
    rewrite (IH Hes ltac:(done) esc _ fuel depth rest Hts); [done|lia|lia].
Qed.

Lemma skip_space_members nl esc (texts : list (string * string)) x :
  texts ≠ [] →
  ∃ t, join "," (member_with_gaps nl esc <$> texts) +:+ x = String quote t.
Proof.
  destruct texts as [|kt l]; [done|]. intros _.
  rewrite fmap_cons, join_cons. unfold member_with_gaps at 1, appendString.
  rewrite !sapp_cons. by eexists.
Qed.

Lemma parse_members_back nl entries :
  Forall (λ kv, parses_back kv.2) entries →
  Forall (λ kv, is_ascii kv.1 = true) entries → entries ≠ [] →
  ∀ esc texts fuel depth rest,
    mapM (marshal_entry esc) entries = Some texts → entries_size entries ≤ fuel →
    depth + entries_depth entries ≤ maxNestingDepth →
    parse_members fuel depth (join "," (member_with_gaps nl esc <$> texts) +:+ "}" +:+ rest)
    = Some (to_json_entry <$> entries, rest).
Proof.
  induction entries as [|[k v] es IH];
    intros Hall Hkeys Hne esc texts fuel depth rest Hm Hfuel Hdepth; [done|].
  apply Forall_cons in Hall as [He Hes]. apply Forall_cons in Hkeys as [Hk Hks].
  simpl in He, Hk.
  apply mapM_cons_Some in Hm as ([k0 t] & ts & -> & Ht & Hts).
  unfold marshal_entry in Ht. simpl in Ht.
  destruct (marshal esc v) as [t0|] eqn:Hv; [|done]. simpl in Ht. injection Ht as <- <-.
  change (entries_size ((k, v) :: es)) with (S (any_size v + entries_size es)) in Hfuel.
  change (entries_depth ((k, v) :: es)) with (any_depth v `max` entries_depth es) in Hdepth.
  destruct fuel as [|fuel]; [lia|].
  assert (Hstep : ∀ tail,
    (nl = false → ends_number tail) →
    parse_members (S fuel) depth (member_with_gaps nl esc (k, t0) +:+ tail) =
    match skip_space tail with
    | String c5 s5 =>
        if is_char c5 "," then
          '(ms, rest) ← parse_members fuel depth (skip_space s5);
          Some ((k, to_json v) :: ms, rest)
        else if is_char c5 "}" then Some ([(k, to_json v)], s5)
        else None
    | EmptyString => None
    end).
  { intros tail Htail. unfold member_with_gaps. simpl fst. simpl snd.
    rewrite !sapp_assoc.
    destruct (unquote_appendString esc k
                (gap nl +:+ ":" +:+ t0 +:+ gap nl +:+ tail) Hk) as (u & -> & Hu).
    cbn [parse_members]. change (is_char quote quote) with true. cbn iota.
    rewrite Hu. cbn [mbind option_bind]. rewrite skip_space_gap, sapp_single.
    cbn [skip_space]. change (is_space ":") with false. cbn iota.
    change (is_char ":" ":") with true. cbn iota.
    rewrite (He esc t0 fuel depth (gap nl +:+ tail) Hv); [|lia|lia|by apply ends_number_gap].
    cbn [mbind option_bind]. by rewrite skip_space_gap. }
  fold (@fmap list _ _ _ (member_with_gaps nl esc)).
  rewrite fmap_cons. destruct es as [|e' es'].
  - injection Hts as <-. rewrite fmap_nil. change (join "," [?x]) with x.
    rewrite sapp_single, Hstep by (by intros _ []). reflexivity.
  - pose proof Hts as Hts'.
    apply mapM_cons_Some in Hts' as (t' & ts' & -> & _ & _).
    rewrite fmap_cons, join_cons2, !sapp_assoc, !sapp_single.
    rewrite Hstep by (by intros _ []).
    cbn [skip_space]. change (is_space ",") with false. cbn iota.
    change (is_char "," ",") with true. cbn iota.
    rewrite <- fmap_cons, <- (sapp_single "}").
    destruct (skip_space_members nl esc (t' :: ts') ("}" +:+ rest)) as [u Hu]; [done|].
    rewrite Hu at 1. rewrite skip_space_head by done. rewrite <- Hu.
    rewrite (IH Hes Hks ltac:(done) esc _ fuel depth rest Hts); [done|lia|lia].
Qed.

End ParseBackLists.

Section ParseBackValues.
Import GoJson.

Lemma forallb_Forall {A} (f : A → bool) (l : list A) :
  forallb f l = true → Forall (λ x, f x = true) l.
Proof.
  induction l as [|x l IH]; intros Hf; [constructor|].
  apply andb_prop in Hf as [Hx Hl]. constructor; [done|by apply IH].
Qed.

Lemma strictly_sorted_cons k ks :
  strictly_sorted (k :: ks) = true →
  strictly_sorted ks = true ∧ Forall (λ k', String.ltb k k' = true) ks.
Proof.
  revert k. induction ks as [|k' ks IH]; intros k Hs; [by split|].
  cbn [strictly_sorted] in Hs. apply andb_prop in Hs as [Hlt Hs].
  destruct (IH k' Hs) as [Hs' Hall]. split; [done|].
  constructor; [done|].
  eapply Forall_impl; [exact Hall|]. intros x Hx. by eapply string_ltb_trans.
Qed.

Lemma sort_entries_sorted {V} (m : list (string * V)) :
  strictly_sorted m.*1 = true → sort_entries m = m.
Proof.
  induction m as [|e m IH]; intros Hs; [done|].
  rewrite fmap_cons in Hs. destruct (strictly_sorted_cons _ _ Hs) as [Hs' Hall].
  unfold sort_entries in *. cbn [foldr]. rewrite (IH Hs').
  destruct m as [|e' m']; [done|].
  apply Forall_cons in Hall as [Hlt _]. simpl in Hlt.
  by rewrite (string_ltb_asym _ _ Hlt).
Qed.

Lemma marshal_entry_keys esc entries texts :
  mapM (marshal_entry esc) entries = Some texts → texts.*1 = entries.*1.
Proof.
  revert texts. induction entries as [|[k v] es IH]; intros texts Hm.
  - by injection Hm as <-.
  - apply mapM_cons_Some in Hm as (t & ts & -> & Ht & Hts).
    unfold marshal_entry in Ht. simpl in Ht. destruct (marshal esc v); [|done].
    injection Ht as <-. rewrite !fmap_cons. simpl. f_equal. by apply IH.
Qed.

Lemma entry_text_gaps esc (texts : list (string * string)) :
  entry_text esc <$> texts = member_with_gaps false esc <$> texts.
Proof.
  induction texts as [|kt l IH]; [done|]. rewrite !fmap_cons, IH. f_equal.
  unfold entry_text, member_with_gaps, gap. by rewrite sapp_nil_l, sapp_nil_r.
Qed.

(** The text the encoder writes for a plain value is read back by the
    scanner as the syntax tree of that value. *)
Lemma plain_parses_back v : plain v = true → parses_back v.
Proof.
  induction v as [|b|lit|s|elems IH|entries IH|ks entries e IH] using any_ind_nested;
    intros Hp.
  - apply parses_back_ANil.
  - apply parses_back_ABool.
  - apply parses_back_ANum.
  - by apply parses_back_AStr.
  - rewrite plain_ASlice in Hp.
    assert (Hall : Forall parses_back elems).
    { apply forallb_Forall in Hp.
      eapply Forall_impl; [exact (proj2 (Forall_and _ _) (conj IH Hp))|].
      intros x [Hx1 Hx2]. by apply Hx1. }
    intros esc text fuel depth rest Hm Hfuel Hdepth Hend.
    rewrite marshal_ASlice in Hm. destruct (mapM _ elems) as [texts|] eqn:Hts; [|done].
    injection Hm as <-. rewrite any_size_ASlice in Hfuel. rewrite any_depth_ASlice in Hdepth.
    destruct fuel as [|fuel]; [lia|].
    assert (Hd : (maxNestingDepth <=? depth) = false) by (apply Nat.leb_gt; lia).
    rewrite !sapp_assoc, sapp_single. cbn [parse_value skip_space].
    change (is_space "[") with false. cbn iota.
    change (is_char "[" "{") with false. change (is_char "[" "[") with true. cbn iota.
    rewrite Hd. destruct elems as [|x elems'].
    + injection Hts as <-. reflexivity.
    + pose proof Hts as Hts'. apply mapM_cons_Some in Hts' as (t & ts & -> & Ht & _).
      apply andb_prop in Hp as [Hx _].
      destruct (marshal_head esc x t Hx Ht) as (c & t0 & -> & Hc1 & Hc2).
      pose proof (parse_elements_back (x :: elems') Hall ltac:(done) esc _ fuel (S depth)
                    rest Hts ltac:(lia) ltac:(lia)) as Hpe.
      rewrite join_cons, !sapp_cons in Hpe |- *.
      rewrite skip_space_head by done. rewrite Hc2. by rewrite Hpe.
  - rewrite plain_AMap in Hp. apply andb_prop in Hp as [Hsorted Hp].
    assert (Hall : Forall (λ kv, parses_back kv.2) entries).
    { apply forallb_Forall in Hp.
      eapply Forall_impl; [exact (proj2 (Forall_and _ _) (conj IH Hp))|].
      intros x [Hx1 Hx2]. apply Hx1. by apply andb_prop in Hx2 as [_ ?]. }
    assert (Hkeys : Forall (λ kv, is_ascii kv.1 = true) entries).
    { apply forallb_Forall in Hp. eapply Forall_impl; [exact Hp|].
      intros x Hx. by apply andb_prop in Hx as [? _]. }
    intros esc text fuel depth rest Hm Hfuel Hdepth Hend.
    rewrite marshal_AMap in Hm.
    destruct (mapM _ entries) as [texts|] eqn:Hts; [|done].
    injection Hm as <-. rewrite any_size_AMap in Hfuel. rewrite any_depth_AMap in Hdepth.
    rewrite sort_entries_sorted by (by rewrite (marshal_entry_keys _ _ _ Hts)).
    rewrite entry_text_gaps.
    destruct fuel as [|fuel]; [lia|].
    assert (Hd : (maxNestingDepth <=? depth) = false) by (apply Nat.leb_gt; lia).
    rewrite !sapp_assoc, sapp_single. cbn [parse_value skip_space].
    change (is_space "{") with false. cbn iota.
    change (is_char "{" "{") with true. cbn iota.
    rewrite Hd. destruct entries as [|x entries'].
    + injection Hts as <-. reflexivity.
    + pose proof (parse_members_back false (x :: entries') Hall Hkeys ltac:(done) esc _ fuel
                    (S depth) rest Hts ltac:(lia) ltac:(lia)) as Hpm.
      destruct (skip_space_members false esc texts ("}" +:+ rest)) as [u Hu].
      { intros ->. by apply mapM_cons_Some in Hts as (? & ? & ? & _). }
      rewrite Hu in Hpm |- *. rewrite skip_space_head by done.
      change (is_char quote "}") with false. cbn iota. rewrite Hpm.
      by rewrite to_json_AMap.
  - done.
Qed.

End ParseBackValues.

Section SizeOfText.
Import GoJson.

Lemma member_with_gaps_length nl esc k t :
  String.length t ≤ String.length (member_with_gaps nl esc (k, t)).
Proof. unfold member_with_gaps. rewrite !sapp_length. simpl. lia. Qed.

Lemma slice_size_bound esc elems texts :
  Forall (λ x, ∀ t, marshal esc x = Some t → any_size x ≤ String.length t) elems →
  mapM (marshal esc) elems = Some texts →
  slice_size elems ≤ S (String.length (join "," texts)).
Proof.
  revert texts. induction elems as [|x es IH]; intros texts Hall Hm.
  - unfold slice_size. simpl. lia.
  - apply Forall_cons in Hall as [Hx Hes].
    apply mapM_cons_Some in Hm as (t & ts & -> & Ht & Hts).
    change (slice_size (x :: es)) with (S (any_size x + slice_size es)).
    specialize (Hx t Ht). specialize (IH ts Hes Hts).
    destruct es as [|x' es'].
    + injection Hts as <-. change (join "," [t]) with t.
      change (slice_size []) with 0. lia.
    + pose proof Hts as Hts'. apply mapM_cons_Some in Hts' as (t' & ts' & -> & _ & _).
      rewrite join_cons2, !sapp_length. change (String.length ",") with 1. lia.
Qed.

Lemma entries_size_bound nl esc entries texts :
  Forall (λ kv, ∀ t, marshal esc kv.2 = Some t → any_size kv.2 ≤ String.length t) entries →
  mapM (marshal_entry esc) entries = Some texts →
  entries_size entries ≤ S (String.length (join "," (member_with_gaps nl esc <$> texts))).
Proof.
  revert texts. induction entries as [|[k x] es IH]; intros texts Hall Hm.
  - unfold entries_size. simpl. lia.
  - apply Forall_cons in Hall as [Hx Hes]. simpl in Hx.
    apply mapM_cons_Some in Hm as ([k0 t] & ts & -> & Ht & Hts).
    unfold marshal_entry in Ht. simpl in Ht.
    destruct (marshal esc x) as [t0|] eqn:Hv; [|done]. simpl in Ht. injection Ht as <- <-.
    change (entries_size ((k, x) :: es)) with (S (any_size x + entries_size es)).
    specialize (Hx t0 eq_refl). specialize (IH ts Hes Hts).
    pose proof (member_with_gaps_length nl esc k t0) as Hlen.
    rewrite fmap_cons. destruct es as [|x' es'].
    + injection Hts as <-. rewrite fmap_nil. change (join "," [?m]) with m.
      change (entries_size []) with 0. lia.
    + pose proof Hts as Hts'. apply mapM_cons_Some in Hts' as (t' & ts' & -> & _ & _).
      rewrite fmap_cons, join_cons2, !sapp_length. rewrite <- fmap_cons.
      change (String.length ",") with 1. lia.
Qed.

(** The text of a plain value has a byte for every value in it. *)
Lemma any_size_bound v :
  plain v = true → ∀ esc text, marshal esc v = Some text → any_size v ≤ String.length text.
Proof.
  induction v as [|b|lit|s|elems IH|entries IH|ks entries e IH] using any_ind_nested;
    intros Hp esc text Hm.
  - injection Hm as <-. simpl. lia.
  - destruct b; injection Hm as <-; simpl; lia.
  - cbn [marshal] in Hm. cbn [plain] in Hp. rewrite Hp in Hm. injection Hm as <-.
    destruct (isValidNumber_head lit Hp) as (c & t & -> & _). simpl. lia.
  - injection Hm as <-. unfold appendString. simpl. lia.
  - rewrite plain_ASlice in Hp. apply forallb_Forall in Hp.
    rewrite marshal_ASlice in Hm. destruct (mapM _ elems) as [texts|] eqn:Hts; [|done].
    injection Hm as <-. rewrite any_size_ASlice, !sapp_length.
    assert (slice_size elems ≤ S (String.length (join "," texts))); [|simpl; lia].
    apply (slice_size_bound esc); [|done].
    eapply Forall_impl; [exact (proj2 (Forall_and _ _) (conj IH Hp))|].
    intros x [Hx1 Hx2] t Ht. by apply (Hx1 Hx2 esc).
  - rewrite plain_AMap in Hp. apply andb_prop in Hp as [Hsorted Hp].
    apply forallb_Forall in Hp.
    rewrite marshal_AMap in Hm. destruct (mapM _ entries) as [texts|] eqn:Hts; [|done].
    injection Hm as <-. rewrite any_size_AMap, !sapp_length.
    rewrite sort_entries_sorted by (by rewrite (marshal_entry_keys _ _ _ Hts)).
    rewrite entry_text_gaps.
    assert (entries_size entries
            ≤ S (String.length (join "," (member_with_gaps false esc <$> texts))));
      [|simpl; lia].
    apply entries_size_bound; [|done].
    eapply Forall_impl; [exact (proj2 (Forall_and _ _) (conj IH Hp))|].
    intros x [Hx1 Hx2] t Ht. apply andb_prop in Hx2 as [_ Hx2]. by apply (Hx1 Hx2 esc).
  - done.
Qed.

(** The encoder refuses no plain value. *)
Lemma plain_marshal v : plain v = true → ∀ esc, is_Some (marshal esc v).
Proof.
  induction v as [|b|lit|s|elems IH|entries IH|ks entries e IH] using any_ind_nested;
    intros Hp esc.
  - by eexists.
  - by eexists.
  - cbn [marshal]. cbn [plain] in Hp. rewrite Hp. by eexists.
  - by eexists.
  - rewrite plain_ASlice in Hp. apply forallb_Forall in Hp. rewrite marshal_ASlice.
    assert (is_Some (mapM (marshal esc) elems)) as [texts ->]; [|by eexists].
    apply mapM_is_Some.
    eapply Forall_impl; [exact (proj2 (Forall_and _ _) (conj IH Hp))|].
    intros x [Hx1 Hx2]. by apply Hx1.
  - rewrite plain_AMap in Hp. apply andb_prop in Hp as [_ Hp].
    apply forallb_Forall in Hp. rewrite marshal_AMap.
    assert (is_Some (mapM (marshal_entry esc) entries)) as [texts ->]; [|by eexists].
    apply mapM_is_Some.
    eapply Forall_impl; [exact (proj2 (Forall_and _ _) (conj IH Hp))|].
    intros x [Hx1 Hx2]. apply andb_prop in Hx2 as [_ Hx2].
    destruct (Hx1 Hx2 esc) as [t Ht]. simpl. unfold marshal_entry. rewrite Ht. by eexists.
  - done.
Qed.

End SizeOfText.

Section DecodeBack.
Import GoJson.








Lemma members_of_entries o ks :
  mapM (λ k, text ← Encode (escapeHTML o) (default zero (values o !! k));
             Some (Encode_string (escapeHTML o) k +:+ ":" +:+ text)) ks
  = (fmap (member_with_gaps true (escapeHTML o))) <$>
      mapM (marshal_entry (escapeHTML o)) ((λ k, (k, default zero (values o !! k))) <$> ks).
Proof.
  induction ks as [|k ks IH]; [done|].
  rewrite fmap_cons. cbn [mapM]. rewrite IH. unfold Encode.
  change (marshal_entry (escapeHTML o) (k, default zero (values o !! k)))
    with (text ← marshal (escapeHTML o) (default zero (values o !! k)); Some (k, text)).
  clear IH. destruct (marshal _ _) as [t|]; simpl; [|done].
  destruct (mapM (marshal_entry (escapeHTML o)) _) as [ts|]; simpl; [|done].
  do 2 f_equal. unfold member_with_gaps, Encode_string, gap. simpl.
  by rewrite !sapp_assoc.
Qed.

Lemma MarshalJSON_entries o :
  MarshalJSON o =
  texts ← mapM (marshal_entry (escapeHTML o)) (entries_of o);
  Some ("{" +:+ join "," (member_with_gaps true (escapeHTML o) <$> texts) +:+ "}").
Proof.
  unfold MarshalJSON, MarshalJSON_text. rewrite MarshalJSON_loop_members.
  rewrite members_of_entries. unfold entries_of.
  destruct (mapM _ _) as [texts|]; simpl; [|done]. by rewrite sapp_assoc.
Qed.

Lemma entries_depth_lt entries n :
  0 < n → Forall (λ kv, any_depth kv.2 < n) entries → entries_depth entries < n.
Proof.
  intros Hn. induction 1 as [|kv l Hkv _ IH]; [done|].
  change (entries_depth (kv :: l)) with (any_depth kv.2 `max` entries_depth l). lia.
Qed.

Lemma representable_entries o :
  representable o →
  Forall (λ kv, is_ascii kv.1 = true ∧ plain kv.2 = true ∧ any_depth kv.2 < maxNestingDepth)
         (entries_of o).
Proof.
  intros [[Hnd Hdom] Hvals]. unfold entries_of. apply Forall_fmap, Forall_forall.
  intros k Hk. simpl.
  assert (k ∈ dom (values o)) as [v Hv]%elem_of_dom.
  { rewrite <- Hdom. by apply elem_of_list_to_set. }
  rewrite Hv. simpl. specialize (Hvals k v Hv). simpl in Hvals.
  apply andb_prop in Hvals as [[Hk1 Hk2]%andb_prop Hk3].
  by apply Nat.ltb_lt in Hk3.
Qed.

(** [MarshalJSON] accepts a representable container, and the scanner reads
    its text as the object of the entries in the key order. *)
Lemma MarshalJSON_parses_back o :
  representable o →
  ∃ text, MarshalJSON o = Some text ∧
          parse text = Some (JObj (to_json_entry <$> entries_of o)).
Proof.
  intros Hrep. pose proof (representable_entries o Hrep) as Hent.
  assert (is_Some (mapM (marshal_entry (escapeHTML o)) (entries_of o))) as [texts Hts].
  { apply mapM_is_Some. eapply Forall_impl; [exact Hent|].
    intros kv (_ & Hp & _). destruct (plain_marshal _ Hp (escapeHTML o)) as [t Ht].
    simpl. unfold marshal_entry. rewrite Ht. by eexists. }
  rewrite MarshalJSON_entries, Hts. eexists. split; [reflexivity|].
  unfold parse. rewrite !sapp_length.
  remember (String.length "{" +
            (String.length (join "," (member_with_gaps true (escapeHTML o) <$> texts))
             + String.length "}")) as fuel eqn:Hfuel.
  assert (Hd : (maxNestingDepth <=? 0) = false) by reflexivity.
  assert (Hmax : 0 < maxNestingDepth) by (by apply Nat.leb_gt).
  rewrite sapp_single. cbn [parse_value skip_space].
  change (is_space "{") with false. cbn iota.
  change (is_char "{" "{") with true. cbn iota. rewrite Hd.
  destruct (entries_of o) as [|kv entries] eqn:Hentries.
  - injection Hts as <-. reflexivity.
  - rewrite <- (sapp_nil_r "}").
    destruct (skip_space_members true (escapeHTML o) texts ("}" +:+ "")) as [u Hu].
    { intros ->. by apply mapM_cons_Some in Hts as (? & ? & ? & _). }
    pose proof (parse_members_back true (kv :: entries)) as Hpm.
    specialize (Hpm ltac:(eapply Forall_impl; [exact Hent|];
                          intros ? (_ & Hp & _); by apply plain_parses_back)).
    specialize (Hpm ltac:(eapply Forall_impl; [exact Hent|]; by intros ? (? & _))).
    specialize (Hpm ltac:(done) (escapeHTML o) texts fuel 1 EmptyString Hts).
    rewrite Hu. rewrite skip_space_head by done.
    change (is_char quote "}") with false. cbn iota. rewrite <- Hu.
    rewrite Hpm; [done| |].
    + pose proof (entries_size_bound true (escapeHTML o) (kv :: entries) texts) as Hb.
      change (String.length "{") with 1 in Hfuel.
      change (String.length "}") with 1 in Hfuel.
      etrans; [apply Hb|lia]; [|done].
      eapply Forall_impl; [exact Hent|].
      intros x (_ & Hp & _) t Ht. by eapply any_size_bound.
    + assert (entries_depth (kv :: entries) < maxNestingDepth); [|lia].
      apply entries_depth_lt; [done|].
      eapply Forall_impl; [exact Hent|]. by intros ? (_ & _ & ?).
Qed.

End DecodeBack.

Section RoundTrip.
Import GoJson.

Lemma entries_of_json o :
  to_json_entry <$> entries_of o
  = (λ k, (k, to_json (default zero (values o !! k)))) <$> keys o.
Proof. unfold entries_of. by rewrite <- list_fmap_compose. Qed.



(** X18: A representable container is encoded without error, and its text is
    valid JSON: the scanner reads it as one object that has a member for
    every key of the order, in that order, with the JSON value of the
    key's entry. *)
Theorem MarshalJSON_text_is_the_object_of_the_entries o :
  representable o →
  ∃ text, MarshalJSON o = Some text ∧
          parse text =
          Some (JObj ((λ k, (k, to_json (default zero (values o !! k)))) <$> Keys o)).
Proof.
  intros Hrep. destruct (MarshalJSON_parses_back o Hrep) as (text & Hm & Hp).
  exists text. split; [done|]. by rewrite Hp, entries_of_json.
Qed.


End RoundTrip.

Lemma MarshalJSON_text_is_the_object_of_the_entries_witness :
  representable round_trip_example ∧
  ∃ text, MarshalJSON round_trip_example = Some text ∧
          parse text =
          Some (JObj ((λ k, (k, to_json (default zero (values round_trip_example !! k))))
                        <$> Keys round_trip_example)).
Proof.
  assert (Hrep : representable round_trip_example) by decide_by_computation.
  split; [exact Hrep|].
  exact (MarshalJSON_text_is_the_object_of_the_entries round_trip_example Hrep).
Defined.


(** ** Lookup against the key order *)

Section LookupAndOrder.
Context {T : Type} `{GoZero T}.
Implicit Types (o : OrderedMap T) (k : string).

(** X20: In a consistent container [Get] finds exactly the keys that [Keys]
    lists; for any other key it gives the zero value of the value type. *)
Theorem Get_finds_the_listed_keys o k :
  consistent o →
  ((Get o k).2 = true ↔ k ∈ Keys o) ∧ (k ∉ Keys o → Get o k = (zero, false)).
Proof.
  intros Hc. assert (Hiff : (Get o k).2 = true ↔ k ∈ Keys o).
  { unfold Keys. by rewrite (consistent_lookup o k Hc), Get_found. }
  split; [done|]. intros Hk. rewrite <- Hiff in Hk.
  unfold Get in *. by destruct (values o !! k).
Qed.

End LookupAndOrder.

Lemma Get_finds_the_listed_keys_witness :
  consistent bac ∧ ((Get bac "a").2 = true ↔ "a" ∈ Keys bac) ∧
  ("z" ∉ Keys bac → Get bac "z" = (0%Z, false)).
Proof.
  assert (Hc : consistent bac) by decide_by_computation.
  split; [exact Hc|]. split.
  - exact (proj1 (Get_finds_the_listed_keys bac "a" Hc)).
  - exact (proj2 (Get_finds_the_listed_keys bac "z" Hc)).
Defined.

(** ** Sorting slices of any length

    [sort.Sort] leaves the slice sorted, whatever its length: the
    insertion sort, the heap sort, the two partitions and the partial
    insertion sort each do on their range what the quicksort expects of
    them. *)

Section SortRanges.
Import GoSort.
Context {A : Type} (less : A → A → bool).
Implicit Types (data d : list A).

Lemma Swap_lookup i j data n :
  i < length data → j < length data →
  Swap i j data !! n = data !! transpose i j n.
Proof.
  intros Hi Hj. unfold Swap, transpose.
  destruct (lookup_lt_is_Some_2 data i Hi) as [x Hx].
  destruct (lookup_lt_is_Some_2 data j Hj) as [y Hy].
  rewrite Hx, Hy. destruct (decide (n = i)) as [->|Hni].
  - rewrite list_lookup_insert_eq by (by rewrite length_insert). done.
  - rewrite list_lookup_insert_ne by done.
    destruct (decide (n = j)) as [->|Hnj].
    + by rewrite list_lookup_insert_eq.
    + by rewrite list_lookup_insert_ne.
Qed.

Lemma Swap_out_of_range i j data :
  ¬ (i < length data ∧ j < length data) → Swap i j data = data.
Proof.
  intros Hij. unfold Swap.
  destruct (data !! i) as [x|] eqn:Hx; [|done].
  destruct (data !! j) as [y|] eqn:Hy; [|done].
  apply lookup_lt_Some in Hx, Hy. lia.
Qed.

Lemma Less_Swap i j data p q :
  i < length data → j < length data →
  Less less (Swap i j data) p q = Less less data (transpose i j p) (transpose i j q).
Proof. intros Hi Hj. unfold Less. by rewrite !Swap_lookup. Qed.

Lemma moved_refl a b data : moved a b data data.
Proof. exists id. by split_and!. Qed.

Lemma moved_trans a b d1 d2 d3 : moved a b d1 d2 → moved a b d2 d3 → moved a b d1 d3.
Proof.
  intros (f & Hf1 & Hf2 & Hf3) (g & Hg1 & Hg2 & Hg3).
  exists (f ∘ g). split_and!.
  - intros i Hi. simpl. by apply Hf1, Hg1.
  - intros i Hi. simpl. rewrite (Hg2 i Hi). by apply Hf2.
  - intros i. simpl. by rewrite Hg3, Hf3.
Qed.

Lemma moved_wider a b a' b' d d' :
  a' ≤ a → b ≤ b' → moved a b d d' → moved a' b' d d'.
Proof.
  intros Ha Hb (f & Hf1 & Hf2 & Hf3). exists f. split_and!; [|intros i Hi; apply Hf2; lia|done].
  intros i Hi. destruct (decide (a ≤ i < b)) as [Hin|Hout].
  - specialize (Hf1 i Hin). lia.
  - rewrite (Hf2 i Hout). lia.
Qed.

Lemma moved_Swap a b i j data :
  a ≤ i < b → a ≤ j < b → moved a b data (Swap i j data).
Proof.
  intros Hi Hj. destruct (decide (i < length data ∧ j < length data)) as [[Hil Hjl]|Hout].
  - exists (transpose i j). split_and!.
    + intros n Hn. unfold transpose. repeat case_decide; lia.
    + intros n Hn. unfold transpose. repeat case_decide; lia.
    + intros n. by apply Swap_lookup.
  - rewrite Swap_out_of_range by done. apply moved_refl.
Qed.

Lemma moved_length a b d d' : b ≤ length d → moved a b d d' → length d' = length d.
Proof.
  intros Hb (f & Hf1 & Hf2 & Hf3).
  assert (Hlt : ∀ i, i < length d' ↔ i < length d).
  { intros i. rewrite <- !lookup_lt_is_Some, Hf3.
    destruct (decide (a ≤ i < b)) as [Hin|Hout].
    - specialize (Hf1 i Hin). rewrite !lookup_lt_is_Some. lia.
    - by rewrite (Hf2 i Hout). }
  destruct (Nat.lt_trichotomy (length d') (length d)) as [Hl|[Hl|Hl]]; [|done|].
  - apply Hlt in Hl. lia.
  - apply Hlt in Hl. lia.
Qed.

Lemma moved_Less a b d d' :
  moved a b d d' →
  ∃ f : nat → nat,
    (∀ i, a ≤ i < b → a ≤ f i < b) ∧ (∀ i, ¬ (a ≤ i < b) → f i = i) ∧
    ∀ i j, Less less d' i j = Less less d (f i) (f j).
Proof.
  intros (f & Hf1 & Hf2 & Hf3). exists f. split_and!; [done..|].
  intros i j. unfold Less. by rewrite !Hf3.
Qed.

Lemma moved_Less_outside a b d d' i j :
  moved a b d d' → ¬ (a ≤ i < b) → ¬ (a ≤ j < b) → Less less d' i j = Less less d i j.
Proof.
  intros (f & Hf1 & Hf2 & Hf3)%moved_Less Hi Hj. by rewrite Hf3, !Hf2.
Qed.

Lemma moved_sorted_range a b d d' a' b' :
  moved a b d d' → (b ≤ a' ∨ b' ≤ a) → sorted_range less d a' b' → sorted_range less d' a' b'.
Proof.
  intros Hm Hdisj Hs i j Hi Hij Hj.
  rewrite (moved_Less_outside a b d d') by (done || lia). by apply Hs.
Qed.

Lemma moved_bounded_below a b d d' :
  moved a b d d' → bounded_below less d a b → bounded_below less d' a b.
Proof.
  intros (f & Hf1 & Hf2 & Hf3)%moved_Less Hb q Ha Hq1 Hq2.
  rewrite Hf3, (Hf2 (a - 1)) by lia. apply Hb; [done|..]; specialize (Hf1 q); lia.
Qed.

Context (Hswo : StrictWeakOrder less).

Lemma Less_asym data i j : Less less data i j = true → Less less data j i = false.
Proof.
  unfold Less. destruct (data !! i) as [x|], (data !! j) as [y|]; try done.
  by apply swo_asym.
Qed.

Lemma Less_irrefl data i : Less less data i i = false.
Proof. unfold Less. destruct (data !! i); [|done]. apply (swo_irrefl _ Hswo). Qed.

Lemma Less_neg_trans data i j k :
  j < length data →
  Less less data i j = false → Less less data j k = false → Less less data i k = false.
Proof.
  intros Hj. destruct (lookup_lt_is_Some_2 data j Hj) as [y Hy]. unfold Less. rewrite Hy.
  destruct (data !! i) as [x|], (data !! k) as [z|]; try done.
  by apply swo_neg_trans.
Qed.

Lemma Less_trans data i j k :
  Less less data i j = true → Less less data j k = true → Less less data i k = true.
Proof.
  unfold Less. destruct (data !! i) as [x|], (data !! j) as [y|], (data !! k) as [z|];
    try done. apply (swo_trans _ Hswo).
Qed.

(** *** The insertion sort *)

Lemma sink_sorted a i j data :
  a ≤ j → j ≤ i → i < length data →
  (∀ p q, a ≤ p → p < q → q ≤ i → p ≠ j → q ≠ j → Less less data q p = false) →
  (∀ q, j < q → q ≤ i → Less less data q j = false) →
  sorted_range less (sink less a j data) a (S i) ∧ moved a (S i) data (sink less a j data).
Proof.
  revert data. induction j as [|j IH]; intros data Haj Hji Hi H1 H2.
  - simpl. split; [|apply moved_refl]. intros p q Hp Hpq Hq.
    destruct (decide (p = 0)) as [->|Hp0]; [apply H2; lia|apply H1; lia].
  - cbn [sink]. destruct ((a <? S j) && Less less data (S j) j) eqn:Hc.
    + apply andb_prop in Hc as [Ha Hless]. apply Nat.ltb_lt in Ha.
      destruct (IH (Swap (S j) j data)) as [Hs Hm]; [lia|lia|by rewrite GoSortFacts.Swap_length|..].
      * intros p q Hp Hpq Hq Hpj Hqj. rewrite Less_Swap by lia. unfold transpose.
        repeat case_decide; subst; try lia; apply H1; lia.
      * intros q Hq1 Hq2. rewrite Less_Swap by lia. unfold transpose.
        repeat case_decide; subst; try lia; [by apply Less_asym|apply H2; lia].
      * split; [done|]. eapply moved_trans; [|exact Hm]. apply moved_Swap; lia.
    + split; [|apply moved_refl]. intros p q Hp Hpq Hq.
      destruct (decide (p = S j)) as [->|Hpj]; [apply H2; lia|].
      destruct (decide (q = S j)) as [->|Hqj]; [|apply H1; lia].
      apply andb_false_iff in Hc as [Ha|Hless]; [apply Nat.ltb_ge in Ha; lia|].
      destruct (decide (p = j)) as [->|Hpj']; [done|].
      apply (Less_neg_trans data (S j) j p); [lia|done|apply H1; lia].
Qed.

Lemma insertion_loop_sorted a n i data :
  a < i → i + n ≤ length data → sorted_range less data a i →
  sorted_range less (insertion_loop less a n i data) a (i + n) ∧
  moved a (i + n) data (insertion_loop less a n i data).
Proof.
  revert i data. induction n as [|n IH]; intros i data Hai Hlen Hs.
  - rewrite Nat.add_0_r. split; [done|apply moved_refl].
  - cbn [insertion_loop].
    destruct (sink_sorted a i i data) as [Hs' Hm']; [lia|lia|lia|..].
    + intros p q Hp Hpq Hq Hpi Hqi. apply Hs; lia.
    + intros q Hq1 Hq2. lia.
    + assert (Hl : length (sink less a i data) = length data).
      { apply Permutation_length, GoSortFacts.sink_perm. }
      destruct (IH (S i) (sink less a i data)) as [Hs'' Hm'']; [lia|lia|done|].
      replace (i + S n) with (S i + n) by lia. split; [done|].
      eapply moved_trans; [|exact Hm'']. eapply moved_wider; [| |exact Hm']; lia.
Qed.

Lemma insertionSort_sorted data a b :
  a ≤ b → b ≤ length data →
  sorted_range less (insertionSort less data a b) a b ∧
  moved a b data (insertionSort less data a b).
Proof.
  intros Hab Hb. unfold insertionSort.
  destruct (decide (b ≤ a + 1)) as [Hsmall|Hbig].
  - replace (b - (a + 1)) with 0 by lia. simpl. split; [|apply moved_refl].
    intros i j Hi Hij Hj. lia.
  - destruct (insertion_loop_sorted a (b - (a + 1)) (a + 1) data) as [Hs Hm]; [lia|lia|..].
    + intros i j Hi Hij Hj. lia.
    + by replace (a + 1 + (b - (a + 1))) with b in * by lia.
Qed.

End SortRanges.

Section SortPartitions.
Import GoSort.
Context {A : Type} (less : A → A → bool) (Hswo : StrictWeakOrder less).
Implicit Types (data d : list A).

(** *** [partition] *)

Lemma scan_up_spec n i j a d :
  S j - i ≤ n →
  (∀ k, i ≤ k → k < scan_up less n i j a d → Less less d k a = true) ∧
  (scan_up less n i j a d ≤ j → Less less d (scan_up less n i j a d) a = false).
Proof.
  revert i. induction n as [|n IH]; intros i Hn; cbn [scan_up].
  - split; intros; lia.
  - destruct (i <=? j) eqn:Hij; cbn [andb].
    + apply Nat.leb_le in Hij. destruct (Less less d i a) eqn:Hl.
      * destruct (IH (S i)) as [IH1 IH2]; [lia|]. split; [|done].
        intros k Hk1 Hk2. destruct (decide (k = i)) as [->|Hne]; [done|].
        apply IH1; [lia|done].
      * split; [intros; lia|done].
    + apply Nat.leb_gt in Hij. split; intros; lia.
Qed.

Lemma scan_down_spec n i j a d :
  1 ≤ i → S j - i ≤ n →
  (∀ k, scan_down less n i j a d < k → k ≤ j → Less less d k a = false) ∧
  (i ≤ scan_down less n i j a d → Less less d (scan_down less n i j a d) a = true).
Proof.
  intros Hi. revert j. induction n as [|n IH]; intros j Hn; cbn [scan_down].
  - split; intros; lia.
  - destruct (i <=? j) eqn:Hij; cbn [andb].
    + apply Nat.leb_le in Hij. destruct (Less less d j a) eqn:Hl; cbn [negb].
      * split; [intros; lia|done].
      * destruct (IH (j - 1)) as [IH1 IH2]; [lia|]. split; [|done].
        intros k Hk1 Hk2. destruct (decide (k = j)) as [->|Hne]; [done|].
        apply IH1; [done|lia].
    + apply Nat.leb_gt in Hij. split; intros; lia.
Qed.

Lemma partition_loop_spec n i j a b d :
  a < i → i ≤ j + 1 → j < b → b ≤ length d → S j - i ≤ n →
  (∀ k, a < k → k < i → Less less d k a = true) →
  (∀ k, j < k → k < b → Less less d k a = false) →
  let r := partition_loop less n i j a d in
  moved (a + 1) b d r.1 ∧ a ≤ r.2 ∧ r.2 < b ∧
  (∀ k, a < k → k ≤ r.2 → Less less r.1 k a = true) ∧
  (∀ k, r.2 < k → k < b → Less less r.1 k a = false).
Proof.
  revert i j d. induction n as [|n IH]; intros i j d Hai Hij Hjb Hb Hn Hlo Hhi;
    cbn [partition_loop].
  - simpl. split_and!; [apply moved_refl|lia|lia| |done].
    intros k Hk1 Hk2. apply Hlo; lia.
  - pose proof (GoSortFacts.scan_up_bounds less (S j - i) i j a d) as Hup.
    destruct (scan_up_spec (S j - i) i j a d) as [Hup1 Hup2]; [lia|].
    set (i' := scan_up less (S j - i) i j a d) in *.
    pose proof (GoSortFacts.scan_down_bounds less (S j - i') i' j a d) as Hdown.
    destruct (scan_down_spec (S j - i') i' j a d) as [Hdown1 Hdown2]; [lia|lia|].
    set (j' := scan_down less (S j - i') i' j a d) in *.
    clearbody j' i'.
    assert (Hlo' : ∀ k, a < k → k < i' → Less less d k a = true).
    { intros k Hk1 Hk2. destruct (decide (k < i)); [by apply Hlo|apply Hup1; lia]. }
    assert (Hhi' : ∀ k, j' < k → k < b → Less less d k a = false).
    { intros k Hk1 Hk2. destruct (decide (j < k)); [by apply Hhi|apply Hdown1; lia]. }
    destruct (j' <? i') eqn:Hlt.
    + apply Nat.ltb_lt in Hlt. simpl.
      split_and!; [apply moved_refl|lia|lia| |done].
      intros k Hk1 Hk2. apply Hlo'; lia.
    + apply Nat.ltb_ge in Hlt.
      assert (Hi' : Less less d i' a = false) by (apply Hup2; lia).
      assert (Hj' : Less less d j' a = true) by (by apply Hdown2).
      assert (i' < j') as Hlt'.
      { destruct (decide (i' = j')) as [Heq|]; [|lia]. rewrite Heq in Hi'. congruence. }
      destruct (IH (S i') (j' - 1) (Swap i' j' d)) as (Hm & Hr1 & Hr2 & Hr3 & Hr4);
        [lia|lia|lia|by rewrite GoSortFacts.Swap_length|lia|..].
      * intros k Hk1 Hk2. rewrite Less_Swap by lia. unfold transpose.
        repeat case_decide; subst; try lia; [done|apply Hlo'; lia].
      * intros k Hk1 Hk2. rewrite Less_Swap by lia. unfold transpose.
        repeat case_decide; subst; try lia; [done|apply Hhi'; lia].
      * split_and!; [|done..]. eapply moved_trans; [|exact Hm]. apply moved_Swap; lia.
Qed.

(** [partition] puts the pivot into the slot it returns, the elements that
    come before the pivot in front of it and the others behind it. *)
Lemma partition_spec data a b pivot :
  a + 2 ≤ b → b ≤ length data → a ≤ pivot → pivot < b →
  let r := partition less data a b pivot in
  moved a b data r.1.1 ∧ a ≤ r.1.2 ∧ r.1.2 < b ∧
  (∀ k, a ≤ k → k < r.1.2 → Less less r.1.1 k r.1.2 = true) ∧
  (∀ k, r.1.2 < k → k < b → Less less r.1.1 k r.1.2 = false).
Proof.
  intros Hab Hb Hp1 Hp2. unfold partition.
  set (d := Swap a pivot data).
  assert (Hd : length d = length data) by apply GoSortFacts.Swap_length.
  assert (Hmd : moved a b data d) by (apply moved_Swap; lia).
  pose proof (GoSortFacts.scan_up_bounds less (S (b - 1) - (a + 1)) (a + 1) (b - 1) a d) as Hup.
  destruct (scan_up_spec (S (b - 1) - (a + 1)) (a + 1) (b - 1) a d) as [Hup1 Hup2]; [lia|].
  set (i' := scan_up less _ _ _ _ _) in *.
  pose proof (GoSortFacts.scan_down_bounds less (S (b - 1) - i') i' (b - 1) a d) as Hdown.
  destruct (scan_down_spec (S (b - 1) - i') i' (b - 1) a d) as [Hdown1 Hdown2]; [lia|lia|].
  set (j' := scan_down less _ _ _ _ _) in *.
  clearbody j' i'.
  assert (Hfinal : ∀ d' m,
    moved (a + 1) b d d' → a ≤ m → m < b →
    (∀ k, a < k → k ≤ m → Less less d' k a = true) →
    (∀ k, m < k → k < b → Less less d' k a = false) →
    moved a b data (Swap m a d') ∧
    (∀ k, a ≤ k → k < m → Less less (Swap m a d') k m = true) ∧
    (∀ k, m < k → k < b → Less less (Swap m a d') k m = false)).
  { intros d' m Hm Hm1 Hm2 Hlo Hhi.
    assert (Hd' : length d' = length data).
    { rewrite <- Hd. apply (moved_length (a + 1) b); [lia|done]. }
    split_and!.
    - eapply moved_trans; [exact Hmd|]. eapply moved_trans.
      + eapply moved_wider; [| |exact Hm]; lia.
      + apply moved_Swap; lia.
    - intros k Hk1 Hk2. rewrite Less_Swap by lia. unfold transpose.
      repeat case_decide; subst; try lia; apply Hlo; lia.
    - intros k Hk1 Hk2. rewrite Less_Swap by lia. unfold transpose.
      repeat case_decide; subst; try lia; apply Hhi; lia. }
  destruct (j' <? i') eqn:Hlt.
  - apply Nat.ltb_lt in Hlt. cbn [fst snd].
    destruct (Hfinal d j') as (H1 & H2 & H3).
    { apply moved_refl. }
    { lia. }
    { lia. }
    { intros k Hk1 Hk2. apply Hup1; lia. }
    { intros k Hk1 Hk2. apply Hdown1; lia. }
    split_and!; [done|lia|lia|done|done].
  - apply Nat.ltb_ge in Hlt.
    assert (Hi' : Less less d i' a = false) by (apply Hup2; lia).
    assert (Hj' : Less less d j' a = true) by (by apply Hdown2).
    assert (i' < j') as Hlt'.
    { destruct (decide (i' = j')) as [Heq|]; [|lia]. rewrite Heq in Hi'. congruence. }
    pose proof (partition_loop_spec (S j' - i') (S i') (j' - 1) a b (Swap i' j' d)) as Hloop.
    destruct (partition_loop less (S j' - i') (S i') (j' - 1) a (Swap i' j' d)) as [d' m].
    cbn [fst snd] in *.
    destruct Hloop as (Hm & Hr1 & Hr2 & Hr3 & Hr4);
      [lia|lia|lia|by rewrite GoSortFacts.Swap_length; lia|lia|..].
    + intros k Hk1 Hk2. rewrite Less_Swap by lia. unfold transpose.
      repeat case_decide; subst; try lia; [done|apply Hup1; lia].
    + intros k Hk1 Hk2. rewrite Less_Swap by lia. unfold transpose.
      repeat case_decide; subst; try lia; [done|apply Hdown1; lia].
    + destruct (Hfinal d' m) as (H1 & H2 & H3); [|done..|].
      * eapply moved_trans; [|exact Hm]. apply moved_Swap; lia.
      * split_and!; done.
Qed.

(** *** [partitionEqual] *)

Lemma scan_up_eq_spec n i j a d :
  ∀ k, i ≤ k → k < scan_up_eq less n i j a d → Less less d a k = false.
Proof.
  revert i. induction n as [|n IH]; intros i k Hk1 Hk2; cbn [scan_up_eq] in *; [lia|].
  destruct (i <=? j); cbn [andb] in Hk2; [|lia].
  destruct (Less less d a i) eqn:Hl; cbn [negb] in Hk2; [lia|].
  destruct (decide (k = i)) as [->|Hne]; [done|]. apply (IH (S i)); [lia|done].
Qed.

Lemma scan_up_eq_le n i j a d : scan_up_eq less n i j a d ≤ i `max` S j.
Proof.
  revert i. induction n as [|n IH]; intros i; cbn [scan_up_eq]; [lia|].
  destruct (i <=? j) eqn:Hij; cbn [andb]; [|lia]. apply Nat.leb_le in Hij.
  destruct (negb _); [|lia]. specialize (IH (S i)). lia.
Qed.

Lemma scan_down_eq_spec n i j a d :
  1 ≤ i →
  scan_down_eq less n i j a d ≤ j ∧
  (S j - i ≤ n → i ≤ scan_down_eq less n i j a d →
   Less less d a (scan_down_eq less n i j a d) = false).
Proof.
  intros Hi1. revert j. induction n as [|n IH]; intros j; cbn [scan_down_eq].
  - split; [done|]. intros; lia.
  - destruct (i <=? j) eqn:Hij; cbn [andb].
    + apply Nat.leb_le in Hij. destruct (Less less d a j) eqn:Hl.
      * destruct (IH (j - 1)) as [IH1 IH2]. split; [lia|].
        intros Hn Hi. apply IH2; [lia|done].
      * split; [done|]. by intros.
    + apply Nat.leb_gt in Hij. split; [done|]. intros; lia.
Qed.

Lemma partitionEqual_loop_spec n i j a b d :
  a < i → j < b → b ≤ length d → S j - i ≤ n →
  (∀ k, a < k → k < i → Less less d a k = false) →
  let r := partitionEqual_loop less n i j a d in
  moved (a + 1) b d r.1 ∧ (∀ k, a < k → k < r.2 → Less less r.1 a k = false).
Proof.
  revert i j d. induction n as [|n IH]; intros i j d Hai Hjb Hb Hn Hlo;
    cbn [partitionEqual_loop].
  - simpl. split; [apply moved_refl|done].
  - pose proof (GoSortFacts.scan_up_eq_ge less (S j - i) i j a d) as Hge.
    pose proof (scan_up_eq_le (S j - i) i j a d) as Hle.
    pose proof (scan_up_eq_spec (S j - i) i j a d) as Hup.
    set (i' := scan_up_eq less (S j - i) i j a d) in *.
    destruct (scan_down_eq_spec (S j - i') i' j a d) as [Hdown1 Hdown2]; [lia|].
    set (j' := scan_down_eq less (S j - i') i' j a d) in *.
    clearbody j' i'.
    assert (Hlo' : ∀ k, a < k → k < i' → Less less d a k = false).
    { intros k Hk1 Hk2. destruct (decide (k < i)); [by apply Hlo|apply Hup; lia]. }
    destruct (j' <? i') eqn:Hlt.
    + simpl. split; [apply moved_refl|done].
    + apply Nat.ltb_ge in Hlt.
      destruct (IH (S i') (j' - 1) (Swap i' j' d)) as [Hm Hr];
        [lia|lia|by rewrite GoSortFacts.Swap_length|lia|..].
      * intros k Hk1 Hk2. rewrite Less_Swap by lia. unfold transpose.
        repeat case_decide; subst; try lia; [apply Hdown2; lia|apply Hlo'; lia].
      * split; [|done]. eapply moved_trans; [|exact Hm]. apply moved_Swap; lia.
Qed.

(** [partitionEqual] gathers in front of the slot it returns elements that
    the pivot does not come before, the pivot in the first slot. *)
Lemma partitionEqual_spec data a b pivot :
  a < b → b ≤ length data → a ≤ pivot → pivot < b →
  let r := partitionEqual less data a b pivot in
  moved a b data r.1 ∧ a < r.2 ∧ r.1 !! a = data !! pivot ∧
  (∀ k, a ≤ k → k < r.2 → Less less r.1 a k = false).
Proof.
  intros Hab Hb Hp1 Hp2. unfold partitionEqual.
  pose proof (GoSortFacts.partitionEqual_loop_ge less (b - a) (a + 1) (b - 1) a
                (Swap a pivot data)) as Hge.
  destruct (partitionEqual_loop_spec (b - a) (a + 1) (b - 1) a b (Swap a pivot data))
    as [Hm Hr]; [lia|lia|by rewrite GoSortFacts.Swap_length|lia|intros; lia|].
  split_and!.
  - eapply moved_trans; [apply (moved_Swap a b a pivot); lia|].
    eapply moved_wider; [| |exact Hm]; lia.
  - lia.
  - destruct Hm as (f & Hf1 & Hf2 & Hf3). rewrite Hf3, Hf2 by lia.
    rewrite Swap_lookup by lia. unfold transpose. by rewrite decide_True.
  - intros k Hk1 Hk2. destruct (decide (k = a)) as [->|Hne]; [by apply Less_irrefl|].
    apply Hr; [lia|done].
Qed.

End SortPartitions.

Section SortPatterns.
Import GoSort.
Context {A : Type} (less : A → A → bool) (Hswo : StrictWeakOrder less).
Implicit Types (data d : list A).

(** *** [partialInsertionSort] *)

Lemma run_end_spec n i b d :
  b - i ≤ n →
  i ≤ run_end less n i b d ∧ run_end less n i b d ≤ i `max` b ∧
  (∀ k, i ≤ k → k < run_end less n i b d → Less less d k (k - 1) = false) ∧
  (run_end less n i b d < b → Less less d (run_end less n i b d) (run_end less n i b d - 1) = true).
Proof.
  revert i. induction n as [|n IH]; intros i Hn; cbn [run_end].
  - split_and!; [lia|lia|intros; lia|intros; lia].
  - destruct (i <? b) eqn:Hib; cbn [andb].
    + apply Nat.ltb_lt in Hib. destruct (Less less d i (i - 1)) eqn:Hl; cbn [negb].
      * split_and!; [lia|lia|intros; lia|done].
      * destruct (IH (S i)) as (IH1 & IH2 & IH3 & IH4); [lia|].
        split_and!; [lia|lia| |done].
        intros k Hk1 Hk2. destruct (decide (k = i)) as [->|Hne]; [done|].
        apply IH3; [lia|done].
    + apply Nat.ltb_ge in Hib. split_and!; [lia|lia|intros; lia|intros; lia].
Qed.

Lemma sorted_range_extend d a i r :
  r ≤ length d → sorted_range less d a i →
  (∀ k, i ≤ k → k < r → Less less d k (k - 1) = false) →
  sorted_range less d a r.
Proof.
  intros Hr Hs Hadj p q. revert p. induction q as [|q IHq]; intros p Hp Hpq Hq; [lia|].
  destruct (decide (S q < i)) as [Hlt|Hge]; [apply Hs; lia|].
  assert (Hstep : Less less d (S q) q = false).
  { specialize (Hadj (S q)). replace (S q - 1) with q in Hadj by lia. apply Hadj; lia. }
  destruct (decide (p = q)) as [->|Hne]; [done|].
  apply (Less_neg_trans less Hswo d (S q) q p); [lia|done|apply IHq; lia].
Qed.

Lemma shift_left_sink a j d :
  a ≤ j → j < length d →
  (0 < a → ∀ q, a ≤ q → q ≤ j → Less less d q (a - 1) = false) →
  shift_left less j d = sink less a j d.
Proof.
  revert d. induction j as [|j IH]; intros d Haj Hj Hb; [done|].
  cbn [shift_left sink]. destruct (decide (a ≤ j)) as [Hle|Hgt].
  - replace (a <? S j) with true by (symmetry; apply Nat.ltb_lt; lia). cbn [andb].
    destruct (Less less d (S j) j) eqn:Hl; [|done].
    apply IH; [done|rewrite GoSortFacts.Swap_length; lia|].
    intros Ha q Hq1 Hq2. rewrite Less_Swap by lia. unfold transpose.
    repeat case_decide; subst; try lia; apply Hb; lia.
  - replace (a <? S j) with false by (symmetry; apply Nat.ltb_ge; lia). cbn [andb].
    assert (a = S j) as -> by lia.
    specialize (Hb ltac:(lia) (S j) ltac:(lia) ltac:(lia)).
    replace (S j - 1) with j in Hb by lia. by rewrite Hb.
Qed.

Lemma shift_right_moved lo b n j d :
  lo < j → j + n ≤ b → moved lo b d (shift_right less n j d).
Proof.
  revert j d. induction n as [|n IH]; intros j d Hlo Hb; cbn [shift_right].
  - apply moved_refl.
  - destruct (Less less d j (j - 1)); [|apply moved_refl].
    eapply moved_trans; [apply (moved_Swap lo b j (j - 1)); lia|]. apply IH; lia.
Qed.

Lemma partial_loop_spec steps i a b d :
  a < i → i ≤ b → b ≤ length d → bounded_below less d a b → sorted_range less d a i →
  let r := partial_loop less steps i a b d in
  moved a b d r.1 ∧ (r.2 = true → sorted_range less r.1 a b).
Proof.
  revert i d. induction steps as [|steps IH]; intros i d Hai Hib Hb Hbd Hs;
    cbn [partial_loop].
  - simpl. split; [apply moved_refl|done].
  - destruct (run_end_spec (b - i) i b d) as (Hr1 & Hr2 & Hr3 & Hr4); [lia|].
    set (i' := run_end less (b - i) i b d) in *. clearbody i'.
    assert (Hs' : sorted_range less d a i').
    { apply (sorted_range_extend d a i i'); [lia|done|done]. }
    destruct (i' =? b) eqn:Heq.
    { apply Nat.eqb_eq in Heq. subst i'. simpl. split; [apply moved_refl|done]. }
    apply Nat.eqb_neq in Heq. destruct (b - a <? 50).
    { simpl. split; [apply moved_refl|done]. }
    set (d1 := Swap i' (i' - 1) d).
    assert (Hm1 : moved a b d d1) by (apply moved_Swap; lia).
    assert (Hl1 : length d1 = length d) by apply GoSortFacts.Swap_length.
    set (d2 := if 2 <=? i' - a then shift_left less (i' - 1) d1 else d1).
    assert (Hd2 : moved a i' d1 d2 ∧ sorted_range less d2 a i').
    { subst d2. destruct (2 <=? i' - a) eqn:H2.
      - apply Nat.leb_le in H2. rewrite (shift_left_sink a) by
          (lia || (intros Ha q Hq1 Hq2; apply (moved_bounded_below less a b d d1 Hm1 Hbd); lia)).
        destruct (sink_sorted less Hswo a (i' - 1) (i' - 1) d1) as [Hs2 Hm2]; [lia|lia|lia|..].
        + intros p q Hp Hpq Hq Hp' Hq'. subst d1. rewrite Less_Swap by lia.
          unfold transpose. repeat case_decide; subst; try lia. apply Hs'; lia.
        + intros q Hq1 Hq2. lia.
        + replace (S (i' - 1)) with i' in * by lia. done.
      - apply Nat.leb_gt in H2. split; [apply moved_refl|].
        intros p q Hp Hpq Hq. lia. }
    destruct Hd2 as [Hm2 Hs2].
    assert (Hl2 : length d2 = length d).
    { rewrite <- Hl1. apply (moved_length a i'); [lia|done]. }
    set (d3 := if 2 <=? b - i' then shift_right less (b - (i' + 1)) (i' + 1) d2 else d2).
    assert (Hm3 : moved i' b d2 d3).
    { subst d3. destruct (2 <=? b - i'); [|apply moved_refl].
      apply shift_right_moved; lia. }
    assert (Hm : moved a b d d3).
    { eapply moved_trans; [exact Hm1|]. eapply moved_trans.
      - eapply moved_wider; [| |exact Hm2]; lia.
      - eapply moved_wider; [| |exact Hm3]; lia. }
    destruct (IH i' d3) as [Hmr Hsr]; [lia|lia| | | |].
    + rewrite (moved_length a b d d3); [done|lia|done].
    + by apply (moved_bounded_below less a b d).
    + apply (moved_sorted_range less i' b d2); [done|by right|done].
    + split; [|done]. eapply moved_trans; [exact Hm|done].
Qed.

Lemma partialInsertionSort_spec data a b :
  a < b → b ≤ length data → bounded_below less data a b →
  let r := partialInsertionSort less data a b in
  moved a b data r.1 ∧ (r.2 = true → sorted_range less r.1 a b).
Proof.
  intros Hab Hb Hbd. apply partial_loop_spec; [lia|lia|done|done|].
  intros p q Hp Hpq Hq. lia.
Qed.

(** *** [reverseRange], [breakPatterns] and [choosePivot] *)

Lemma reverse_loop_moved a b n i j d :
  a ≤ i → j < b → moved a b d (reverse_loop n i j d).
Proof.
  revert i j d. induction n as [|n IH]; intros i j d Hi Hj; cbn [reverse_loop].
  - apply moved_refl.
  - destruct (i <? j) eqn:Hij; [|apply moved_refl]. apply Nat.ltb_lt in Hij.
    eapply moved_trans; [apply (moved_Swap a b i j); lia|]. apply IH; lia.
Qed.

Lemma reverseRange_moved data a b : a < b → moved a b data (reverseRange data a b).
Proof. intros Hab. apply reverse_loop_moved; lia. Qed.

Lemma break_loop_moved a b n i idx len k random d :
  a ≤ idx - 1 + i → idx - 1 + i + n ≤ b → 0 < len → a + len ≤ b → 2 ^ k ≤ 2 * len →
  moved a b d (break_loop n i idx a len (2 ^ Z.of_nat k) random d).
Proof.
  intros Hlo Hhi Hlen Hb Hk. revert i random d Hlo Hhi.
  induction n as [|n IH]; intros i random d Hlo Hhi; cbn [break_loop].
  - apply moved_refl.
  - set (random' := xorshift_Next random).
    set (other := Z.to_nat (Z.land random' (2 ^ Z.of_nat k - 1))).
    assert (Hother : other < 2 * len).
    { subst other. replace (2 ^ Z.of_nat k - 1)%Z with (Z.ones (Z.of_nat k))
        by (rewrite Z.ones_equiv; lia).
      rewrite Z.land_ones by lia.
      pose proof (Z.mod_pos_bound random' (2 ^ Z.of_nat k) ltac:(lia)) as Hmod.
      assert ((2 ^ Z.of_nat k)%Z = Z.of_nat (2 ^ k)) as Hpow.
      { by rewrite Nat2Z.inj_pow. }
      lia. }
    eapply moved_trans; [|apply IH; lia].
    apply moved_Swap; [lia|]. destruct (len <=? other) eqn:Hle.
    + apply Nat.leb_le in Hle. lia.
    + apply Nat.leb_gt in Hle. lia.
Qed.

Lemma breakPatterns_moved data a b : a ≤ b → moved a b data (breakPatterns data a b).
Proof.
  intros Hab. unfold breakPatterns. destruct (8 <=? b - a) eqn:H8; [|apply moved_refl].
  apply Nat.leb_le in H8. unfold nextPowerOfTwo.
  pose proof (Nat.Div0.div_le_upper_bound (b - a) 4 (b - a)) as Hdiv.
  assert (Hq : 2 ≤ (b - a) / 4 ∧ (b - a) / 4 * 4 ≤ b - a).
  { pose proof (Nat.div_mod_eq (b - a) 4). pose proof (Nat.mod_upper_bound (b - a) 4). lia. }
  apply break_loop_moved; [lia|lia|lia|lia|].
  unfold bits_Len. destruct (b - a) as [|l] eqn:Hl; [lia|].
  destruct (Nat.log2_spec (S l)) as [Hlog _]; [lia|].
  rewrite Nat.pow_succ_r'. lia.
Qed.

Lemma order2_in d x y s :
  let r := order2 less d x y s in
  (r.1.1 = x ∧ r.1.2 = y) ∨ (r.1.1 = y ∧ r.1.2 = x).
Proof. unfold order2. destruct (Less less d y x); simpl; auto. Qed.

Lemma median_in d x y z s :
  (median less d x y z s).1 = x ∨ (median less d x y z s).1 = y ∨
  (median less d x y z s).1 = z.
Proof.
  unfold median.
  pose proof (order2_in d x y s) as H1. destruct (order2 less d x y s) as [[x1 y1] s1].
  pose proof (order2_in d y1 z s1) as H2. destruct (order2 less d y1 z s1) as [[y2 z2] s2].
  pose proof (order2_in d x1 y2 s2) as H3. destruct (order2 less d x1 y2 s2) as [[x3 y3] s3].
  simpl in *. intuition congruence.
Qed.

Lemma hint_of_swaps_fst (j s : nat) :
  (match s with
   | 0 => (j, increasingHint)
   | 12 => (j, decreasingHint)
   | _ => (j, unknownHint)
   end).1 = j.
Proof. do 13 (destruct s as [|s]; [done|]). done. Qed.

Lemma choosePivot_bounds data a b :
  8 ≤ b - a → a ≤ (choosePivot less data a b).1 ∧ (choosePivot less data a b).1 < b.
Proof.
  intros H8. unfold choosePivot.
  assert (Hq : 2 ≤ (b - a) / 4 ∧ (b - a) / 4 * 4 ≤ b - a).
  { pose proof (Nat.div_mod_eq (b - a) 4). pose proof (Nat.mod_upper_bound (b - a) 4). lia. }
  set (q := (b - a) / 4) in *. clearbody q.
  replace (8 <=? b - a) with true by (symmetry; apply Nat.leb_le; lia).
  destruct (50 <=? b - a).
  - unfold medianAdjacent.
    pose proof (median_in data (a + q * 1 - 1) (a + q * 1) (a + q * 1 + 1) 0) as H1.
    destruct (median less data (a + q * 1 - 1) _ _ 0) as [i1 s1].
    pose proof (median_in data (a + q * 2 - 1) (a + q * 2) (a + q * 2 + 1) s1) as H2.
    destruct (median less data (a + q * 2 - 1) _ _ s1) as [j1 s2].
    pose proof (median_in data (a + q * 3 - 1) (a + q * 3) (a + q * 3 + 1) s2) as H3.
    destruct (median less data (a + q * 3 - 1) _ _ s2) as [k1 s3].
    pose proof (median_in data i1 j1 k1 s3) as H4.
    destruct (median less data i1 j1 k1 s3) as [j2 s4].
    rewrite hint_of_swaps_fst. simpl in *. lia.
  - pose proof (median_in data (a + q * 1) (a + q * 2) (a + q * 3) 0) as H4.
    destruct (median less data _ _ _ 0) as [j2 s4].
    rewrite hint_of_swaps_fst. simpl in *. lia.
Qed.

End SortPatterns.

Section SortHeap.
Import GoSort.
Context {A : Type} (less : A → A → bool) (Hswo : StrictWeakOrder less).
Implicit Types (data d : list A).

(** *** [heapSort] *)

(** [siftDown] repairs a heap that is in order everywhere but at [r]. *)
Lemma siftDown_loop_heap n first lo hi r d :
  lo ≤ r → hi ≤ r + n → first + hi ≤ length d →
  (∀ r' c, lo ≤ r' → r' ≠ r → c = 2 * r' + 1 ∨ c = 2 * r' + 2 → c < hi →
           Less less d (first + r') (first + c) = false) →
  (∀ pr c, lo ≤ pr → r = 2 * pr + 1 ∨ r = 2 * pr + 2 → c = 2 * r + 1 ∨ c = 2 * r + 2 →
           c < hi → Less less d (first + pr) (first + c) = false) →
  heap less (siftDown_loop less n r hi first d) first lo hi ∧
  moved first (first + hi) d (siftDown_loop less n r hi first d).
Proof.
  revert r d. induction n as [|n IH]; intros r d Hlo Hn Hlen P1 P2; cbn [siftDown_loop].
  - split; [|apply moved_refl]. intros r' c Hr' Hc Hchi.
    destruct (decide (r' = r)) as [->|Hne]; [lia|]. by apply P1.
  - destruct (hi <=? 2 * r + 1) eqn:Hleaf.
    { apply Nat.leb_le in Hleaf. split; [|apply moved_refl]. intros r' c Hr' Hc Hchi.
      destruct (decide (r' = r)) as [->|Hne]; [lia|]. by apply P1. }
    apply Nat.leb_gt in Hleaf.
    set (c' := if (2 * r + 1 + 1 <? hi)
                  && Less less d (first + (2 * r + 1)) (first + (2 * r + 1) + 1)
               then 2 * r + 1 + 1 else 2 * r + 1).
    assert (Hc' : (c' = 2 * r + 1 ∨ c' = 2 * r + 2) ∧ c' < hi ∧
                  ∀ c, c = 2 * r + 1 ∨ c = 2 * r + 2 → c < hi →
                       Less less d (first + c') (first + c) = false).
    { subst c'.
      destruct ((2 * r + 1 + 1 <? hi)
                && Less less d (first + (2 * r + 1)) (first + (2 * r + 1) + 1)) eqn:Hc.
      - apply andb_prop in Hc as [Hlt Hl]. apply Nat.ltb_lt in Hlt.
        replace (first + (2 * r + 1) + 1) with (first + (2 * r + 1 + 1)) in Hl by lia.
        split_and!; [lia|lia|]. intros c [->| ->] Hchi.
        + by apply Less_asym.
        + replace (2 * r + 2) with (2 * r + 1 + 1) by lia. by apply Less_irrefl.
      - split_and!; [lia|lia|]. intros c [->| ->] Hchi; [by apply Less_irrefl|].
        apply andb_false_iff in Hc as [Hlt|Hl]; [apply Nat.ltb_ge in Hlt; lia|].
        by replace (first + (2 * r + 1) + 1) with (first + (2 * r + 2)) in Hl by lia. }
    clearbody c'. destruct Hc' as (Hc1 & Hc2 & Hc3).
    destruct (Less less d (first + r) (first + c')) eqn:Hrc; cbn [negb].
    + destruct (IH c' (Swap (first + r) (first + c') d)) as [Hheap Hm];
        [lia|lia|by rewrite GoSortFacts.Swap_length|..].
      * intros r' c Hr' Hne Hc Hchi. rewrite Less_Swap by lia. unfold transpose.
        destruct (decide (r' = r)) as [->|Hner].
        -- repeat case_decide; try lia.
           ++ by apply Less_asym.
           ++ apply Hc3; [lia|done].
        -- repeat case_decide; try lia.
           ++ apply (P2 r' c'); [done|lia|done|done].
           ++ by apply P1.
      * intros pr c Hpr Hpc Hc Hchi. rewrite Less_Swap by lia. unfold transpose.
        repeat case_decide; try lia. apply P1; [lia|lia|done|done].
      * split; [done|]. eapply moved_trans; [|exact Hm]. apply moved_Swap; lia.
    + split; [|apply moved_refl]. intros r' c Hr' Hc Hchi.
      destruct (decide (r' = r)) as [->|Hne]; [|by apply P1].
      apply (Less_neg_trans less Hswo d (first + r) (first + c') (first + c)); [lia|done|].
      by apply Hc3.
Qed.

Lemma siftDown_heap first lo hi d :
  first + hi ≤ length d → heap less d first (S lo) hi →
  heap less (siftDown less d lo hi first) first lo hi ∧
  moved first (first + hi) d (siftDown less d lo hi first).
Proof.
  intros Hlen Hheap. apply siftDown_loop_heap; [lia|lia|done|..].
  - intros r' c Hr' Hne Hc Hchi. apply Hheap; [lia|done|done].
  - intros pr c Hpr Hpc. lia.
Qed.

Lemma heap_build first hi m d :
  first + hi ≤ length d → heap less d first m hi →
  heap less (foldl (λ d i, siftDown less d i hi first) d (rev (seq 0 m))) first 0 hi ∧
  moved first (first + hi) d (foldl (λ d i, siftDown less d i hi first) d (rev (seq 0 m))).
Proof.
  revert d. induction m as [|m IH]; intros d Hlen Hheap.
  - simpl. split; [done|apply moved_refl].
  - rewrite seq_S, rev_app_distr. cbn [rev app foldl Nat.add].
    destruct (siftDown_heap first m hi d Hlen Hheap) as [Hh Hm].
    destruct (IH (siftDown less d m hi first)) as [Hh' Hm']; [|done|].
    + rewrite (moved_length first (first + hi) d); [done|lia|done].
    + split; [done|]. by eapply moved_trans.
Qed.

(** The root of a heap comes before none of its elements. *)
Lemma heap_root_max first n d :
  first + n ≤ length d → heap less d first 0 n →
  ∀ p, p < n → Less less d first (first + p) = false.
Proof.
  intros Hlen Hheap p. induction p as [p IHp] using lt_wf_ind. intros Hp.
  destruct p as [|p]; [rewrite Nat.add_0_r; by apply Less_irrefl|].
  assert (Hdiv : S p = 2 * (p / 2) + 1 ∨ S p = 2 * (p / 2) + 2).
  { pose proof (Nat.div_mod_eq p 2). pose proof (Nat.mod_upper_bound p 2). lia. }
  assert (Hr : p / 2 < S p) by lia.
  apply (Less_neg_trans less Hswo d first (first + p / 2) (first + S p)); [lia| |].
  - apply IHp; lia.
  - apply Hheap; [lia|done|done].
Qed.

Lemma heap_drain first hi m d :
  m ≤ hi → first + hi ≤ length d → heap less d first 0 m →
  sorted_range less d (first + m) (first + hi) →
  (∀ p q, first ≤ p → p < first + m → first + m ≤ q → q < first + hi →
          Less less d q p = false) →
  let d' := foldl (λ d i, siftDown less (Swap first (first + i) d) 0 i first) d
                  (rev (seq 0 m)) in
  sorted_range less d' first (first + hi) ∧ moved first (first + hi) d d'.
Proof.
  revert d. induction m as [|m IH]; intros d Hm Hlen Hheap Hs Hsep.
  - simpl. rewrite Nat.add_0_r in Hs. split; [done|apply moved_refl].
  - rewrite seq_S, rev_app_distr. cbn [rev app foldl Nat.add].
    pose proof (heap_root_max first (S m) d ltac:(lia) Hheap) as Hmax.
    set (d1 := Swap first (first + m) d).
    assert (Hl1 : length d1 = length d) by apply GoSortFacts.Swap_length.
    assert (Hm1 : moved first (first + hi) d d1) by (apply moved_Swap; lia).
    destruct (siftDown_loop_heap m first 0 m 0 d1) as [Hh2 Hm2]; [lia|lia|lia|..].
    { intros r' c Hr' Hne Hc Hchi. subst d1. rewrite Less_Swap by lia. unfold transpose.
      repeat case_decide; try lia. apply Hheap; [lia|done|lia]. }
    { intros pr c Hpr Hpc. lia. }
    fold (siftDown less d1 0 m first) in Hh2, Hm2.
    set (d2 := siftDown less d1 0 m first) in *.
    assert (Hl2 : length d2 = length d).
    { rewrite <- Hl1. apply (moved_length first (first + m)); [lia|done]. }
    assert (Hsep1 : ∀ p q, first ≤ p → p < first + m → first + m ≤ q → q < first + hi →
                           Less less d1 q p = false).
    { intros p q Hp1 Hp2 Hq1 Hq2. subst d1. rewrite Less_Swap by lia. unfold transpose.
      repeat case_decide; try lia.
      - subst. replace (first + m) with (first + m) by done. apply Hmax. lia.
      - subst q. replace p with (first + (p - first)) by lia. apply Hmax. lia.
      - subst p. apply Hsep; lia.
      - apply Hsep; lia. }
    destruct (IH d2) as [Hs' Hm']; [lia|lia|done|..].
    + intros i j Hi Hij Hj.
      rewrite (moved_Less_outside less first (first + m) d1 d2) by (done || lia).
      subst d1. rewrite Less_Swap by lia. unfold transpose.
      repeat case_decide; try lia; first [apply Hsep; lia|apply Hs; lia].
    + intros p q Hp1 Hp2 Hq1 Hq2.
      destruct (moved_Less less _ _ _ _ Hm2) as (f & Hf1 & Hf2 & Hf3).
      rewrite Hf3, (Hf2 q) by lia. apply Hsep1; [specialize (Hf1 p); lia..|done|done].
    + split; [done|]. eapply moved_trans; [exact Hm1|].
      eapply moved_trans; [|exact Hm']. eapply moved_wider; [| |exact Hm2]; lia.
Qed.

Lemma heapSort_sorted data a b :
  a ≤ b → b ≤ length data →
  sorted_range less (heapSort less data a b) a b ∧ moved a b data (heapSort less data a b).
Proof.
  intros Hab Hb. unfold heapSort.
  destruct (heap_build a (b - a) ((b - a - 1) / 2 + 1) data) as [Hh Hm]; [lia| |].
  { intros r c Hr Hc Hchi.
    pose proof (Nat.div_mod_eq (b - a - 1) 2). pose proof (Nat.mod_upper_bound (b - a - 1) 2).
    lia. }
  set (d1 := foldl _ data (rev (seq 0 ((b - a - 1) / 2 + 1)))) in *.
  assert (Hl1 : length d1 = length data).
  { apply (moved_length a (a + (b - a))); [lia|done]. }
  destruct (heap_drain a (b - a) (b - a) d1) as [Hs Hm']; [lia|lia|done|..].
  - intros i j Hi Hij Hj. lia.
  - intros p q Hp1 Hp2 Hq1 Hq2. lia.
  - replace (a + (b - a)) with b in * by lia. split; [done|]. by eapply moved_trans.
Qed.

End SortHeap.

Section SortAnyLength.
Import GoSort.
Context {A : Type} (less : A → A → bool) (Hswo : StrictWeakOrder less).
Implicit Types (data d : list A).

(** *** [pdqsort] *)

Lemma sorted_range_join d a mid b :
  mid < length d →
  sorted_range less d a mid → sorted_range less d (mid + 1) b →
  (∀ k, a ≤ k → k < mid → Less less d k mid = true) →
  (∀ k, mid < k → k < b → Less less d k mid = false) →
  sorted_range less d a b.
Proof.
  intros Hmid Hleft Hright Hlo Hhi i j Hi Hij Hj.
  destruct (decide (j < mid)) as [Hjm|Hjm]; [apply Hleft; lia|].
  destruct (decide (mid < i)) as [Him|Him]; [apply Hright; lia|].
  destruct (decide (i = mid)) as [->|Hne]; [apply Hhi; lia|].
  destruct (decide (j = mid)) as [->|Hne']; [apply Less_asym; [done|]; apply Hlo; lia|].
  apply (Less_neg_trans less Hswo d j mid i); [done|apply Hhi; lia|].
  apply Less_asym; [done|]. apply Hlo; lia.
Qed.

Lemma moved_keeps_partition lo hi a mid b d d' :
  moved lo hi d d' → (a ≤ lo ∧ hi ≤ mid) ∨ (mid + 1 ≤ lo ∧ hi ≤ b) →
  (∀ k, a ≤ k → k < mid → Less less d k mid = true) →
  (∀ k, mid < k → k < b → Less less d k mid = false) →
  (∀ k, a ≤ k → k < mid → Less less d' k mid = true) ∧
  (∀ k, mid < k → k < b → Less less d' k mid = false).
Proof.
  intros (f & Hf1 & Hf2 & Hf3)%(moved_Less less) Hside Hlo Hhi.
  split; intros k Hk1 Hk2; rewrite Hf3, (Hf2 mid) by lia.
  - apply Hlo; (destruct (decide (lo ≤ k < hi)) as [Hin|Hout];
      [specialize (Hf1 k Hin); lia|rewrite (Hf2 k Hout); lia]).
  - apply Hhi; (destruct (decide (lo ≤ k < hi)) as [Hin|Hout];
      [specialize (Hf1 k Hin); lia|rewrite (Hf2 k Hout); lia]).
Qed.

Lemma bounded_below_narrow d a b b' :
  b' ≤ b → bounded_below less d a b → bounded_below less d a b'.
Proof. intros Hb Hbd q Ha Hq1 Hq2. apply Hbd; lia. Qed.

(** [pdqsort] sorts its range and touches no slot outside it, when no
    element of the range comes before the element in front of the range. *)
Lemma pdqsort_sorted fuel data a b limit wb wp data' :
  b ≤ length data → bounded_below less data a b →
  pdqsort less fuel data a b limit wb wp = Some data' →
  sorted_range less data' a b ∧ moved a b data data'.
Proof.
  revert data a b limit wb wp data'.
  induction fuel as [|fuel IH]; intros data a b limit wb wp data' Hb Hbd; cbn [pdqsort];
    [done|].
  destruct (b - a <=? 12) eqn:Hlen.
  { intros [= <-]. destruct (decide (a ≤ b)) as [Hab|Hab].
    - by apply insertionSort_sorted.
    - unfold insertionSort. replace (b - (a + 1)) with 0 by lia. simpl.
      split; [|apply moved_refl]. intros i j Hi Hij Hj. lia. }
  apply Nat.leb_gt in Hlen.
  destruct (limit =? 0).
  { intros [= <-]. apply heapSort_sorted; [done|lia|done]. }
  set (st := if negb wb then _ else _).
  assert (Hst : moved a b data st.1).
  { subst st. destruct (negb wb); simpl; [apply breakPatterns_moved; lia|apply moved_refl]. }
  destruct st as [d1 limit1]. simpl in Hst.
  pose proof (choosePivot_bounds less d1 a b ltac:(lia)) as Hpivot.
  destruct (choosePivot less d1 a b) as [pivot hint]. simpl in Hpivot.
  set (st := match hint with decreasingHint => _ | _ => _ end).
  assert (Hst2 : moved a b d1 st.1.1 ∧ a ≤ st.1.2 ∧ st.1.2 < b).
  { subst st. destruct hint; simpl; try (split; [apply moved_refl|lia]).
    split; [apply reverseRange_moved; lia|lia]. }
  destruct st as [[d2 pivot2] hint2]. simpl in Hst2. destruct Hst2 as (Hm2 & Hp1 & Hp2).
  assert (Hmd2 : moved a b data d2) by (by eapply moved_trans).
  assert (Hl2 : length d2 = length data) by (by apply (moved_length a b)).
  set (st := if _ && _ && _ then _ else _).
  assert (Hst3 : moved a b d2 st.1 ∧ (st.2 = true → sorted_range less st.1 a b)).
  { subst st. destruct (_ && _ && _); simpl; [|split; [apply moved_refl|done]].
    apply partialInsertionSort_spec; [done|lia|lia|].
    by apply (moved_bounded_below less a b data). }
  destruct st as [d3 done3]. simpl in Hst3. destruct Hst3 as (Hm3 & Hs3).
  assert (Hmd3 : moved a b data d3) by (by eapply moved_trans).
  assert (Hl3 : length d3 = length data) by (by apply (moved_length a b)).
  assert (Hbd3 : bounded_below less d3 a b) by (by apply (moved_bounded_below less a b data)).
  destruct done3.
  { intros [= <-]. split; [by apply Hs3|done]. }
  destruct ((0 <? a) && negb (Less less d3 (a - 1) pivot2)) eqn:Hpred.
  - apply andb_prop in Hpred as [Ha Hpred]. apply Nat.ltb_lt in Ha.
    apply negb_true_iff in Hpred.
    pose proof (partitionEqual_spec less Hswo d3 a b pivot2 ltac:(lia) ltac:(lia) Hp1 Hp2)
      as Hpe.
    destruct (partitionEqual less d3 a b pivot2) as [d4 mid]. simpl in Hpe.
    destruct Hpe as (Hm4 & Hmid & Hslot & Heq).
    assert (Hl4 : length d4 = length data).
    { rewrite <- Hl3. by apply (moved_length a b); [lia|]. }
    assert (Hbd4 : bounded_below less d4 a b) by (by apply (moved_bounded_below less a b d3)).
    assert (Hfront : ∀ x y, a ≤ x → x < mid → a ≤ y → y < b → Less less d4 y x = false).
    { intros x y Hx1 Hx2 Hy1 Hy2.
      assert (Hpa : Less less d4 (a - 1) a = false).
      { destruct Hm4 as (f & Hf1 & Hf2 & Hf3). unfold Less in *.
        by rewrite Hslot, Hf3, Hf2 by lia. }
      apply (Less_neg_trans less Hswo d4 y a x); [lia| |by apply Heq].
      apply (Less_neg_trans less Hswo d4 y (a - 1) a); [lia|by apply Hbd4|done]. }
    intros Hrec. apply IH in Hrec as [Hs5 Hm5]; [|lia|].
    2:{ intros q Hmid0 Hq1 Hq2. apply Hfront; lia. }
    split.
    + intros i j Hi Hij Hj. destruct (decide (i < mid)) as [Him|Him]; [|apply Hs5; lia].
      destruct (moved_Less less _ _ _ _ Hm5) as (f & Hf1 & Hf2 & Hf3).
      rewrite Hf3, (Hf2 i) by lia. apply Hfront; [lia|lia|..];
        (destruct (decide (mid ≤ j < b)) as [Hin|Hout];
         [specialize (Hf1 j Hin); lia|rewrite (Hf2 j Hout); lia]).
    + eapply moved_trans; [exact Hmd3|]. eapply moved_trans; [exact Hm4|].
      eapply moved_wider; [| |exact Hm5]; lia.
  - clear Hpred.
    pose proof (partition_spec less d3 a b pivot2 ltac:(lia) ltac:(lia) Hp1 Hp2) as Hpa.
    destruct (partition less d3 a b pivot2) as [[d4 mid] ap]. simpl in Hpa.
    destruct Hpa as (Hm4 & Hmid1 & Hmid2 & Hlo & Hhi).
    assert (Hl4 : length d4 = length data).
    { rewrite <- Hl3. by apply (moved_length a b); [lia|]. }
    assert (Hbd4 : bounded_below less d4 a b) by (by apply (moved_bounded_below less a b d3)).
    assert (Hmd4 : moved a b data d4) by (by eapply moved_trans).
    destruct (mid - a <? b - mid); intros Hrec;
      apply bind_Some in Hrec as (d5 & Hrec1 & Hrec2).
    + apply IH in Hrec1 as [Hs5 Hm5]; [|lia|apply (bounded_below_narrow d4 a b); [lia|done]].
      assert (Hl5 : length d5 = length data).
      { rewrite <- Hl4. by apply (moved_length a mid); [lia|]. }
      destruct (moved_keeps_partition a mid a mid b d4 d5 Hm5 ltac:(lia) Hlo Hhi)
        as [Hlo5 Hhi5].
      apply IH in Hrec2 as [Hs6 Hm6]; [|lia|].
      2:{ intros q Hmid0 Hq1 Hq2. replace (mid + 1 - 1) with mid by lia. apply Hhi5; lia. }
      destruct (moved_keeps_partition (mid + 1) b a mid b d5 data' Hm6 ltac:(lia) Hlo5 Hhi5)
        as [Hlo6 Hhi6].
      split.
      * apply (sorted_range_join data' a mid b); [|  |done..].
        -- rewrite (moved_length (mid + 1) b d5 data'); [lia|lia|done].
        -- apply (moved_sorted_range less (mid + 1) b d5); [done|right; lia|done].
      * eapply moved_trans; [exact Hmd4|]. eapply moved_trans.
        -- eapply moved_wider; [| |exact Hm5]; lia.
        -- eapply moved_wider; [| |exact Hm6]; lia.
    + apply IH in Hrec1 as [Hs5 Hm5]; [|lia|].
      2:{ intros q Hmid0 Hq1 Hq2. replace (mid + 1 - 1) with mid by lia. apply Hhi; lia. }
      assert (Hl5 : length d5 = length data).
      { rewrite <- Hl4. by apply (moved_length (mid + 1) b); [lia|]. }
      destruct (moved_keeps_partition (mid + 1) b a mid b d4 d5 Hm5 ltac:(lia) Hlo Hhi)
        as [Hlo5 Hhi5].
      apply IH in Hrec2 as [Hs6 Hm6]; [|lia|].
      2:{ intros q Ha Hq1 Hq2.
          rewrite (moved_Less_outside less (mid + 1) b d4 d5) by (done || lia).
          apply Hbd4; lia. }
      destruct (moved_keeps_partition a mid a mid b d5 data' Hm6 ltac:(lia) Hlo5 Hhi5)
        as [Hlo6 Hhi6].
      split.
      * apply (sorted_range_join data' a mid b); [|done| |done..].
        -- rewrite (moved_length a mid d5 data'); [lia|lia|done].
        -- apply (moved_sorted_range less a mid d5); [done|left; lia|done].
      * eapply moved_trans; [exact Hmd4|]. eapply moved_trans.
        -- eapply moved_wider; [| |exact Hm5]; lia.
        -- eapply moved_wider; [| |exact Hm6]; lia.
Qed.

End SortAnyLength.

Section SortSorts.
Context {A : Type} (less : A → A → bool) (Hswo : StrictWeakOrder less).

Lemma sorted_range_StronglySorted (l : list A) :
  sorted_range less l 0 (length l) → StronglySorted (λ x y, less y x = false) l.
Proof.
  induction l as [|x l IH]; intros Hs; constructor.
  - apply IH. intros i j Hi Hij Hj.
    specialize (Hs (S i) (S j) ltac:(lia) ltac:(lia) ltac:(simpl; lia)). done.
  - apply Forall_lookup. intros j y Hy.
    specialize (Hs 0 (S j) ltac:(lia) ltac:(lia)).
    unfold GoSort.Less in Hs. simpl in Hs. rewrite Hy in Hs. apply Hs.
    apply lookup_lt_Some in Hy. lia.
Qed.

(** [sort.Sort] leaves a slice of any length in the order of the
    comparator. *)
Lemma GoSort_Sort_sorted (l : list A) :
  StronglySorted (λ x y, less y x = false) (GoSort.Sort less l).
Proof.
  apply sorted_range_StronglySorted.
  pose proof (GoSortFacts.Sort_runs less l) as Hrun.
  pose proof (Permutation_length (GoSortFacts.Sort_perm less l)) as Hlen.
  rewrite Hlen. unfold GoSort.Sort_run in Hrun.
  destruct (length l <=? 1) eqn:H1.
  - apply Nat.leb_le in H1. intros i j Hi Hij Hj. lia.
  - apply (pdqsort_sorted less Hswo) in Hrun as [Hs _]; [done|done|].
    intros q Ha. lia.
Qed.

End SortSorts.

Section SortAnyNumberOfEntries.
Context {T : Type} `{GoZero T}.
Implicit Types (o : OrderedMap T) (lessFunc : Pair T → Pair T → bool).

(** X21: [Sort] leaves the entries in the order of the comparator, whatever
    their number: no pair comes before a pair of an earlier place.  It
    keeps every key and every value. *)
Theorem Sort_sorts_any_number_of_entries o lessFunc :
  StrictWeakOrder lessFunc →
  StronglySorted (λ x y, lessFunc y x = false) (pairs_of (Sort o lessFunc)) ∧
  Keys (Sort o lessFunc) ≡ₚ Keys o ∧
  ∀ k, Get (Sort o lessFunc) k = Get o k.
Proof.
  intros Hswo. split_and!; [|apply Sort_keys_perm|done].
  rewrite pairs_of_Sort. by apply GoSort_Sort_sorted.
Qed.

(** X22: [SortKeys] with [sort.Strings] puts the keys in ascending byte-wise
    order, whatever their number, and keeps every key and every entry. *)
Theorem SortKeys_with_sort_Strings o :
  Keys (SortKeys o sort_Strings) ≡ₚ Keys o ∧
  StronglySorted (λ a b, String.leb a b = true) (Keys (SortKeys o sort_Strings)) ∧
  ∀ k, Get (SortKeys o sort_Strings) k = Get o k.
Proof.
  unfold Keys. cbn [SortKeys keys].
  assert (Hperm : sort_Strings (keys o) ≡ₚ keys o) by apply GoSortFacts.Sort_perm.
  rewrite (in_place_perm _ _ Hperm). split_and!; [done| |done].
  assert (Himpl : ∀ l : list string,
            StronglySorted (λ x y, String.ltb y x = false) l →
            StronglySorted (λ a b, String.leb a b = true) l).
  { intros l Hl. induction Hl as [|x l _ IH Hx]; constructor; [done|].
    eapply Forall_impl; [exact Hx|]. intros y Hy. simpl in Hy.
    rewrite string_ltb_leb in Hy. by apply negb_false_iff in Hy. }
  apply Himpl. apply (GoSort_Sort_sorted String.ltb string_ltb_swo (keys o)).
Qed.

End SortAnyNumberOfEntries.

Lemma Sort_sorts_any_number_of_entries_witness :
  StronglySorted (λ x y, ascending y x = false) (pairs_of (Sort thirteen ascending)) ∧
  Keys (Sort thirteen ascending) ≡ₚ Keys thirteen.
Proof.
  destruct (Sort_sorts_any_number_of_entries thirteen ascending ascending_swo)
    as (Hs & Hp & _).
  by split.
Defined.

(** ** The flag and the other operations *)

Section Flag.
Import GoJson.
Implicit Types (o : OrderedMap any) (xs : list op).

Lemma apply_op_SetEscapeHTML o x on :
  apply_op (SetEscapeHTML o on) x = SetEscapeHTML (apply_op o x) on.
Proof.
  destruct x as [key val|key|lessFunc|sortFunc|b]; cbn [apply_op]; try reflexivity.
  - unfold Delete. cbn [SetEscapeHTML values keys]. by destruct (values o !! key).
  - destruct (parse b) as [j|] eqn:Hp.
    2:{ by rewrite !(UnmarshalJSON_syntax_error _ b Hp). }
    destruct j as [|v|lit|s|vs|ms];
      try (by rewrite !(UnmarshalJSON_type_error _ b _ Hp)).
    + by rewrite !(UnmarshalJSON_null _ b Hp).
    + by rewrite !(UnmarshalJSON_object _ b ms Hp).
Qed.

Lemma apply_op_escapeHTML o x : escapeHTML (apply_op o x) = escapeHTML o.
Proof.
  destruct x as [key val|key|lessFunc|sortFunc|b]; cbn [apply_op]; try reflexivity.
  - apply Delete_escapeHTML.
  - destruct (UnmarshalJSON_cases o b) as [[e ->]|[->|[ms ->]]]; reflexivity.
Qed.

(** X23: The flag and the other operations do not meet: [Set], [Delete],
    [Sort], [SortKeys] and [UnmarshalJSON] neither read nor change it, so
    [SetEscapeHTML] can be moved across any sequence of them; a container
    made by [New] keeps the flag set through all of them, and the text it
    is encoded to holds no [<], [>] or [&]. *)
Theorem the_flag_is_independent o xs on :
  apply_ops (SetEscapeHTML o on) xs = SetEscapeHTML (apply_ops o xs) on ∧
  escapeHTML (apply_ops o xs) = escapeHTML o ∧
  (∀ text, MarshalJSON (apply_ops New xs) = Some text → html_free text = true).
Proof.
  assert (Hflag : ∀ o', escapeHTML (apply_ops o' xs) = escapeHTML o').
  { unfold apply_ops. induction xs as [|x xs' IH]; intros o'; [done|].
    cbn [foldl]. by rewrite IH, apply_op_escapeHTML. }
  split_and!; [|apply Hflag|].
  - clear Hflag. unfold apply_ops. revert o.
    induction xs as [|x xs' IH]; intros o; [done|].
    cbn [foldl]. rewrite apply_op_SetEscapeHTML. apply IH.
  - intros text. apply MarshalJSON_html_free. by rewrite Hflag.
Qed.

End Flag.
